(** * hashicorp/go-version: parsing and ordering of version strings

    A shallow embedding of [vendor/github.com/hashicorp/go-version/version.go]
    together with the parts of the Go standard library that it calls
    ([strings.Split], [strings.Join], [strconv.ParseInt], [strconv.Itoa] and
    the leftmost-first matching of package [regexp]), followed by the
    properties of [NewVersion], [Compare] and [String]. *)

From Stdlib Require Import Ascii String List ZArith Lia Bool Arith.
Import ListNotations.

Local Open Scope Z_scope.

(* ================================================================== *)
(** ** Go strings: byte sequences *)

(** A Go string is an immutable sequence of bytes. *)
Definition str := list ascii.

(** String literals. *)
Definition lit (s : string) : str := list_ascii_of_string s.

(** [a == b] on strings. *)
Fixpoint str_eqb (a b : str) : bool :=
  match a, b with
  | [], [] => true
  | x :: a', y :: b' => Ascii.eqb x y && str_eqb a' b'
  | _, _ => false
  end.

(** Three-way bytewise lexicographic comparison, the order behind Go's
    [<] and [>] on strings. *)
Fixpoint str_compare (a b : str) : comparison :=
  match a, b with
  | [], [] => Eq
  | [], _ :: _ => Lt
  | _ :: _, [] => Gt
  | x :: a', y :: b' =>
      match Ascii.compare x y with
      | Eq => str_compare a' b'
      | o => o
      end
  end.

(** [a > b] on strings. *)
Definition str_gtb (a b : str) : bool :=
  match str_compare a b with Gt => true | _ => false end.

(** [a < b] on strings. *)
Definition str_ltb (a b : str) : bool :=
  match str_compare a b with Lt => true | _ => false end.

Definition is_empty (s : str) : bool :=
  match s with [] => true | _ => false end.

(** [strings.Split(s, sep)] for a one-byte separator: the pieces of [s]
    between the occurrences of [sep]; always at least one piece. *)
Fixpoint Split (s : str) (sep : ascii) : list str :=
  match s with
  | [] => [[]]
  | c :: s' =>
      if Ascii.eqb c sep then [] :: Split s' sep
      else match Split s' sep with
           | t :: ts => (c :: t) :: ts
           | [] => [[c]]
           end
  end.

(** [strings.Join(parts, sep)] for a one-byte separator. *)
Fixpoint Join (parts : list str) (sep : ascii) : str :=
  match parts with
  | [] => []
  | [p] => p
  | p :: rest => p ++ sep :: Join rest sep
  end.

(* ================================================================== *)
(** ** Package strconv *)

Definition isDigit (c : ascii) : bool :=
  (48 <=? N_of_ascii c)%N && (N_of_ascii c <=? 57)%N.

(** The value of a decimal digit character. *)
Definition digitVal (c : ascii) : Z := Z.of_N (N_of_ascii c) - 48.

(** The character of a decimal digit. *)
Definition digitChar (d : Z) : ascii := ascii_of_N (Z.to_N (d + 48)).

(** Accumulates the value of a run of decimal digits; [None] at the first
    byte that is not a digit (the syntax error of [strconv.ParseUint]). *)
Fixpoint parseDigits (acc : Z) (s : str) : option Z :=
  match s with
  | [] => Some acc
  | c :: s' => if isDigit c then parseDigits (acc * 10 + digitVal c) s' else None
  end.

(** [strconv.ParseUint(s, 10, _)] before its range check: the empty string
    is a syntax error. *)
Definition ParseUint (s : str) : option Z :=
  match s with
  | [] => None
  | _ => parseDigits 0 s
  end.

(** [strconv.ParseInt(s, 10, bitSize)]: an optional sign, then decimal
    digits; [None] stands for a non-nil error (syntax or range).  The value
    must lie in [-2^(bitSize-1), 2^(bitSize-1) - 1]. *)
Definition ParseInt (s : str) (bitSize : Z) : option Z :=
  match s with
  | [] => None
  | c :: s' =>
      let neg := Ascii.eqb c "-"%char in
      let body := if Ascii.eqb c "+"%char then s' else if neg then s' else s in
      match ParseUint body with
      | None => None
      | Some un =>
          let cutoff := 2 ^ (bitSize - 1) in
          if negb neg && (un >=? cutoff) then None
          else if neg && (un >? cutoff) then None
          else Some (if neg then - un else un)
      end
  end.

(** The decimal digits of a non-negative number, most significant first;
    [fuel] bounds the number of digits. *)
Fixpoint formatDigits (fuel : nat) (n : Z) (acc : str) : str :=
  match fuel with
  | O => acc
  | S fuel' =>
      let acc' := digitChar (n mod 10) :: acc in
      if n <? 10 then acc' else formatDigits fuel' (n / 10) acc'
  end.

(** [strconv.Itoa(n)]. *)
Definition Itoa (n : Z) : str :=
  if n <? 0
  then "-"%char :: formatDigits (S (Z.to_nat (Z.log2 (- n)))) (- n) []
  else formatDigits (S (Z.to_nat (Z.log2 n))) n [].

(* ================================================================== *)
(** ** Package regexp: leftmost-first matching with submatches *)

(** The fragment of the regular-expression syntax that
    [VersionRegexpRaw] uses.  [Star true r] is the greedy [r*],
    [Star false r] the lazy [r*?]; [Alt] prefers its left branch;
    [Group n r] is the [n]-th capturing group; [Eol] is [$]. *)
Inductive regex : Type :=
| Eps : regex
| Class : (ascii -> bool) -> regex
| Cat : regex -> regex -> regex
| Alt : regex -> regex -> regex
| Star : bool -> regex -> regex
| Group : nat -> regex -> regex
| Eol : regex.

(** [r+], [r?] and [r??]. *)
Definition Plus (r : regex) : regex := Cat r (Star true r).
Definition Opt (r : regex) : regex := Alt r Eps.
Definition OptLazy (r : regex) : regex := Alt Eps r.
Definition Chr (c : ascii) : regex := Class (Ascii.eqb c).

(** The submatches recorded so far, by group number; a group that did not
    take part in the match reads as the empty string, as in the slice that
    [FindStringSubmatch] returns. *)
Definition caps := nat -> str.

Definition noCaps : caps := fun _ => [].

Definition setCap (n : nat) (m : str) (c : caps) : caps :=
  fun k => if Nat.eqb k n then m else c k.

(** One way of matching: the text consumed, the text left, the submatches. *)
Definition outcome : Type := str * str * caps.

Definition prepend (m1 : str) (o : outcome) : outcome :=
  let '(m2, s2, c2) := o in (m1 ++ m2, s2, c2).

(** Repetition.  [step] matches the body once.  The outcomes are listed in
    the order in which a backtracking search tries them: a greedy star
    tries one more iteration before stopping, a lazy star stops first.  An
    iteration that consumes nothing is not repeated (the bodies repeated in
    [VersionRegexpRaw] always consume a dot).  Every other iteration
    consumes at least one byte, so [fuel], the length of the text left, is
    never exhausted: see [starLoop_fuel]. *)
Fixpoint starLoop (step : str -> caps -> list outcome) (greedy : bool)
    (fuel : nat) (s : str) (c : caps) : list outcome :=
  match fuel with
  | O => [([], s, c)]
  | S fuel' =>
      let more :=
        flat_map (fun o : outcome =>
                    let '(m1, s1, c1) := o in
                    if is_empty m1 then []
                    else map (prepend m1) (starLoop step greedy fuel' s1 c1))
                 (step s c) in
      if greedy then more ++ [([], s, c)] else ([], s, c) :: more
  end.

(** All the ways in which [r] matches a prefix of [s], in the priority
    order of a backtracking search (the order that defines Go's
    leftmost-first semantics). *)
Fixpoint run (r : regex) (s : str) (c : caps) {struct r} : list outcome :=
  match r with
  | Eps => [([], s, c)]
  | Class p =>
      match s with
      | x :: s' => if p x then [([x], s', c)] else []
      | [] => []
      end
  | Cat r1 r2 =>
      flat_map (fun o : outcome =>
                  let '(m1, s1, c1) := o in map (prepend m1) (run r2 s1 c1))
               (run r1 s c)
  | Alt r1 r2 => run r1 s c ++ run r2 s c
  | Star greedy r1 => starLoop (run r1) greedy (length s) s c
  | Group n r1 =>
      map (fun o : outcome => let '(m, s', c') := o in (m, s', setCap n m c'))
          (run r1 s c)
  | Eol => match s with [] => [([], s, c)] | _ => [] end
  end.

(** [re.FindStringSubmatch(s)] for a pattern that starts with [^]: only
    offset 0 can match, and the match returned is the first one that the
    backtracking search finds.  Entry 0 of the result is the whole match. *)
Definition FindStringSubmatch (re : regex) (s : str) : option caps :=
  match run re s noCaps with
  | [] => None
  | (m, _, c) :: _ => Some (setCap 0 m c)
  end.

(* ================================================================== *)
(** ** version.go *)

(** [[0-9A-Za-z\-]] *)
Definition isIdent (c : ascii) : bool :=
  let n := N_of_ascii c in
  ((48 <=? n) && (n <=? 57) || (65 <=? n) && (n <=? 90)
   || (97 <=? n) && (n <=? 122) || (n =? 45))%N.

(** [[0-9]+] *)
Definition reDigits : regex := Plus (Class isDigit).

(** [[0-9A-Za-z\-]+] *)
Definition reIdent : regex := Plus (Class isIdent).

(** Groups 1 and 2: a run of digits, then lazily many times a dot and a
    run of digits. *)
Definition reSegments : regex :=
  Group 1 (Cat reDigits (Star false (Group 2 (Cat (Chr "."%char) reDigits)))).

(** Groups [n] and [n+1]: an identifier, then greedily many times a dot
    and an identifier. *)
Definition reTokens (n : nat) : regex :=
  Group n (Cat reIdent (Star true (Group (S n) (Cat (Chr "."%char) reIdent)))).

(** Groups 3 to 5: an optional dash, then the prerelease tokens. *)
Definition rePre : regex := Group 3 (Cat (Opt (Chr "-"%char)) (reTokens 4)).

(** Groups 6 to 8: a plus sign, then the metadata tokens. *)
Definition reMeta : regex := Group 6 (Cat (Chr "+"%char) (reTokens 7)).

(** What follows the numeric segments: [rePre?], [reMeta??] and [$]. *)
Definition reSuffix : regex := Cat (Opt rePre) (Cat (OptLazy reMeta) Eol).

(** [VersionRegexpRaw] as compiled in [init], between [^] and [$].  With
    spaces added between its parts the pattern reads

      v? ( [0-9]+ ( \.[0-9]+ )*? )
      ( -? ( [0-9A-Za-z\-]+ ( \.[0-9A-Za-z\-]+ )* ) )?
      ( \+ ( [0-9A-Za-z\-]+ ( \.[0-9A-Za-z\-]+ )* ) )??

    the last question mark coming from the fourth line of the constant. *)
Definition versionRegexp : regex := Cat (Opt (Chr "v"%char)) (Cat reSegments reSuffix).

(** [Version] represents a single version. *)
Record Version : Type := mkVersion {
  metadata : str;
  pre : str;
  segments : list Z;
  si : Z
}.

(** The two errors that [NewVersion] returns. *)
Inductive error : Type :=
| MalformedVersion (v : str)
| ErrorParsingVersion (segment : str).

Inductive result : Type :=
| Ok (v : Version)
| Err (e : error).

(** The loop over [segmentsStr]: each piece goes through
    [strconv.ParseInt(str, 10, 32)], and the first failure is returned. *)
Fixpoint parseSegments (segmentsStr : list str) : error + list Z :=
  match segmentsStr with
  | [] => inr []
  | x :: rest =>
      match ParseInt x 32 with
      | None => inl (ErrorParsingVersion x)
      | Some val =>
          match parseSegments rest with
          | inl e => inl e
          | inr vals => inr (val :: vals)
          end
      end
  end.

(** [for i := len(segments); i < 3; i++ { segments = append(segments, 0) }] *)
Definition padSegments (segs : list Z) : list Z :=
  segs ++ repeat 0 (3 - length segs)%nat.

(** [NewVersion] parses the given version and returns a new [Version]. *)
Definition NewVersion (v : str) : result :=
  match FindStringSubmatch versionRegexp v with
  | None => Err (MalformedVersion v)
  | Some matches =>
      let segmentsStr := Split (matches 1%nat) "."%char in
      match parseSegments segmentsStr with
      | inl e => Err e
      | inr segs =>
          Ok {| metadata := matches 7%nat;
                pre := matches 4%nat;
                segments := padSegments segs;
                si := Z.of_nat (length segmentsStr) |}
      end
  end.

Definition Metadata (v : Version) : str := metadata v.
Definition Prerelease (v : Version) : str := pre v.
Definition Segments (v : Version) : list Z := segments v.

(** [String] returns the full version string including pre-release and
    metadata information.  The joined segments are passed to [Fprintf] as
    its format; they hold digits, dots and minus signs only, so they are
    printed as they are. *)
Definition String (v : Version) : str :=
  Join (map Itoa (segments v)) "."%char
  ++ (if negb (is_empty (pre v)) then "-"%char :: pre v else [])
  ++ (if negb (is_empty (metadata v)) then "+"%char :: metadata v else []).

Fixpoint allZero (segs : list Z) : bool :=
  match segs with
  | [] => true
  | s :: rest => if negb (s =? 0) then false else allZero rest
  end.

(** [reflect.DeepEqual] on two [[]int]: same length and same elements.
    (A slice is a list here; the nil slice of the zero [Version] is the
    empty list.) *)
Fixpoint segs_eqb (a b : list Z) : bool :=
  match a, b with
  | [] , [] => true
  | x :: a', y :: b' => (x =? y) && segs_eqb a' b'
  | _, _ => false
  end.

Definition comparePart (preSelf preOther : str) : Z :=
  if str_eqb preSelf preOther then 0
  else if is_empty preSelf then
    match ParseInt preOther 64 with
    | Some _ => -1
    | None => 1
    end
  else if is_empty preOther then
    match ParseInt preSelf 64 with
    | Some _ => 1
    | None => -1
    end
  else if str_gtb preSelf preOther then 1
  else -1.

(** The loop of [comparePrereleases]; [n] iterations are left and [i] is
    the loop index. *)
Fixpoint prereleaseLoop (n i : nat) (selfPreReleaseMeta otherPreReleaseMeta : list str) : Z :=
  match n with
  | O => 0
  | S n' =>
      let partSelfPre := nth i selfPreReleaseMeta [] in
      let partOtherPre := nth i otherPreReleaseMeta [] in
      let compare := comparePart partSelfPre partOtherPre in
      if negb (compare =? 0) then compare
      else prereleaseLoop n' (S i) selfPreReleaseMeta otherPreReleaseMeta
  end.

Definition comparePrereleases (v other : str) : Z :=
  if str_eqb v other then 0
  else
    let selfPreReleaseMeta := Split v "."%char in
    let otherPreReleaseMeta := Split other "."%char in
    let selfPreReleaseLen := length selfPreReleaseMeta in
    let otherPreReleaseLen := length otherPreReleaseMeta in
    let biggestLen :=
      if (otherPreReleaseLen <? selfPreReleaseLen)%nat
      then selfPreReleaseLen else otherPreReleaseLen in
    prereleaseLoop biggestLen 0 selfPreReleaseMeta otherPreReleaseMeta.

(** The loop of [Compare] over the segments; [n] iterations are left and
    [i] is the loop index.  Leaving the loop, by [break] or at its end,
    reaches the final [return 0]. *)
Fixpoint segmentLoop (n i : nat) (segmentsSelf segmentsOther : list Z) : Z :=
  match n with
  | O => 0
  | S n' =>
      let lenSelf := Z.of_nat (length segmentsSelf) in
      let lenOther := Z.of_nat (length segmentsOther) in
      if Z.of_nat i >? lenSelf - 1 then
        if negb (allZero (skipn i segmentsOther)) then -1 else 0
      else if Z.of_nat i >? lenOther - 1 then
        if negb (allZero (skipn i segmentsSelf)) then 1 else 0
      else
        let lhs := nth i segmentsSelf 0 in
        let rhs := nth i segmentsOther 0 in
        if lhs =? rhs then segmentLoop n' (S i) segmentsSelf segmentsOther
        else if lhs <? rhs then -1
        else 1
  end.

(** [Compare] compares this version to another version. *)
Definition Compare (v other : Version) : Z :=
  if str_eqb (String v) (String other) then 0
  else
    let segmentsSelf := Segments v in
    let segmentsOther := Segments other in
    if segs_eqb segmentsSelf segmentsOther then
      let preSelf := Prerelease v in
      let preOther := Prerelease other in
      if is_empty preSelf && is_empty preOther then 0
      else if is_empty preSelf then 1
      else if is_empty preOther then -1
      else comparePrereleases preSelf preOther
    else
      let lenSelf := length segmentsSelf in
      let lenOther := length segmentsOther in
      let hS := if (lenSelf <? lenOther)%nat then lenOther else lenSelf in
      segmentLoop hS 0 segmentsSelf segmentsOther.

Definition Equal (v o : Version) : bool := Compare v o =? 0.
Definition GreaterThan (v o : Version) : bool := Compare v o >? 0.
Definition LessThan (v o : Version) : bool := Compare v o <? 0.

(* ================================================================== *)
(** ** Vocabulary of the statements *)

(** A token over the class [p]: a non-empty run of bytes of [p]. *)
Definition token (p : ascii -> bool) (t : str) : Prop :=
  t <> [] /\ forallb p t = true.

(** Each token preceded by a dot. *)
Definition dotted (toks : list str) : str :=
  concat (map (cons "."%char) toks).

(** One or more tokens over [p], separated by dots. *)
Definition dottedTokens (p : ascii -> bool) (m : str) : Prop :=
  exists t toks, token p t /\ Forall (token p) toks /\ m = t ++ dotted toks.

(** The text left starts with a dot. *)
Definition atDot (o : outcome) : Prop :=
  exists m r c, o = (m, "."%char :: r, c).

(** The text [rest] does not start with a byte of [p]. *)
Definition stopsAt (p : ascii -> bool) (rest : str) : Prop :=
  match rest with
  | [] => True
  | x :: _ => p x = false
  end.

(** What the pattern lets stand for the prerelease [pre]: nothing when
    [pre] is empty, otherwise dotted identifiers with or without a dash
    in front. *)
Definition prereleasePart (pre whole : str) : Prop :=
  (pre = [] /\ whole = []) \/
  (dottedTokens isIdent pre /\ (whole = pre \/ whole = "-"%char :: pre)).

(** What the pattern lets stand for the metadata [meta]: nothing when
    [meta] is empty, otherwise a plus sign and dotted identifiers. *)
Definition metadataPart (meta whole : str) : Prop :=
  (meta = [] /\ whole = []) \/
  (dottedTokens isIdent meta /\ whole = "+"%char :: meta).

(** The input [s] read as an optional [v], the dotted numbers [segs], the
    prerelease [pre] and the metadata [meta]. *)
Definition versionSyntax (s segs pre meta : str) : Prop :=
  exists lead pw mw,
    (lead = [] \/ lead = ["v"%char]) /\
    dottedTokens isDigit segs /\
    prereleasePart pre pw /\ metadataPart meta mw /\
    s = lead ++ segs ++ pw ++ mw.

(** The suffix that [String] prints after the segments. *)
Definition printedPre (pre : str) : str :=
  if negb (is_empty pre) then "-"%char :: pre else [].

Definition printedMeta (meta : str) : str :=
  if negb (is_empty meta) then "+"%char :: meta else [].

Definition printedSuffix (pre meta : str) : str :=
  printedPre pre ++ printedMeta meta.

(** The loop of [Compare] seen from index [i] on: it only reads the
    segments that are left on each side. *)
Fixpoint cmpSegs (a b : list Z) : Z :=
  match a, b with
  | [], _ => if negb (allZero b) then -1 else 0
  | _ :: _, [] => if negb (allZero a) then 1 else 0
  | x :: a', y :: b' =>
      if x =? y then cmpSegs a' b' else if x <? y then -1 else 1
  end.

(** Segment sequences read as infinite sequences that end in zeros:
    equal everywhere, or smaller at the first index where they differ. *)
Definition padEq (a b : list Z) : Prop :=
  forall i, nth i a 0 = nth i b 0.

Definition padLt (a b : list Z) : Prop :=
  exists k, (forall i, (i < k)%nat -> nth i a 0 = nth i b 0) /\
            nth k a 0 < nth k b 0.

(** No segment is negative, as in every parsed version. *)
Definition nonneg (segs : list Z) : Prop := Forall (fun x => 0 <= x) segs.

(** One list of tokens goes on after the end of the other. *)
Definition properPrefix (a b : list str) : Prop :=
  exists t r, b = a ++ t :: r.

(** A pair of versions that [Compare] compares in full: it does not
    leave the loop over the segments at trailing zeros while a prerelease
    is around, and it does not compare a prerelease token with a missing
    one. *)
Definition comparedInFull (x y : Version) : Prop :=
  (length (segments x) = length (segments y) \/
   (pre x = [] /\ pre y = []) \/
   ~ padEq (segments x) (segments y)) /\
  (segments x = segments y -> pre x <> [] -> pre y <> [] ->
   ~ properPrefix (Split (pre x) "."%char) (Split (pre y) "."%char) /\
   ~ properPrefix (Split (pre y) "."%char) (Split (pre x) "."%char)).

(** Lists of tokens ordered at the first index where both have a token
    and the tokens differ. *)
Definition tokLt (a b : list str) : Prop :=
  exists k, (forall j, (j < k)%nat -> nth j a [] = nth j b []) /\
            (k < length a)%nat /\ (k < length b)%nat /\
            str_ltb (nth k a []) (nth k b []) = true.

(** Prereleases: any prerelease is below none, and two prereleases are
    ordered by their tokens. *)
Definition preLt (p q : str) : Prop :=
  (p <> [] /\ q = []) \/
  (p <> [] /\ q <> [] /\ tokLt (Split p "."%char) (Split q "."%char)).

(** Versions ordered by zero-padded segments, then by prerelease. *)
Definition verEq (x y : Version) : Prop :=
  padEq (segments x) (segments y) /\ pre x = pre y.

Definition verLt (x y : Version) : Prop :=
  padLt (segments x) (segments y) \/
  (padEq (segments x) (segments y) /\ preLt (pre x) (pre y)).

(* ================================================================== *)
(** ** The functions at work *)

Example NewVersion_full :
  NewVersion (lit "v1.2.0-x.Y.0+metadata") =
  Ok {| metadata := lit "metadata"; pre := lit "x.Y.0";
        segments := [1; 2; 0]; si := 3 |}.
Proof. vm_compute. reflexivity. Qed.

Example NewVersion_empty : NewVersion [] = Err (MalformedVersion []).
Proof. vm_compute. reflexivity. Qed.

Example NewVersion_not_a_version :
  NewVersion (lit "not-a-version") = Err (MalformedVersion (lit "not-a-version")).
Proof. vm_compute. reflexivity. Qed.

Example NewVersion_dot_before_token :
  NewVersion (lit "1.2.beta") = Err (MalformedVersion (lit "1.2.beta")).
Proof. vm_compute. reflexivity. Qed.

Example NewVersion_segment_out_of_range :
  NewVersion (lit "1.2147483648") = Err (ErrorParsingVersion (lit "2147483648")).
Proof. vm_compute. reflexivity. Qed.

(** The search gives digits back to the prerelease when this is the only
    way to reach the end of the input. *)
Example NewVersion_backtracks_into_digits :
  NewVersion (lit "12.x") =
  Ok {| metadata := []; pre := lit "2.x"; segments := [1; 0; 0]; si := 1 |}.
Proof. vm_compute. reflexivity. Qed.

Example String_full :
  String {| metadata := lit "metadata"; pre := lit "x.Y.0";
            segments := [1; 2; 0]; si := 3 |} = lit "1.2.0-x.Y.0+metadata".
Proof. vm_compute. reflexivity. Qed.

Example Compare_trailing_zero :
  Compare {| metadata := []; pre := []; segments := [1; 0; 0]; si := 2 |}
          {| metadata := []; pre := []; segments := [1; 0; 0; 0]; si := 4 |} = 0.
Proof. vm_compute. reflexivity. Qed.

Example Compare_patch :
  Compare {| metadata := []; pre := []; segments := [1; 0; 1]; si := 3 |}
          {| metadata := []; pre := []; segments := [1; 0; 0]; si := 2 |} = 1.
Proof. vm_compute. reflexivity. Qed.

(* ================================================================== *)
(** ** Strings: equality and order *)

Lemma str_eqb_eq (a b : str) : str_eqb a b = true <-> a = b.
Proof.
  revert b; induction a as [|x a IH]; intros [|y b]; simpl; split;
    try congruence; try reflexivity.
  - intros H. apply andb_true_iff in H as [Hxy Hab].
    apply Ascii.eqb_eq in Hxy. apply IH in Hab. congruence.
  - intros H. injection H as -> ->.
    rewrite Ascii.eqb_refl. simpl. apply IH. reflexivity.
Qed.

Lemma str_eqb_refl (a : str) : str_eqb a a = true.
Proof. apply str_eqb_eq. reflexivity. Qed.

Lemma str_eqb_neq (a b : str) : str_eqb a b = false <-> a <> b.
Proof.
  split.
  - intros H E. apply str_eqb_eq in E. congruence.
  - intros H. destruct (str_eqb a b) eqn:E; [|reflexivity].
    apply str_eqb_eq in E. contradiction.
Qed.

Lemma str_eqb_sym (a b : str) : str_eqb a b = str_eqb b a.
Proof.
  destruct (str_eqb a b) eqn:E.
  - apply str_eqb_eq in E. subst. symmetry. apply str_eqb_refl.
  - symmetry. apply str_eqb_neq. apply str_eqb_neq in E. congruence.
Qed.

Lemma is_empty_false (s : str) : is_empty s = false <-> s <> [].
Proof. destruct s; simpl; split; congruence. Qed.

Lemma str_compare_eq (a b : str) : str_compare a b = Eq <-> a = b.
Proof.
  revert b; induction a as [|x a IH]; intros [|y b]; simpl; split;
    try congruence; try reflexivity.
  - destruct (Ascii.compare x y) eqn:E; try discriminate.
    apply Ascii.compare_eq_iff in E. intros H. apply IH in H. congruence.
  - intros H. injection H as -> ->.
    unfold Ascii.compare. rewrite N.compare_refl.
    apply IH. reflexivity.
Qed.

Lemma str_compare_antisym (a b : str) :
  str_compare a b = CompOpp (str_compare b a).
Proof.
  revert b; induction a as [|x a IH]; intros [|y b]; simpl; try reflexivity.
  rewrite (Ascii.compare_antisym x y).
  destruct (Ascii.compare y x); simpl; auto.
Qed.

(** On distinct strings, [a > b] fails exactly when [a < b] holds. *)
Lemma str_gtb_ltb (a b : str) : a <> b -> str_gtb a b = negb (str_ltb a b).
Proof.
  intros H. unfold str_gtb, str_ltb.
  destruct (str_compare a b) eqn:E; try reflexivity.
  apply str_compare_eq in E. contradiction.
Qed.

Lemma str_gtb_flip (a b : str) : str_gtb a b = str_ltb b a.
Proof.
  unfold str_gtb, str_ltb. rewrite (str_compare_antisym a b).
  destruct (str_compare b a); reflexivity.
Qed.

(** [str_ltb] is the lexicographic order on bytes: [a] sorts before [b]
    when [a] is a proper prefix of [b], or when at the first position where
    they differ the byte of [a] is the smaller one. *)
Lemma str_ltb_lexicographic (a b : str) :
  str_ltb a b = true <->
  (exists y b', b = a ++ y :: b') \/
  (exists p x y a' b',
      a = p ++ x :: a' /\ b = p ++ y :: b' /\ (N_of_ascii x < N_of_ascii y)%N).
Proof.
  unfold str_ltb. revert b; induction a as [|x a IH]; intros [|y b]; simpl.
  - split; [discriminate|].
    intros [(y & b' & H)|(p & x & y & a' & b' & H & _)].
    + discriminate.
    + destruct p; discriminate.
  - split; [|reflexivity]. intros _. left. eauto.
  - split; [discriminate|].
    intros [(y & b' & H)|(p & x' & y & a' & b' & _ & H & _)].
    + discriminate.
    + destruct p; discriminate.
  - destruct (Ascii.compare x y) eqn:E.
    + apply Ascii.compare_eq_iff in E. subst y. rewrite IH. split.
      * intros [(y & b' & ->)|(p & x' & y & a' & b' & -> & -> & H)].
        -- left. eauto.
        -- right. exists (x :: p), x', y, a', b'. auto.
      * intros [(y & b' & H)|(p & x' & y & a' & b' & Ha & Hb & H)].
        -- injection H as ->. left. eauto.
        -- destruct p as [|z p]; simpl in *.
           ++ injection Ha as <- <-. injection Hb as <- <-. lia.
           ++ injection Ha as <- ->. injection Hb as ->.
              right. exists p, x', y, a', b'. auto.
    + split; [|reflexivity]. intros _. right.
      exists [], x, y, a, b. repeat split.
      unfold Ascii.compare in E. apply N.compare_lt_iff in E. exact E.
    + split; [discriminate|].
      unfold Ascii.compare in E. apply N.compare_gt_iff in E.
      intros [(z & b' & H)|(p & x' & z & a' & b' & Ha & Hb & H)].
      * injection H as ->. lia.
      * destruct p as [|w p]; simpl in *.
        -- injection Ha as <- <-. injection Hb as <- <-. lia.
        -- injection Ha as <- ->. injection Hb as <- ->. lia.
Qed.

Lemma segs_eqb_eq (a b : list Z) : segs_eqb a b = true <-> a = b.
Proof.
  revert b; induction a as [|x a IH]; intros [|y b]; simpl; split;
    try congruence; try reflexivity.
  - intros H. apply andb_true_iff in H as [Hxy Hab].
    apply Z.eqb_eq in Hxy. apply IH in Hab. congruence.
  - intros H. injection H as -> ->.
    rewrite Z.eqb_refl. simpl. apply IH. reflexivity.
Qed.

Lemma segs_eqb_refl (a : list Z) : segs_eqb a a = true.
Proof. apply segs_eqb_eq. reflexivity. Qed.

Lemma segs_eqb_sym (a b : list Z) : segs_eqb a b = segs_eqb b a.
Proof.
  destruct (segs_eqb a b) eqn:E.
  - apply segs_eqb_eq in E. subst. symmetry. apply segs_eqb_refl.
  - destruct (segs_eqb b a) eqn:E'; [|reflexivity].
    apply segs_eqb_eq in E'. subst. rewrite segs_eqb_refl in E. discriminate.
Qed.

(* ================================================================== *)
(** ** Prerelease tokens *)

Lemma comparePart_same (a : str) : comparePart a a = 0.
Proof. unfold comparePart. rewrite str_eqb_refl. reflexivity. Qed.

Lemma comparePrereleases_same (p : str) : comparePrereleases p p = 0.
Proof. unfold comparePrereleases. rewrite str_eqb_refl. reflexivity. Qed.

(** With an empty token on the left, the other token decides. *)
Lemma comparePart_empty_l (tok : str) :
  tok <> [] ->
  comparePart [] tok = match ParseInt tok 64 with Some _ => -1 | None => 1 end.
Proof.
  intros H. unfold comparePart.
  destruct tok as [|x tok]; [contradiction|]. reflexivity.
Qed.

Lemma comparePart_empty_r (tok : str) :
  tok <> [] ->
  comparePart tok [] = match ParseInt tok 64 with Some _ => 1 | None => -1 end.
Proof.
  intros H. unfold comparePart.
  destruct tok as [|x tok]; [contradiction|]. reflexivity.
Qed.

(** Two non-empty, distinct tokens are ordered as strings. *)
Lemma comparePart_strings (a b : str) :
  a <> [] -> b <> [] -> a <> b ->
  comparePart a b = if str_gtb a b then 1 else -1.
Proof.
  intros Ha Hb Hab. unfold comparePart.
  apply str_eqb_neq in Hab. rewrite Hab.
  apply is_empty_false in Ha, Hb. rewrite Ha, Hb. reflexivity.
Qed.

(** The loop skips the positions where both sides hold the same token. *)
Lemma prereleaseLoop_common_prefix (p : list str) :
  forall (n i : nat) (a b : list str),
    (i <= length p)%nat ->
    (length p - i < n)%nat ->
    (forall k, (k < length p)%nat -> nth k a [] = nth k p [] /\ nth k b [] = nth k p []) ->
    prereleaseLoop n i a b = 
    let compare := comparePart (nth (length p) a []) (nth (length p) b []) in
    if negb (compare =? 0) then compare
    else prereleaseLoop (n - S (length p - i)) (S (length p)) a b.
Proof.
  intros n i a b Hi Hn Hp. remember (length p - i)%nat as d eqn:Hd.
  revert n i Hi Hn Hd. induction d as [|d IH]; intros n i Hi Hn Hd.
  - assert (i = length p) by lia. subst i.
    destruct n as [|n]; [lia|]. simpl. rewrite Nat.sub_0_r. reflexivity.
  - destruct n as [|n]; [lia|]. simpl prereleaseLoop.
    destruct (Hp i) as [-> ->]; [lia|].
    rewrite comparePart_same. simpl negb. cbv iota.
    rewrite (IH n (S i)) by lia. reflexivity.
Qed.

(** When the tokens of one prerelease are a proper prefix of the tokens of
    the other, the first extra token is compared with the empty string. *)
Lemma comparePrereleases_extra_token (v other : str) (p r : list str) (t : str) :
  Split v "."%char = p ->
  Split other "."%char = p ++ t :: r ->
  t <> [] ->
  comparePrereleases v other = comparePart [] t /\
  comparePrereleases other v = comparePart t [].
Proof.
  intros Hv Ho Ht.
  assert (Hne : v <> other).
  { intros ->. rewrite Hv in Ho. apply (f_equal (@length _)) in Ho.
    rewrite length_app in Ho. simpl in Ho. lia. }
  assert (Hc1 : comparePart [] t <> 0).
  { rewrite comparePart_empty_l by assumption. destruct (ParseInt t 64); lia. }
  assert (Hc2 : comparePart t [] <> 0).
  { rewrite comparePart_empty_r by assumption. destruct (ParseInt t 64); lia. }
  assert (Hp : forall k, (k < length p)%nat ->
                         nth k p [] = nth k p [] /\ nth k (p ++ t :: r) [] = nth k p []).
  { intros k Hk. split; [reflexivity|]. apply app_nth1. exact Hk. }
  assert (Hp' : forall k, (k < length p)%nat ->
                          nth k (p ++ t :: r) [] = nth k p [] /\ nth k p [] = nth k p []).
  { intros k Hk. split; [|reflexivity]. apply app_nth1. exact Hk. }
  assert (Hlen : length (p ++ t :: r) = (length p + S (length r))%nat).
  { rewrite length_app. reflexivity. }
  unfold comparePrereleases. split.
  - apply str_eqb_neq in Hne. rewrite Hne, Hv, Ho. cbv zeta.
    replace (length (p ++ t :: r) <? length p)%nat with false
      by (symmetry; apply Nat.ltb_ge; lia).
    rewrite (prereleaseLoop_common_prefix p); [|lia|lia|exact Hp].
    cbv zeta. rewrite (nth_overflow p) by lia.
    rewrite nth_middle.
    apply Z.eqb_neq in Hc1. rewrite Hc1. reflexivity.
  - assert (Hne' : other <> v) by congruence.
    apply str_eqb_neq in Hne'. rewrite Hne', Hv, Ho. cbv zeta.
    replace (length p <? length (p ++ t :: r))%nat with true
      by (symmetry; apply Nat.ltb_lt; lia).
    rewrite (prereleaseLoop_common_prefix p); [|lia|lia|exact Hp'].
    cbv zeta. rewrite (nth_overflow p) by lia.
    rewrite nth_middle.
    apply Z.eqb_neq in Hc2. rewrite Hc2. reflexivity.
Qed.

(* ================================================================== *)
(** ** The formatted string and the fast path of [Compare] *)

(** A release and a prerelease of the same segments never print alike. *)
Lemma String_release_prerelease (v o : Version) :
  segments v = segments o -> pre v = [] -> pre o <> [] -> String v <> String o.
Proof.
  intros Hs Hv Ho E. unfold String in E. rewrite Hs, Hv in E.
  apply app_inv_head in E. simpl in E.
  destruct (pre o) as [|x p]; [contradiction|]. simpl in E.
  destruct (metadata v); simpl in E; discriminate.
Qed.

(* ================================================================== *)
(** ** Properties of the prerelease comparison *)

(** C4: in the positional comparison of prerelease tokens, a missing token
    is the empty string, and against a non-empty token the side with the
    empty token is the smaller one when the token parses as an integer and
    the greater one when it does not; so 1.0.0-alpha is less than
    1.0.0-alpha.1 and greater than 1.0.0-alpha.beta. *)
Theorem missing_token_rule :
  (forall tok : str, tok <> [] ->
     (forall n, ParseInt tok 64 = Some n ->
                comparePart [] tok = -1 /\ comparePart tok [] = 1) /\
     (ParseInt tok 64 = None ->
      comparePart [] tok = 1 /\ comparePart tok [] = -1)) /\
  (forall (v other : str) (p r : list str) (t : str),
     Split v "."%char = p -> Split other "."%char = p ++ t :: r -> t <> [] ->
     comparePrereleases v other = comparePart [] t /\
     comparePrereleases other v = comparePart t []) /\
  (exists a b,
     NewVersion (lit "1.0.0-alpha") = Ok a /\
     NewVersion (lit "1.0.0-alpha.1") = Ok b /\
     Compare a b = -1 /\ LessThan a b = true) /\
  (exists a b,
     NewVersion (lit "1.0.0-alpha") = Ok a /\
     NewVersion (lit "1.0.0-alpha.beta") = Ok b /\
     Compare a b = 1 /\ GreaterThan a b = true).
Proof.
  split; [|split; [|split]].
  - intros tok Htok. split.
    + intros n Hn.
      rewrite comparePart_empty_l, comparePart_empty_r by assumption.
      rewrite Hn. split; reflexivity.
    + intros Hn.
      rewrite comparePart_empty_l, comparePart_empty_r by assumption.
      rewrite Hn. split; reflexivity.
  - intros v other p r t. apply comparePrereleases_extra_token.
  - do 2 eexists. repeat split; (vm_compute; reflexivity).
  - do 2 eexists. repeat split; (vm_compute; reflexivity).
Qed.

Lemma missing_token_rule_witness :
  (comparePart [] (lit "1") = -1 /\ comparePart (lit "1") [] = 1) /\
  (comparePart [] (lit "beta") = 1 /\ comparePart (lit "beta") [] = -1) /\
  (comparePrereleases (lit "alpha") (lit "alpha.1") = comparePart [] (lit "1") /\
   comparePrereleases (lit "alpha.1") (lit "alpha") = comparePart (lit "1") []).
Proof.
  destruct missing_token_rule as (Hpart & Hloop & _).
  split; [|split].
  - apply (proj1 (Hpart (lit "1") ltac:(discriminate)) 1). reflexivity.
  - apply (proj2 (Hpart (lit "beta") ltac:(discriminate))). reflexivity.
  - apply (Hloop (lit "alpha") (lit "alpha.1") [lit "alpha"] [] (lit "1")).
    + reflexivity.
    + reflexivity.
    + discriminate.
Defined.

(** C5: two corresponding prerelease tokens that are both non-empty and
    different are compared as plain strings in bytewise lexicographic
    order, not by numeric value: the result is -1 when the token of the
    receiver sorts first and 1 otherwise; so comparing 1.0.0-9 with
    1.0.0-10 gives 1. *)
Theorem tokens_compared_as_strings :
  (forall a b : str, a <> [] -> b <> [] -> a <> b ->
     comparePart a b = (if str_ltb a b then -1 else 1) /\
     (str_ltb a b = true <->
      (exists y b', b = a ++ y :: b') \/
      (exists p x y a' b',
          a = p ++ x :: a' /\ b = p ++ y :: b' /\
          (N_of_ascii x < N_of_ascii y)%N))) /\
  comparePart (lit "9") (lit "10") = 1 /\
  (exists a b,
     NewVersion (lit "1.0.0-9") = Ok a /\
     NewVersion (lit "1.0.0-10") = Ok b /\
     Compare a b = 1).
Proof.
  split; [|split].
  - intros a b Ha Hb Hab. split.
    + rewrite comparePart_strings by assumption.
      rewrite str_gtb_ltb by assumption.
      destruct (str_ltb a b); reflexivity.
    + apply str_ltb_lexicographic.
  - reflexivity.
  - do 2 eexists. repeat split; (vm_compute; reflexivity).
Qed.

Lemma tokens_compared_as_strings_witness :
  comparePart (lit "10") (lit "9") = (if str_ltb (lit "10") (lit "9") then -1 else 1).
Proof.
  destruct tokens_compared_as_strings as (H & _).
  apply (H (lit "10") (lit "9")); discriminate.
Defined.

(* ================================================================== *)
(** ** Properties of [Compare] that follow from its first two tests *)

(** C6: when two versions have equal segment sequences, the one with an
    empty prerelease is greater than the one with a non-empty prerelease,
    and two empty prereleases give 0; so 1.0.0 is greater than
    1.0.0-beta. *)
Theorem release_greater_than_prerelease :
  (forall v o : Version,
     Segments v = Segments o ->
     (Prerelease v = [] -> Prerelease o <> [] ->
      Compare v o = 1 /\ GreaterThan v o = true /\ Compare o v = -1) /\
     (Prerelease v = [] -> Prerelease o = [] -> Compare v o = 0)) /\
  (exists a b,
     NewVersion (lit "1.0.0") = Ok a /\
     NewVersion (lit "1.0.0-beta") = Ok b /\
     GreaterThan a b = true).
Proof.
  split.
  - intros v o Hs. unfold Segments, Prerelease in *. split.
    + intros Hv Ho.
      assert (H1 : String v <> String o)
        by (apply String_release_prerelease; assumption).
      assert (H2 : String o <> String v) by congruence.
      apply str_eqb_neq in H1, H2.
      assert (C1 : Compare v o = 1).
      { unfold Compare, Segments, Prerelease. rewrite H1, Hs, segs_eqb_refl, Hv.
        apply is_empty_false in Ho. rewrite Ho. reflexivity. }
      assert (C2 : Compare o v = -1).
      { unfold Compare, Segments, Prerelease. rewrite H2, Hs, segs_eqb_refl, Hv.
        apply is_empty_false in Ho. rewrite Ho. reflexivity. }
      unfold GreaterThan. rewrite C1. auto.
    + intros Hv Ho. unfold Compare, Segments, Prerelease.
      rewrite Hs, segs_eqb_refl, Hv, Ho.
      destruct (str_eqb _ _); reflexivity.
  - do 2 eexists. repeat split; (vm_compute; reflexivity).
Qed.

Lemma release_greater_than_prerelease_witness :
  Compare (mkVersion [] [] [1; 0; 0] 3) (mkVersion [] (lit "beta") [1; 0; 0] 3) = 1 /\
  Compare (mkVersion (lit "a") [] [1; 0; 0] 3) (mkVersion [] [] [1; 0; 0] 2) = 0.
Proof.
  destruct release_greater_than_prerelease as (H & _). split.
  - apply (H (mkVersion [] [] [1; 0; 0] 3) (mkVersion [] (lit "beta") [1; 0; 0] 3));
      [reflexivity|reflexivity|discriminate].
  - apply (H (mkVersion (lit "a") [] [1; 0; 0] 3) (mkVersion [] [] [1; 0; 0] 2));
      reflexivity.
Defined.

(** C7: build metadata never affects the result of [Compare]: two
    versions that agree on segments and prerelease compare as equal
    whatever their metadata; so 1.0.0+a equals 1.0.0+b. *)
Theorem metadata_ignored :
  (forall v o : Version,
     Segments v = Segments o -> Prerelease v = Prerelease o ->
     Metadata v <> Metadata o ->
     Compare v o = 0 /\ Equal v o = true) /\
  (exists a b,
     NewVersion (lit "1.0.0+a") = Ok a /\
     NewVersion (lit "1.0.0+b") = Ok b /\
     Metadata a = lit "a" /\ Metadata b = lit "b" /\
     Equal a b = true).
Proof.
  split.
  - intros v o Hs Hp _. unfold Segments, Prerelease in *.
    assert (C : Compare v o = 0).
    { unfold Compare, Segments, Prerelease.
      rewrite Hs, Hp, segs_eqb_refl, comparePrereleases_same.
      destruct (str_eqb _ _); [reflexivity|].
      destruct (is_empty (pre o)); reflexivity. }
    unfold Equal. rewrite C. auto.
  - do 2 eexists. repeat split; (vm_compute; reflexivity).
Qed.

Lemma metadata_ignored_witness :
  Compare (mkVersion (lit "a") (lit "rc.1") [1; 2; 3] 3)
          (mkVersion (lit "b") (lit "rc.1") [1; 2; 3] 3) = 0 /\
  Equal (mkVersion (lit "a") (lit "rc.1") [1; 2; 3] 3)
        (mkVersion (lit "b") (lit "rc.1") [1; 2; 3] 3) = true.
Proof.
  destruct metadata_ignored as (H & _).
  apply H; [reflexivity|reflexivity|discriminate].
Defined.

(** C10: the count of segments read from the input, kept in the field
    [si], has no effect on any public operation: two versions that agree
    on segments, prerelease and metadata give the same results under
    [Compare] (on either side, against any version), [Equal],
    [GreaterThan], [LessThan], [String], [Segments], [Prerelease] and
    [Metadata]; 1.0 and 1.0.0 parse to such a pair. *)
Theorem si_unobservable :
  (forall v w : Version,
     segments v = segments w -> pre v = pre w -> metadata v = metadata w ->
     si v <> si w ->
     (forall o : Version,
        Compare v o = Compare w o /\ Compare o v = Compare o w /\
        Equal v o = Equal w o /\ Equal o v = Equal o w /\
        GreaterThan v o = GreaterThan w o /\ GreaterThan o v = GreaterThan o w /\
        LessThan v o = LessThan w o /\ LessThan o v = LessThan o w) /\
     String v = String w /\ Segments v = Segments w /\
     Prerelease v = Prerelease w /\ Metadata v = Metadata w) /\
  (exists a b,
     NewVersion (lit "1.0") = Ok a /\ NewVersion (lit "1.0.0") = Ok b /\
     si a = 2 /\ si b = 3 /\
     segments a = segments b /\ pre a = pre b /\ metadata a = metadata b).
Proof.
  split.
  - intros [m p s i] [m' p' s' i']. simpl. intros <- <- <- _.
    split; [|repeat split]. intros o. repeat split.
  - do 2 eexists. repeat split; (vm_compute; reflexivity).
Qed.

Lemma si_unobservable_witness :
  Compare (mkVersion [] [] [1; 0; 0] 2) (mkVersion [] [] [1; 0; 1] 3) =
  Compare (mkVersion [] [] [1; 0; 0] 3) (mkVersion [] [] [1; 0; 1] 3) /\
  String (mkVersion [] [] [1; 0; 0] 2) = String (mkVersion [] [] [1; 0; 0] 3).
Proof.
  destruct si_unobservable as (H & _).
  destruct (H (mkVersion [] [] [1; 0; 0] 2) (mkVersion [] [] [1; 0; 0] 3))
    as (Hc & Hs & _); [reflexivity|reflexivity|reflexivity|discriminate|].
  split; [apply (Hc (mkVersion [] [] [1; 0; 1] 3))|exact Hs].
Defined.

(* ================================================================== *)
(** ** The matcher: which outcomes are listed *)

Lemma in_map_prepend (m1 : str) (l : list outcome) (m s' : str) (c' : caps) :
  In (m, s', c') (map (prepend m1) l) <->
  exists m2, In (m2, s', c') l /\ m = m1 ++ m2.
Proof.
  rewrite in_map_iff. split.
  - intros ([[m2 s2] c2] & E & H). simpl in E. injection E as <- <- <-. eauto.
  - intros (m2 & H & ->). exists (m2, s', c'). auto.
Qed.

Lemma in_run_Cat (r1 r2 : regex) (s : str) (c : caps) (m s' : str) (c' : caps) :
  In (m, s', c') (run (Cat r1 r2) s c) <->
  exists m1 s1 c1 m2,
    In (m1, s1, c1) (run r1 s c) /\ In (m2, s', c') (run r2 s1 c1) /\
    m = m1 ++ m2.
Proof.
  simpl. rewrite in_flat_map. split.
  - intros ([[m1 s1] c1] & H1 & H2). apply in_map_prepend in H2 as (m2 & H2 & ->).
    exists m1, s1, c1, m2. auto.
  - intros (m1 & s1 & c1 & m2 & H1 & H2 & ->). exists (m1, s1, c1).
    split; [exact H1|]. apply in_map_prepend. eauto.
Qed.

Lemma in_run_Alt (r1 r2 : regex) (s : str) (c : caps) (o : outcome) :
  In o (run (Alt r1 r2) s c) <-> In o (run r1 s c) \/ In o (run r2 s c).
Proof. simpl. apply in_app_iff. Qed.

Lemma in_run_Group (n : nat) (r : regex) (s : str) (c : caps) (m s' : str) (c' : caps) :
  In (m, s', c') (run (Group n r) s c) <->
  exists c1, In (m, s', c1) (run r s c) /\ c' = setCap n m c1.
Proof.
  simpl. rewrite in_map_iff. split.
  - intros ([[m1 s1] c1] & E & H). injection E as <- <- <-. eauto.
  - intros (c1 & H & ->). exists (m, s', c1). auto.
Qed.

Lemma in_run_Class (p : ascii -> bool) (s : str) (c : caps) (m s' : str) (c' : caps) :
  In (m, s', c') (run (Class p) s c) <->
  exists x, s = x :: s' /\ p x = true /\ m = [x] /\ c' = c.
Proof.
  simpl. destruct s as [|x s]; [|destruct (p x) eqn:E]; simpl; split;
    try contradiction.
  - intros (x & H & _). discriminate.
  - intros [H|[]]. injection H as <- <- <-. eauto.
  - intros (y & H & _ & -> & ->). injection H as <- <-. auto.
  - intros (y & H & Hy & _). injection H as <- <-. congruence.
Qed.

Lemma in_run_Eps (s : str) (c : caps) (m s' : str) (c' : caps) :
  In (m, s', c') (run Eps s c) <-> m = [] /\ s' = s /\ c' = c.
Proof.
  simpl. split.
  - intros [H|[]]. injection H as <- <- <-. auto.
  - intros (-> & -> & ->). auto.
Qed.

Lemma in_run_Eol (s : str) (c : caps) (m s' : str) (c' : caps) :
  In (m, s', c') (run Eol s c) <-> m = [] /\ s = [] /\ s' = [] /\ c' = c.
Proof.
  simpl. destruct s; simpl; split.
  - intros [H|[]]. injection H as <- <- <-. auto.
  - intros (-> & _ & -> & ->). auto.
  - contradiction.
  - intros (_ & H & _). discriminate.
Qed.

(** Every outcome of a repetition is built from outcomes of its body. *)
Lemma in_starLoop_inv (step : str -> caps -> list outcome) (greedy : bool)
    (P : str -> str -> caps -> str -> caps -> Prop) :
  (forall s c, P [] s c s c) ->
  (forall m1 s c s1 c1 m2 s' c',
      In (m1, s1, c1) (step s c) -> m1 <> [] ->
      P m2 s1 c1 s' c' -> P (m1 ++ m2) s c s' c') ->
  forall fuel s c m s' c',
    In (m, s', c') (starLoop step greedy fuel s c) -> P m s c s' c'.
Proof.
  intros Hnil Hcons. induction fuel as [|fuel IH]; intros s c m s' c' H.
  - simpl in H. destruct H as [H|[]]. injection H as <- <- <-. apply Hnil.
  - simpl in H.
    assert (Hcases :
      (m, s', c') = ([], s, c) \/
      In (m, s', c')
         (flat_map (fun o : outcome =>
                      let '(m1, s1, c1) := o in
                      if is_empty m1 then []
                      else map (prepend m1) (starLoop step greedy fuel s1 c1))
                   (step s c))).
    { destruct greedy.
      - apply in_app_iff in H as [H|[H|[]]]; auto.
      - destruct H as [H|H]; auto. }
    destruct Hcases as [E|Hmore].
    + injection E as -> -> ->. apply Hnil.
    + apply in_flat_map in Hmore as ([[m1 s1] c1] & H1 & H2).
      destruct m1 as [|x m1]; [contradiction|]. simpl is_empty in H2. cbv iota in H2.
      apply in_map_prepend in H2 as (m2 & H2 & ->).
      apply (Hcons (x :: m1) s c s1 c1 m2 s' c'); [exact H1|discriminate|].
      apply IH. exact H2.
Qed.

(** *** Unfolding equations *)

Lemma starLoop_S (step : str -> caps -> list outcome) (greedy : bool)
    (fuel : nat) (s : str) (c : caps) :
  starLoop step greedy (S fuel) s c =
  (if greedy
   then flat_map (fun o : outcome =>
                    let '(m1, s1, c1) := o in
                    if is_empty m1 then []
                    else map (prepend m1) (starLoop step greedy fuel s1 c1))
                 (step s c) ++ [([], s, c)]
   else ([], s, c) ::
        flat_map (fun o : outcome =>
                    let '(m1, s1, c1) := o in
                    if is_empty m1 then []
                    else map (prepend m1) (starLoop step greedy fuel s1 c1))
                 (step s c)).
Proof. reflexivity. Qed.

Lemma run_Cat_eq (r1 r2 : regex) (s : str) (c : caps) :
  run (Cat r1 r2) s c =
  flat_map (fun o : outcome =>
              let '(m1, s1, c1) := o in map (prepend m1) (run r2 s1 c1))
           (run r1 s c).
Proof. reflexivity. Qed.

Lemma run_Alt_eq (r1 r2 : regex) (s : str) (c : caps) :
  run (Alt r1 r2) s c = run r1 s c ++ run r2 s c.
Proof. reflexivity. Qed.

Lemma run_Star_eq (greedy : bool) (r : regex) (s : str) (c : caps) :
  run (Star greedy r) s c = starLoop (run r) greedy (length s) s c.
Proof. reflexivity. Qed.

Lemma run_Group_eq (n : nat) (r : regex) (s : str) (c : caps) :
  run (Group n r) s c =
  map (fun o : outcome => let '(m, s', c') := o in (m, s', setCap n m c'))
      (run r s c).
Proof. reflexivity. Qed.

(** *** The fuel of a repetition is never exhausted *)

(** An outcome splits the text into what was consumed and what is left. *)
Lemma run_consumes (r : regex) :
  forall s c m s' c', In (m, s', c') (run r s c) -> s = m ++ s'.
Proof.
  induction r as [|p|r1 IH1 r2 IH2|r1 IH1 r2 IH2|g r IH|n r IH|];
    intros s c m s' c' H.
  - apply in_run_Eps in H as (-> & -> & _). reflexivity.
  - apply in_run_Class in H as (x & -> & _ & -> & _). reflexivity.
  - apply in_run_Cat in H as (m1 & s1 & c1 & m2 & H1 & H2 & ->).
    apply IH1 in H1. apply IH2 in H2. subst. apply app_assoc.
  - apply in_run_Alt in H as [H|H]; eauto.
  - rewrite run_Star_eq in H.
    apply (in_starLoop_inv (run r) g (fun m s c s' c' => s = m ++ s')) in H.
    + exact H.
    + reflexivity.
    + intros m1 s0 c0 s1 c1 m2 s2 c2 H1 _ ->. apply IH in H1. subst.
      apply app_assoc.
  - apply in_run_Group in H as (c1 & H & _). eauto.
  - apply in_run_Eol in H as (-> & -> & -> & _). reflexivity.
Qed.

Lemma flat_map_ext_in {A B : Type} (f g : A -> list B) (l : list A) :
  (forall x, In x l -> f x = g x) -> flat_map f l = flat_map g l.
Proof.
  induction l as [|x l IH]; intros H; [reflexivity|].
  cbn [flat_map]. rewrite (H x) by (left; reflexivity).
  rewrite IH; [reflexivity|]. intros y Hy. apply H. right. exact Hy.
Qed.

(** With at least as much fuel as there are bytes left, a repetition
    lists the same outcomes whatever the fuel. *)
Lemma starLoop_fuel (r : regex) (greedy : bool) (f1 : nat) :
  forall f2 s c,
    (length s <= f1)%nat -> (length s <= f2)%nat ->
    starLoop (run r) greedy f1 s c = starLoop (run r) greedy f2 s c.
Proof.
  assert (Hnil : forall f c,
             flat_map (fun o : outcome =>
                         let '(m1, s1, c1) := o in
                         if is_empty m1 then []
                         else map (prepend m1) (starLoop (run r) greedy f s1 c1))
                      (run r [] c) = []).
  { intros f c. rewrite (flat_map_ext_in _ (fun _ => [])).
    - induction (run r [] c); [reflexivity|assumption].
    - intros [[m1 s1] c1] H. apply run_consumes in H.
      destruct m1; [reflexivity|discriminate]. }
  assert (Hzero : forall f c,
             starLoop (run r) greedy f [] c = [([], [], c)]).
  { intros [|f] c; [reflexivity|]. rewrite starLoop_S, Hnil.
    destruct greedy; reflexivity. }
  induction f1 as [|f1 IH]; intros f2 s c H1 H2.
  - destruct s; [|simpl in H1; lia]. rewrite !Hzero. reflexivity.
  - destruct f2 as [|f2].
    + destruct s; [|simpl in H2; lia]. rewrite !Hzero. reflexivity.
    + rewrite !starLoop_S.
      rewrite (flat_map_ext_in
                 (fun o : outcome =>
                    let '(m1, s1, c1) := o in
                    if is_empty m1 then []
                    else map (prepend m1) (starLoop (run r) greedy f1 s1 c1))
                 (fun o : outcome =>
                    let '(m1, s1, c1) := o in
                    if is_empty m1 then []
                    else map (prepend m1) (starLoop (run r) greedy f2 s1 c1)));
        [reflexivity|].
      intros [[m1 s1] c1] H. apply run_consumes in H. subst s.
      destruct m1 as [|x m1]; [reflexivity|]. cbn [is_empty].
      rewrite length_app in H1, H2. simpl in H1, H2.
      rewrite (IH f2) by lia. reflexivity.
Qed.

Lemma Forall_atDot_prepend (m : str) (l : list outcome) :
  Forall atDot l -> Forall atDot (map (prepend m) l).
Proof.
  intros H. apply Forall_map. eapply Forall_impl; [|exact H].
  intros o (m' & r & c & ->). exists (m ++ m'), r, c. reflexivity.
Qed.

Lemma Forall_atDot_setCap (n : nat) (l : list outcome) :
  Forall atDot l ->
  Forall atDot
    (map (fun o : outcome => let '(m, s', c') := o in (m, s', setCap n m c')) l).
Proof.
  intros H. apply Forall_map. eapply Forall_impl; [|exact H].
  intros o (m' & r & c & ->). exists m', r, (setCap n m' c). reflexivity.
Qed.

(* ================================================================== *)
(** ** Runs of one class and dotted lists of such runs *)

Lemma token_cons (p : ascii -> bool) (x : ascii) (t : str) :
  p x = true -> forallb p t = true -> token p (x :: t).
Proof. intros Hx Ht. split; [discriminate|]. simpl. rewrite Hx, Ht. reflexivity. Qed.

Lemma dotted_cons (t : str) (toks : list str) :
  dotted (t :: toks) = "."%char :: t ++ dotted toks.
Proof. reflexivity. Qed.

(** Conversely, a repetition lists the empty match and every match made
    of a first iteration and a match of the remaining iterations. *)
Lemma in_starLoop_nil (step : str -> caps -> list outcome) (greedy : bool)
    (fuel : nat) (s : str) (c : caps) :
  In ([], s, c) (starLoop step greedy fuel s c).
Proof.
  destruct fuel as [|fuel]; [left; reflexivity|].
  rewrite starLoop_S. destruct greedy.
  - apply in_app_iff. right. left. reflexivity.
  - left. reflexivity.
Qed.

Lemma in_starLoop_cons (step : str -> caps -> list outcome) (greedy : bool)
    (fuel : nat) (s : str) (c : caps) (m1 s1 : str) (c1 : caps)
    (m2 s' : str) (c' : caps) :
  In (m1, s1, c1) (step s c) -> m1 <> [] ->
  In (m2, s', c') (starLoop step greedy fuel s1 c1) ->
  In (m1 ++ m2, s', c') (starLoop step greedy (S fuel) s c).
Proof.
  intros H1 Hne H2. rewrite starLoop_S.
  assert (Hmore :
    In (m1 ++ m2, s', c')
       (flat_map (fun o : outcome =>
                    let '(m1, s1, c1) := o in
                    if is_empty m1 then []
                    else map (prepend m1) (starLoop step greedy fuel s1 c1))
                 (step s c))).
  { apply in_flat_map. exists (m1, s1, c1). split; [exact H1|].
    apply is_empty_false in Hne. rewrite Hne.
    apply in_map_prepend. eauto. }
  destruct greedy.
  - apply in_app_iff. left. exact Hmore.
  - right. exact Hmore.
Qed.

Lemma length_dotted (toks : list str) : (length toks <= length (dotted toks))%nat.
Proof.
  induction toks as [|t toks IH]; [simpl; lia|].
  rewrite dotted_cons. cbn [length]. rewrite length_app. lia.
Qed.

Section DottedRuns.

(** The class of the runs, the group of the whole list, and whether the
    repetition is greedy. *)
Variable p : ascii -> bool.
Variable k : nat.
Variable greedy : bool.

(** A dot is not in the class. *)
Hypothesis dot_outside : p "."%char = false.

Let dotRun : regex := Group (S k) (Cat (Chr "."%char) (Plus (Class p))).
Let dottedRuns : regex := Group k (Cat (Plus (Class p)) (Star greedy dotRun)).

Lemma in_run_Plus_Class (s : str) (c : caps) (m s' : str) (c' : caps) :
  In (m, s', c') (run (Plus (Class p)) s c) ->
  token p m /\ s = m ++ s' /\ c' = c.
Proof.
  unfold Plus. intros H.
  apply in_run_Cat in H as (m1 & s1 & c1 & m2 & H1 & H2 & ->).
  apply in_run_Class in H1 as (x & -> & Hx & -> & ->).
  simpl in H2.
  apply (in_starLoop_inv (run (Class p)) true
           (fun m s c s' c' => forallb p m = true /\ s = m ++ s' /\ c' = c))
    in H2.
  - destruct H2 as (Hm & -> & ->). split; [|split]; try reflexivity.
    apply token_cons; assumption.
  - intros; auto.
  - intros a1 s0 c0 s2 c2 a2 s3 c3 Ha _ (Hf & -> & ->).
    apply in_run_Class in Ha as (y & -> & Hy & -> & ->).
    simpl. rewrite Hy, Hf. auto.
Qed.

Lemma in_run_dotRun (s : str) (c : caps) (m s' : str) (c' : caps) :
  In (m, s', c') (run dotRun s c) ->
  exists t, token p t /\ m = "."%char :: t /\ s = m ++ s' /\
            c' = setCap (S k) m c.
Proof.
  unfold dotRun. intros H.
  apply in_run_Group in H as (c1 & H & ->).
  apply in_run_Cat in H as (m1 & s1 & c2 & m2 & H1 & H2 & ->).
  apply in_run_Class in H1 as (x & -> & Hx & -> & ->).
  apply Ascii.eqb_eq in Hx. subst x.
  apply in_run_Plus_Class in H2 as (Ht & -> & ->).
  exists m2. auto.
Qed.

Lemma in_starLoop_dotRun (fuel : nat) (s : str) (c : caps) (m s' : str) (c' : caps) :
  In (m, s', c') (starLoop (run dotRun) greedy fuel s c) ->
  exists toks, Forall (token p) toks /\ m = dotted toks /\ s = m ++ s' /\
               forall n, n <> S k -> c' n = c n.
Proof.
  apply (in_starLoop_inv (run dotRun) greedy
           (fun m s c s' c' =>
              exists toks, Forall (token p) toks /\ m = dotted toks /\
                           s = m ++ s' /\ forall n, n <> S k -> c' n = c n)).
  - intros s0 c0. exists []. auto.
  - intros m1 s0 c0 s1 c1 m2 s2 c2 H1 _ (toks & Htoks & -> & -> & Hc).
    apply in_run_dotRun in H1 as (t & Ht & -> & -> & ->).
    exists (t :: toks). split; [auto|]. split; [|split].
    + rewrite dotted_cons. reflexivity.
    + rewrite <- app_assoc. reflexivity.
    + intros n Hn. rewrite Hc by assumption. unfold setCap.
      apply Nat.eqb_neq in Hn. rewrite Hn. reflexivity.
Qed.

Lemma in_run_dottedRuns (s : str) (c : caps) (m s' : str) (c' : caps) :
  In (m, s', c') (run dottedRuns s c) ->
  dottedTokens p m /\ s = m ++ s' /\ c' k = m /\
  forall n, n <> k -> n <> S k -> c' n = c n.
Proof.
  unfold dottedRuns. intros H.
  apply in_run_Group in H as (c1 & H & ->).
  apply in_run_Cat in H as (m1 & s1 & c2 & m2 & H1 & H2 & ->).
  apply in_run_Plus_Class in H1 as (Ht & -> & ->).
  apply in_starLoop_dotRun in H2 as (toks & Htoks & -> & -> & Hc).
  split; [|split; [|split]].
  - exists m1, toks. auto.
  - rewrite <- app_assoc. reflexivity.
  - unfold setCap. rewrite Nat.eqb_refl. reflexivity.
  - intros n Hk HSk. unfold setCap. apply Nat.eqb_neq in Hk. rewrite Hk.
    apply Hc. exact HSk.
Qed.

(** *** The first outcomes *)

(** A greedy run of the class takes the whole token first. *)
Lemma starLoop_Class_first (t rest : str) (c : caps) :
  forallb p t = true -> stopsAt p rest ->
  forall fuel, (length t <= fuel)%nat ->
  exists l, starLoop (run (Class p)) true fuel (t ++ rest) c = (t, rest, c) :: l.
Proof.
  intros Ht Hrest. induction t as [|x t IH]; intros fuel Hfuel.
  - destruct fuel as [|fuel]; simpl; [eauto|].
    destruct rest as [|y rest]; simpl; [eauto|].
    simpl in Hrest. rewrite Hrest. simpl. eauto.
  - destruct fuel as [|fuel]; [simpl in Hfuel; lia|].
    simpl in Ht. apply andb_true_iff in Ht as [Hx Ht].
    destruct (IH Ht fuel) as (l & Hl); [simpl in Hfuel; lia|].
    rewrite starLoop_S.
    change (run (Class p) ((x :: t) ++ rest) c)
      with (if p x then [([x], t ++ rest, c)] else []).
    rewrite Hx. cbn [flat_map is_empty]. rewrite Hl.
    cbn [map prepend app]. eauto.
Qed.

Lemma run_Plus_Class_first (t rest : str) (c : caps) :
  token p t -> stopsAt p rest ->
  exists l, run (Plus (Class p)) (t ++ rest) c = (t, rest, c) :: l.
Proof.
  intros [Hne Ht] Hrest. destruct t as [|x t]; [contradiction|].
  simpl in Ht. apply andb_true_iff in Ht as [Hx Ht].
  destruct (starLoop_Class_first t rest c Ht Hrest (length (t ++ rest))) as (l & Hl).
  { rewrite length_app. lia. }
  unfold Plus. rewrite run_Cat_eq.
  change (run (Class p) ((x :: t) ++ rest) c)
    with (if p x then [([x], t ++ rest, c)] else []).
  rewrite Hx. cbn [flat_map]. rewrite run_Star_eq, Hl.
  cbn [map prepend app]. eauto.
Qed.

(** Off a dot, the body of the repetition does not match. *)
Lemma run_dotRun_off_dot (rest : str) (c : caps) :
  stopsAt (Ascii.eqb "."%char) rest -> run dotRun rest c = [].
Proof.
  intros H. destruct rest as [|x rest]; [reflexivity|].
  simpl in H. simpl. rewrite H. reflexivity.
Qed.

(** On a dot and a token, it takes both first. *)
Lemma run_dotRun_first (t rest : str) (c : caps) :
  token p t -> stopsAt p rest ->
  exists l, run dotRun ("."%char :: t ++ rest) c =
            ("."%char :: t, rest, setCap (S k) ("."%char :: t) c) :: l.
Proof.
  intros Ht Hrest.
  destruct (run_Plus_Class_first t rest c Ht Hrest) as (l & Hl).
  unfold dotRun. rewrite run_Group_eq, run_Cat_eq.
  change (run (Chr "."%char) ("."%char :: t ++ rest) c)
    with [(["."%char], t ++ rest, c)].
  cbn [flat_map]. rewrite Hl. cbn [map prepend app]. eauto.
Qed.

(** The text after a token that is followed by more dotted tokens, or by
    [rest], does not continue the token. *)
Lemma stopsAt_dotted (toks : list str) (rest : str) :
  stopsAt p rest -> stopsAt p (dotted toks ++ rest).
Proof. destruct toks; simpl; auto. Qed.

(** A greedy repetition takes all the dotted tokens first. *)
Lemma starLoop_dotRun_greedy_first (toks : list str) (rest : str) :
  Forall (token p) toks -> stopsAt p rest ->
  stopsAt (Ascii.eqb "."%char) rest ->
  forall (fuel : nat) (c : caps), (length toks <= fuel)%nat ->
  exists c' l,
    starLoop (run dotRun) true fuel (dotted toks ++ rest) c =
    (dotted toks, rest, c') :: l /\
    forall n, n <> S k -> c' n = c n.
Proof.
  intros Htoks Hrest Hdot.
  induction Htoks as [|t toks Ht Htoks IH]; intros fuel c Hfuel.
  - exists c. change (dotted [] ++ rest) with rest. destruct fuel as [|fuel].
    + exists []. auto.
    + rewrite starLoop_S, run_dotRun_off_dot by assumption.
      exists []. auto.
  - destruct fuel as [|fuel]; [simpl in Hfuel; lia|].
    destruct (run_dotRun_first t (dotted toks ++ rest) c Ht
                (stopsAt_dotted toks rest Hrest)) as (l1 & Hl1).
    destruct (IH fuel (setCap (S k) ("."%char :: t) c)) as (c' & l & Hl & Hc');
      [simpl in Hfuel; lia|].
    rewrite dotted_cons.
    change (("."%char :: t ++ dotted toks) ++ rest)
      with ("."%char :: (t ++ dotted toks) ++ rest).
    rewrite <- app_assoc, starLoop_S, Hl1.
    cbn [flat_map is_empty]. rewrite Hl. cbn [map prepend app].
    eexists. eexists. split; [reflexivity|].
    intros n Hn. rewrite Hc' by assumption. unfold setCap.
    apply Nat.eqb_neq in Hn. rewrite Hn. reflexivity.
Qed.

(** A lazy repetition reaches all the dotted tokens after outcomes that
    stop at a dot. *)
Lemma starLoop_dotRun_lazy_reach (toks : list str) (rest : str) :
  Forall (token p) toks -> stopsAt p rest ->
  forall (fuel : nat) (c : caps), (length toks <= fuel)%nat ->
  exists l1 c' l2,
    starLoop (run dotRun) false fuel (dotted toks ++ rest) c =
    l1 ++ (dotted toks, rest, c') :: l2 /\
    Forall atDot l1 /\
    forall n, n <> S k -> c' n = c n.
Proof.
  intros Htoks Hrest.
  induction Htoks as [|t toks Ht Htoks IH]; intros fuel c Hfuel.
  - exists [], c. change (dotted [] ++ rest) with rest. destruct fuel as [|fuel].
    + exists []. auto.
    + rewrite starLoop_S. eexists. split; [reflexivity|]. auto.
  - destruct fuel as [|fuel]; [simpl in Hfuel; lia|].
    destruct (run_dotRun_first t (dotted toks ++ rest) c Ht
                (stopsAt_dotted toks rest Hrest)) as (la & Hla).
    destruct (IH fuel (setCap (S k) ("."%char :: t) c))
      as (l1 & c' & l2 & Hl & Hdots & Hc'); [simpl in Hfuel; lia|].
    rewrite dotted_cons.
    change (("."%char :: t ++ dotted toks) ++ rest)
      with ("."%char :: (t ++ dotted toks) ++ rest).
    rewrite <- app_assoc, starLoop_S, Hla.
    cbn [flat_map is_empty]. rewrite Hl, map_app. cbn [map prepend].
    exists ((([] : str), "."%char :: t ++ dotted toks ++ rest, c)
              :: map (prepend ("."%char :: t)) l1).
    eexists. eexists. split; [|split].
    + rewrite <- app_assoc. reflexivity.
    + constructor.
      * exists [], (t ++ dotted toks ++ rest), c. reflexivity.
      * apply Forall_atDot_prepend. exact Hdots.
    + intros n Hn. rewrite Hc' by assumption. unfold setCap.
      apply Nat.eqb_neq in Hn. rewrite Hn. reflexivity.
Qed.


(** The greedy list of dotted tokens takes everything first. *)
Lemma run_dottedRuns_greedy_first (t : str) (toks : list str) (rest : str) (c : caps) :
  token p t -> Forall (token p) toks -> stopsAt p rest ->
  stopsAt (Ascii.eqb "."%char) rest ->
  exists c' l,
    run (Group k (Cat (Plus (Class p)) (Star true dotRun)))
        (t ++ dotted toks ++ rest) c =
    (t ++ dotted toks, rest, c') :: l /\
    c' k = t ++ dotted toks /\
    forall n, n <> k -> n <> S k -> c' n = c n.
Proof.
  intros Ht Htoks Hrest Hdot.
  destruct (run_Plus_Class_first t (dotted toks ++ rest) c Ht
              (stopsAt_dotted toks rest Hrest)) as (la & Hla).
  destruct (starLoop_dotRun_greedy_first toks rest Htoks Hrest Hdot
              (length (dotted toks ++ rest)) c) as (c' & l & Hl & Hc').
  { rewrite length_app. pose proof (length_dotted toks). lia. }
  rewrite run_Group_eq, run_Cat_eq, Hla. cbn [flat_map].
  rewrite run_Star_eq, Hl. cbn [map prepend app].
  eexists. eexists. split; [reflexivity|]. split.
  - unfold setCap. rewrite Nat.eqb_refl. reflexivity.
  - intros n Hn HSn. unfold setCap. apply Nat.eqb_neq in Hn. rewrite Hn.
    apply Hc'. exact HSn.
Qed.

(** The lazy list of dotted tokens reaches everything after outcomes
    that stop at a dot. *)
Lemma run_dottedRuns_lazy_reach (t : str) (toks : list str) (rest : str) (c : caps) :
  token p t -> Forall (token p) toks -> stopsAt p rest ->
  exists l1 c' l2,
    run (Group k (Cat (Plus (Class p)) (Star false dotRun)))
        (t ++ dotted toks ++ rest) c =
    l1 ++ (t ++ dotted toks, rest, c') :: l2 /\
    Forall atDot l1 /\
    c' k = t ++ dotted toks /\
    forall n, n <> k -> n <> S k -> c' n = c n.
Proof.
  intros Ht Htoks Hrest.
  destruct (run_Plus_Class_first t (dotted toks ++ rest) c Ht
              (stopsAt_dotted toks rest Hrest)) as (la & Hla).
  destruct (starLoop_dotRun_lazy_reach toks rest Htoks Hrest
              (length (dotted toks ++ rest)) c) as (l1 & c' & l2 & Hl & Hdots & Hc').
  { rewrite length_app. pose proof (length_dotted toks). lia. }
  rewrite run_Group_eq, run_Cat_eq, Hla. cbn [flat_map].
  rewrite run_Star_eq, Hl. rewrite !map_app. cbn [map prepend].
  rewrite <- app_assoc. cbn [app].
  eexists. eexists. eexists. split; [reflexivity|]. split; [|split].
  - apply Forall_atDot_setCap, Forall_atDot_prepend. exact Hdots.
  - unfold setCap. rewrite Nat.eqb_refl. reflexivity.
  - intros n Hn HSn. unfold setCap. apply Nat.eqb_neq in Hn. rewrite Hn.
    apply Hc'. exact HSn.
Qed.


(** *** Every way of reading the text is listed *)

Lemma in_starLoop_Class_intro (g : bool) (t rest : str) (c : caps) :
  forallb p t = true ->
  forall fuel, (length t <= fuel)%nat ->
  In (t, rest, c) (starLoop (run (Class p)) g fuel (t ++ rest) c).
Proof.
  intros Ht. induction t as [|x t IH]; intros fuel Hfuel.
  - apply in_starLoop_nil.
  - destruct fuel as [|fuel]; [simpl in Hfuel; lia|].
    simpl in Ht. apply andb_true_iff in Ht as [Hx Ht].
    apply (in_starLoop_cons (run (Class p)) g fuel ((x :: t) ++ rest) c
             [x] (t ++ rest) c t rest c).
    + apply in_run_Class. exists x. auto.
    + discriminate.
    + apply IH; [exact Ht|simpl in Hfuel; lia].
Qed.

Lemma in_run_Plus_Class_intro (t rest : str) (c : caps) :
  token p t -> In (t, rest, c) (run (Plus (Class p)) (t ++ rest) c).
Proof.
  intros [Hne Ht]. destruct t as [|x t]; [contradiction|].
  simpl in Ht. apply andb_true_iff in Ht as [Hx Ht].
  unfold Plus. apply in_run_Cat. exists [x], (t ++ rest), c, t.
  split; [apply in_run_Class; exists x; auto|]. split; [|reflexivity].
  rewrite run_Star_eq.
  pose proof (in_starLoop_Class_intro true t rest c Ht (length (t ++ rest))) as H.
  rewrite length_app in H. rewrite length_app. apply H. lia.
Qed.

Lemma in_run_dotRun_intro (t rest : str) (c : caps) :
  token p t ->
  In ("."%char :: t, rest, setCap (S k) ("."%char :: t) c)
     (run dotRun ("."%char :: t ++ rest) c).
Proof.
  intros Ht. unfold dotRun. apply in_run_Group. exists c. split; [|reflexivity].
  apply in_run_Cat. exists ["."%char], (t ++ rest), c, t.
  split; [apply in_run_Class; exists "."%char; auto|].
  split; [|reflexivity]. apply in_run_Plus_Class_intro. exact Ht.
Qed.

Lemma in_starLoop_dotRun_intro (toks : list str) (rest : str) :
  Forall (token p) toks ->
  forall (fuel : nat) (c : caps), (length toks <= fuel)%nat ->
  exists c',
    In (dotted toks, rest, c')
       (starLoop (run dotRun) greedy fuel (dotted toks ++ rest) c) /\
    forall n, n <> S k -> c' n = c n.
Proof.
  induction 1 as [|t toks Ht Htoks IH]; intros fuel c Hfuel.
  - exists c. split; [apply in_starLoop_nil|auto].
  - destruct fuel as [|fuel]; [simpl in Hfuel; lia|].
    destruct (IH fuel (setCap (S k) ("."%char :: t) c)) as (c' & Hin & Hc');
      [simpl in Hfuel; lia|].
    exists c'. split.
    + rewrite dotted_cons.
      change ("."%char :: t ++ dotted toks) with (("."%char :: t) ++ dotted toks).
      eapply in_starLoop_cons; [|discriminate|exact Hin].
      rewrite <- app_assoc. apply in_run_dotRun_intro. exact Ht.
    + intros n Hn. rewrite Hc' by assumption. unfold setCap.
      apply Nat.eqb_neq in Hn. rewrite Hn. reflexivity.
Qed.

Lemma in_run_dottedRuns_intro (m rest : str) (c : caps) :
  dottedTokens p m ->
  exists c',
    In (m, rest, c') (run dottedRuns (m ++ rest) c) /\ c' k = m /\
    forall n, n <> k -> n <> S k -> c' n = c n.
Proof.
  intros (t & toks & Ht & Htoks & ->).
  destruct (in_starLoop_dotRun_intro toks rest Htoks
              (length (dotted toks ++ rest)) c) as (c' & Hin & Hc').
  { rewrite length_app. pose proof (length_dotted toks). lia. }
  exists (setCap k (t ++ dotted toks) c'). split; [|split].
  - unfold dottedRuns. apply in_run_Group. exists c'. split; [|reflexivity].
    apply in_run_Cat. exists t, (dotted toks ++ rest), c, (dotted toks).
    split; [|split; [|reflexivity]].
    + rewrite <- app_assoc. apply in_run_Plus_Class_intro. exact Ht.
    + rewrite run_Star_eq. exact Hin.
  - unfold setCap. rewrite Nat.eqb_refl. reflexivity.
  - intros n Hn HSn. unfold setCap. apply Nat.eqb_neq in Hn. rewrite Hn.
    apply Hc'. exact HSn.
Qed.

End DottedRuns.

(* ================================================================== *)
(** ** The version pattern: what a match looks like *)

Lemma in_run_reSegments (s : str) (c : caps) (m s' : str) (c' : caps) :
  In (m, s', c') (run reSegments s c) ->
  dottedTokens isDigit m /\ s = m ++ s' /\ c' 1%nat = m /\
  forall n, n <> 1%nat -> n <> 2%nat -> c' n = c n.
Proof. apply (in_run_dottedRuns isDigit 1 false). Qed.

Lemma in_run_reTokens (k : nat) (s : str) (c : caps) (m s' : str) (c' : caps) :
  In (m, s', c') (run (reTokens k) s c) ->
  dottedTokens isIdent m /\ s = m ++ s' /\ c' k = m /\
  forall n, n <> k -> n <> S k -> c' n = c n.
Proof. apply (in_run_dottedRuns isIdent k true). Qed.

Lemma in_run_rePre (s : str) (c : caps) (m s' : str) (c' : caps) :
  In (m, s', c') (run rePre s c) ->
  dottedTokens isIdent (c' 4%nat) /\
  (m = c' 4%nat \/ m = "-"%char :: c' 4%nat) /\
  s = m ++ s' /\
  forall n, n <> 3%nat -> n <> 4%nat -> n <> 5%nat -> c' n = c n.
Proof.
  unfold rePre. intros H.
  apply in_run_Group in H as (c1 & H & ->).
  apply in_run_Cat in H as (m1 & s1 & c2 & m2 & H1 & H2 & ->).
  apply in_run_reTokens in H2 as (Htok & -> & H4 & Hc).
  assert (Hdash : (m1 = [] \/ m1 = ["-"%char]) /\ s = m1 ++ m2 ++ s' /\ c2 = c).
  { apply in_run_Alt in H1 as [H1|H1].
    - apply in_run_Class in H1 as (x & -> & Hx & -> & ->).
      apply Ascii.eqb_eq in Hx. subst x. auto.
    - apply in_run_Eps in H1 as (-> & -> & ->). auto. }
  destruct Hdash as (Hm1 & -> & ->).
  assert (E : setCap 3 (m1 ++ m2) c1 4%nat = m2) by exact H4.
  rewrite E. split; [exact Htok|]. split; [|split].
  - destruct Hm1 as [->| ->]; auto.
  - rewrite app_assoc. reflexivity.
  - intros n H3' H4' H5'. unfold setCap. apply Nat.eqb_neq in H3'.
    rewrite H3'. apply Hc; assumption.
Qed.

Lemma in_run_reMeta (s : str) (c : caps) (m s' : str) (c' : caps) :
  In (m, s', c') (run reMeta s c) ->
  dottedTokens isIdent (c' 7%nat) /\ m = "+"%char :: c' 7%nat /\
  s = m ++ s' /\
  forall n, n <> 6%nat -> n <> 7%nat -> n <> 8%nat -> c' n = c n.
Proof.
  unfold reMeta. intros H.
  apply in_run_Group in H as (c1 & H & ->).
  apply in_run_Cat in H as (m1 & s1 & c2 & m2 & H1 & H2 & ->).
  apply in_run_Class in H1 as (x & -> & Hx & -> & ->).
  apply Ascii.eqb_eq in Hx. subst x.
  apply in_run_reTokens in H2 as (Htok & -> & H7 & Hc).
  assert (E : setCap 6 (["+"%char] ++ m2) c1 7%nat = m2) by exact H7.
  rewrite E. split; [exact Htok|]. split; [reflexivity|]. split; [reflexivity|].
  intros n H6' H7' H8'. unfold setCap. apply Nat.eqb_neq in H6'.
  rewrite H6'. apply Hc; assumption.
Qed.

Lemma in_run_reSuffix (s : str) (c : caps) (m s' : str) (c' : caps) :
  c 4%nat = [] -> c 7%nat = [] ->
  In (m, s', c') (run reSuffix s c) ->
  s' = [] /\ s = m /\ c' 1%nat = c 1%nat /\
  exists pw mw,
    prereleasePart (c' 4%nat) pw /\ metadataPart (c' 7%nat) mw /\ m = pw ++ mw.
Proof.
  unfold reSuffix. intros C4 C7 H.
  apply in_run_Cat in H as (pw & s1 & c1 & m2 & Hpre & H & ->).
  apply in_run_Cat in H as (mw & s2 & c2 & m3 & Hmeta & Heol & ->).
  apply in_run_Eol in Heol as (-> & -> & -> & ->).
  assert (P : prereleasePart (c1 4%nat) pw /\ s = pw ++ s1 /\
              c1 1%nat = c 1%nat /\ c1 7%nat = []).
  { apply in_run_Alt in Hpre as [Hpre|Hpre].
    - apply in_run_rePre in Hpre as (Htok & Hm & -> & Hc).
      split; [right; auto|]. split; [reflexivity|].
      rewrite !Hc by discriminate. auto.
    - apply in_run_Eps in Hpre as (-> & -> & ->).
      split; [left; auto|]. auto. }
  destruct P as (Hpw & -> & C1 & C7').
  assert (M : metadataPart (c2 7%nat) mw /\ s1 = mw /\
              c2 1%nat = c1 1%nat /\ c2 4%nat = c1 4%nat).
  { apply in_run_Alt in Hmeta as [Hmeta|Hmeta].
    - apply in_run_Eps in Hmeta as (-> & <- & ->).
      split; [left; auto|]. auto.
    - apply in_run_reMeta in Hmeta as (Htok & -> & -> & Hc).
      split; [right; auto|]. split; [apply app_nil_r|].
      split; apply Hc; discriminate. }
  destruct M as (Hmw & -> & C1' & C4').
  rewrite app_nil_r. split; [reflexivity|]. split; [reflexivity|].
  split; [congruence|]. exists pw, mw. rewrite C4'. auto.
Qed.

(** A match of the pattern covers the whole input, and groups 1, 4 and 7
    hold the dotted numbers, the prerelease and the metadata. *)
Lemma in_run_versionRegexp (s : str) (m s' : str) (c' : caps) :
  In (m, s', c') (run versionRegexp s noCaps) ->
  s' = [] /\ m = s /\ versionSyntax s (c' 1%nat) (c' 4%nat) (c' 7%nat).
Proof.
  unfold versionRegexp. intros H.
  apply in_run_Cat in H as (lead & s1 & c1 & m1 & Hv & H & ->).
  apply in_run_Cat in H as (segs & s2 & c2 & m2 & Hsegs & Hsfx & ->).
  assert (V : (lead = [] \/ lead = ["v"%char]) /\ s = lead ++ s1 /\ c1 = noCaps).
  { apply in_run_Alt in Hv as [Hv|Hv].
    - apply in_run_Class in Hv as (x & -> & Hx & -> & ->).
      apply Ascii.eqb_eq in Hx. subst x. auto.
    - apply in_run_Eps in Hv as (-> & -> & ->). auto. }
  destruct V as (Hlead & -> & ->).
  apply in_run_reSegments in Hsegs as (Htok & -> & C1 & Hc).
  apply in_run_reSuffix in Hsfx as (-> & -> & C1' & pw & mw & Hpw & Hmw & ->);
    [|rewrite Hc by discriminate; reflexivity
     |rewrite Hc by discriminate; reflexivity].
  split; [reflexivity|]. split; [reflexivity|].
  exists lead, pw, mw. rewrite C1', C1. auto.
Qed.

Lemma FindStringSubmatch_versionRegexp (s : str) (matches : caps) :
  FindStringSubmatch versionRegexp s = Some matches ->
  matches 0%nat = s /\
  versionSyntax s (matches 1%nat) (matches 4%nat) (matches 7%nat).
Proof.
  unfold FindStringSubmatch. intros H.
  destruct (run versionRegexp s noCaps) as [|[[m s'] c'] l] eqn:E; [discriminate|].
  injection H as <-.
  destruct (in_run_versionRegexp s m s' c') as (-> & -> & Hsyn).
  { rewrite E. left. reflexivity. }
  split; [reflexivity|]. exact Hsyn.
Qed.

(* ================================================================== *)
(** ** The version pattern on a printed version *)

Lemma isDigit_not_v (x : ascii) : isDigit x = true -> Ascii.eqb "v"%char x = false.
Proof.
  intros H. destruct (Ascii.eqb_spec "v"%char x) as [<-|]; [discriminate|reflexivity].
Qed.

Lemma isIdent_false_not_dash (x : ascii) :
  isIdent x = false -> Ascii.eqb "-"%char x = false.
Proof.
  intros H. destruct (Ascii.eqb_spec "-"%char x) as [<-|]; [discriminate|reflexivity].
Qed.

Lemma dottedTokens_nonempty (p : ascii -> bool) (m : str) :
  dottedTokens p m -> is_empty m = false.
Proof.
  intros (t & toks & [Hne _] & _ & ->). destruct t; [contradiction|reflexivity].
Qed.

(** At a dot, nothing of the suffix matches up to the end of the text. *)
Lemma run_reSuffix_at_dot (r : str) (c : caps) :
  run reSuffix ("."%char :: r) c = [].
Proof. reflexivity. Qed.

(** Without identifier byte ahead, the prerelease group is skipped. *)
Lemma run_Opt_rePre_skip (rest : str) (c : caps) :
  stopsAt isIdent rest -> run (Opt rePre) rest c = [([], rest, c)].
Proof.
  intros H. destruct rest as [|x rest]; [reflexivity|].
  simpl in H. unfold Opt, rePre.
  rewrite run_Alt_eq, run_Group_eq, run_Cat_eq.
  change (run (Opt (Chr "-"%char)) (x :: rest) c)
    with ((if Ascii.eqb "-"%char x then [([x], rest, c)] else []) ++ [([], x :: rest, c)]).
  rewrite (isIdent_false_not_dash x H). cbn [app flat_map].
  change (run (reTokens 4) (x :: rest) c)
    with (map (fun o : outcome => let '(m, s', c') := o in (m, s', setCap 4 m c'))
            (flat_map (fun o : outcome =>
                         let '(m1, s1, c1) := o in
                         map (prepend m1)
                             (run (Star true (Group 5 (Cat (Chr "."%char) reIdent))) s1 c1))
                      (flat_map (fun o : outcome =>
                                   let '(m1, s1, c1) := o in
                                   map (prepend m1) (run (Star true (Class isIdent)) s1 c1))
                                (if isIdent x then [([x], rest, c)] else [])))).
  rewrite H. reflexivity.
Qed.

(** On a dash and dotted identifiers, the prerelease group takes them all
    first. *)
Lemma run_Opt_rePre_first (pre rest : str) (c : caps) :
  dottedTokens isIdent pre -> stopsAt isIdent rest ->
  stopsAt (Ascii.eqb "."%char) rest ->
  exists c' l,
    run (Opt rePre) ("-"%char :: pre ++ rest) c = ("-"%char :: pre, rest, c') :: l /\
    c' 4%nat = pre /\
    forall n, n <> 3%nat -> n <> 4%nat -> n <> 5%nat -> c' n = c n.
Proof.
  intros (t & toks & Ht & Htoks & ->) Hrest Hdot.
  destruct (run_dottedRuns_greedy_first isIdent 4 eq_refl t toks rest c
              Ht Htoks Hrest Hdot) as (c' & l & Hl & H4 & Hc).
  unfold Opt at 1. unfold rePre.
  rewrite run_Alt_eq, run_Group_eq, run_Cat_eq.
  change (run (Opt (Chr "-"%char)) ("-"%char :: (t ++ dotted toks) ++ rest) c)
    with [(["-"%char], (t ++ dotted toks) ++ rest, c);
          ([], "-"%char :: (t ++ dotted toks) ++ rest, c)].
  cbn [flat_map]. rewrite <- app_assoc.
  change (run (reTokens 4) (t ++ dotted toks ++ rest) c)
    with (run (Group 4 (Cat (Plus (Class isIdent))
                           (Star true (Group 5 (Cat (Chr "."%char) (Plus (Class isIdent)))))))
              (t ++ dotted toks ++ rest) c).
  rewrite Hl. cbn [map prepend app].
  eexists. eexists. split; [reflexivity|]. split.
  - exact H4.
  - intros n H3' H4' H5'. unfold setCap. apply Nat.eqb_neq in H3'. rewrite H3'.
    apply Hc; assumption.
Qed.

(** The rest of the pattern on the printed metadata. *)
Lemma run_reMeta_Eol_first (meta : str) (c : caps) :
  meta = [] \/ dottedTokens isIdent meta ->
  c 7%nat = [] ->
  exists c' l,
    run (Cat (OptLazy reMeta) Eol) (printedMeta meta) c =
    (printedMeta meta, [], c') :: l /\
    c' 7%nat = meta /\
    forall n, n <> 6%nat -> n <> 7%nat -> n <> 8%nat -> c' n = c n.
Proof.
  intros [->|Hmeta] C7.
  - exists c, []. split; [reflexivity|]. auto.
  - unfold printedMeta. rewrite (dottedTokens_nonempty _ _ Hmeta). cbn [negb].
    destruct Hmeta as (t & toks & Ht & Htoks & ->).
    destruct (run_dottedRuns_greedy_first isIdent 7 eq_refl t toks [] c
                Ht Htoks I I) as (c' & l & Hl & H7 & Hc).
    rewrite run_Cat_eq. unfold OptLazy. rewrite run_Alt_eq.
    change (run Eps ("+"%char :: t ++ dotted toks) c)
      with [(([] : str), "+"%char :: t ++ dotted toks, c)].
    cbn [app flat_map].
    change (run Eol ("+"%char :: t ++ dotted toks) c) with (@nil outcome).
    cbn [map app].
    unfold reMeta. rewrite run_Group_eq, run_Cat_eq.
    change (run (Chr "+"%char) ("+"%char :: t ++ dotted toks) c)
      with [(["+"%char], t ++ dotted toks, c)].
    cbn [flat_map].
    change (run (reTokens 7) (t ++ dotted toks) c)
      with (run (Group 7 (Cat (Plus (Class isIdent))
                             (Star true (Group 8 (Cat (Chr "."%char) (Plus (Class isIdent)))))))
                (t ++ dotted toks) c).
    rewrite app_nil_r in Hl. rewrite Hl.
    cbn [map prepend app flat_map].
    change (run Eol [] (setCap 6 ("+"%char :: t ++ dotted toks) c'))
      with [(([] : str), ([] : str), setCap 6 ("+"%char :: t ++ dotted toks) c')].
    cbn [map prepend app]. rewrite app_nil_r.
    eexists. eexists. split; [reflexivity|]. split.
    + exact H7.
    + intros n H6' H7' H8'. unfold setCap. apply Nat.eqb_neq in H6'. rewrite H6'.
      apply Hc; assumption.
Qed.

Lemma printedMeta_stops (meta : str) :
  stopsAt isIdent (printedMeta meta) /\
  stopsAt (Ascii.eqb "."%char) (printedMeta meta) /\
  stopsAt isDigit (printedMeta meta).
Proof. destruct meta; simpl; auto. Qed.

(** On the suffix that [String] prints, the first match of [reSuffix]
    gives back the prerelease and the metadata. *)
Lemma run_reSuffix_printed (pre meta : str) (c : caps) :
  pre = [] \/ dottedTokens isIdent pre ->
  meta = [] \/ dottedTokens isIdent meta ->
  c 4%nat = [] -> c 7%nat = [] ->
  exists c' l,
    run reSuffix (printedSuffix pre meta) c = (printedSuffix pre meta, [], c') :: l /\
    c' 1%nat = c 1%nat /\ c' 4%nat = pre /\ c' 7%nat = meta.
Proof.
  intros Hpre Hmeta C4 C7. unfold printedSuffix.
  destruct (printedMeta_stops meta) as (Hs1 & Hs2 & _).
  unfold reSuffix. rewrite run_Cat_eq.
  destruct Hpre as [->|Hpre].
  - change (printedPre [] ++ printedMeta meta) with (printedMeta meta).
    rewrite run_Opt_rePre_skip by assumption. cbn [flat_map].
    destruct (run_reMeta_Eol_first meta c Hmeta C7) as (c' & l & Hl & H7 & Hc).
    rewrite Hl. cbn [map prepend app].
    eexists. eexists. split; [reflexivity|].
    rewrite !Hc by discriminate. auto.
  - unfold printedPre. rewrite (dottedTokens_nonempty _ _ Hpre). cbn [negb].
    destruct (run_Opt_rePre_first pre (printedMeta meta) c Hpre Hs1 Hs2)
      as (c1 & l1 & Hl1 & H4 & Hc1).
    change (("-"%char :: pre) ++ printedMeta meta)
      with ("-"%char :: pre ++ printedMeta meta).
    rewrite Hl1. cbn [flat_map].
    destruct (run_reMeta_Eol_first meta c1 Hmeta) as (c' & l & Hl & H7 & Hc).
    { rewrite Hc1 by discriminate. exact C7. }
    rewrite Hl. cbn [map prepend app].
    eexists. eexists. split; [reflexivity|].
    rewrite !Hc by discriminate. rewrite Hc1 by discriminate. auto.
Qed.

Lemma printedSuffix_stops (pre meta : str) :
  stopsAt isDigit (printedSuffix pre meta).
Proof.
  unfold printedSuffix, printedPre. destruct pre; cbn [is_empty negb app].
  - apply printedMeta_stops.
  - reflexivity.
Qed.

Lemma flat_map_reSuffix_atDot (l : list outcome) :
  Forall atDot l ->
  flat_map (fun o : outcome =>
              let '(m1, s1, c1) := o in map (prepend m1) (run reSuffix s1 c1)) l = [].
Proof.
  induction 1 as [|o l (m & r & c & ->) Hl IH]; [reflexivity|].
  cbn [flat_map]. rewrite run_reSuffix_at_dot, IH. reflexivity.
Qed.

(** On dotted numbers followed by a printed suffix, the first match of the
    pattern gives back all the numbers, the prerelease and the metadata. *)
Lemma run_versionRegexp_printed (t : str) (toks : list str) (pre meta : str) :
  token isDigit t -> Forall (token isDigit) toks ->
  pre = [] \/ dottedTokens isIdent pre ->
  meta = [] \/ dottedTokens isIdent meta ->
  exists c' l,
    run versionRegexp (t ++ dotted toks ++ printedSuffix pre meta) noCaps =
    (t ++ dotted toks ++ printedSuffix pre meta, [], c') :: l /\
    c' 1%nat = t ++ dotted toks /\ c' 4%nat = pre /\ c' 7%nat = meta.
Proof.
  intros Ht Htoks Hpre Hmeta.
  destruct (run_dottedRuns_lazy_reach isDigit 1 eq_refl t toks
              (printedSuffix pre meta) noCaps Ht Htoks (printedSuffix_stops pre meta))
    as (l1 & c1 & l2 & Hl & Hdots & H1 & Hc1).
  destruct (run_reSuffix_printed pre meta c1 Hpre Hmeta)
    as (c' & l & Hsfx & H1' & H4 & H7);
    [rewrite Hc1 by discriminate; reflexivity
    |rewrite Hc1 by discriminate; reflexivity|].
  unfold versionRegexp. rewrite run_Cat_eq.
  assert (Hv : run (Opt (Chr "v"%char)) (t ++ dotted toks ++ printedSuffix pre meta) noCaps
               = [([], t ++ dotted toks ++ printedSuffix pre meta, noCaps)]).
  { destruct Ht as [Hne Hd]. destruct t as [|x t]; [contradiction|].
    simpl in Hd. apply andb_true_iff in Hd as [Hx _].
    unfold Opt. rewrite run_Alt_eq.
    change (run (Chr "v"%char) ((x :: t) ++ dotted toks ++ printedSuffix pre meta) noCaps)
      with (if Ascii.eqb "v"%char x
            then [([x], t ++ dotted toks ++ printedSuffix pre meta, noCaps)] else []).
    rewrite (isDigit_not_v x Hx). reflexivity. }
  rewrite Hv. cbn [flat_map]. rewrite run_Cat_eq.
  change (run reSegments (t ++ dotted toks ++ printedSuffix pre meta) noCaps)
    with (run (Group 1 (Cat (Plus (Class isDigit))
                           (Star false (Group 2 (Cat (Chr "."%char) (Plus (Class isDigit)))))))
              (t ++ dotted toks ++ printedSuffix pre meta) noCaps).
  rewrite Hl, flat_map_app, flat_map_reSuffix_atDot by assumption.
  cbn [flat_map app]. rewrite Hsfx. cbn [map prepend app].
  rewrite <- app_assoc.
  eexists. eexists. split; [reflexivity|]. split; [congruence|]. auto.
Qed.

(* ================================================================== *)
(** ** Decimal numbers *)

Lemma digitChar_digit (d : Z) :
  0 <= d < 10 -> isDigit (digitChar d) = true /\ digitVal (digitChar d) = d.
Proof.
  intros H.
  assert (E : d = 0 \/ d = 1 \/ d = 2 \/ d = 3 \/ d = 4 \/ d = 5 \/ d = 6 \/
              d = 7 \/ d = 8 \/ d = 9) by lia.
  repeat destruct E as [->|E]; try subst d; split; reflexivity.
Qed.

Lemma digitVal_range (x : ascii) : isDigit x = true -> 0 <= digitVal x < 10.
Proof.
  unfold isDigit, digitVal. intros H. apply andb_true_iff in H as [H1 H2].
  apply N.leb_le in H1, H2. lia.
Qed.

Lemma isDigit_not_sign (x : ascii) :
  isDigit x = true -> Ascii.eqb x "-"%char = false /\ Ascii.eqb x "+"%char = false.
Proof.
  intros H. split.
  - destruct (Ascii.eqb_spec x "-"%char) as [->|]; [discriminate|reflexivity].
  - destruct (Ascii.eqb_spec x "+"%char) as [->|]; [discriminate|reflexivity].
Qed.

Lemma isDigit_not_dot (x : ascii) :
  isDigit x = true -> Ascii.eqb x "."%char = false.
Proof.
  intros H. destruct (Ascii.eqb_spec x "."%char) as [->|]; [discriminate|reflexivity].
Qed.

Lemma parseDigits_app (a : Z) (x y : str) :
  parseDigits a (x ++ y) =
  match parseDigits a x with Some a' => parseDigits a' y | None => None end.
Proof.
  revert a. induction x as [|c x IH]; intros a; [reflexivity|].
  simpl. destruct (isDigit c); [apply IH|reflexivity].
Qed.

Lemma parseDigits_lower (s : str) :
  forall a v, 0 <= a -> parseDigits a s = Some v -> a <= v.
Proof.
  induction s as [|c s IH]; intros a v Ha H; simpl in H.
  - injection H as <-. lia.
  - destruct (isDigit c) eqn:Hc; [|discriminate].
    apply digitVal_range in Hc. apply IH in H; lia.
Qed.

(** [formatDigits] writes the decimal digits of [n] in front of [acc]. *)
Lemma formatDigits_spec (fuel : nat) :
  forall n acc, (0 < fuel)%nat -> 0 <= n < 2 ^ Z.of_nat fuel ->
  exists ds,
    formatDigits fuel n acc = ds ++ acc /\ token isDigit ds /\
    forall a, parseDigits a ds = Some (a * 10 ^ Z.of_nat (length ds) + n).
Proof.
  induction fuel as [|fuel IH]; intros n acc Hfuel Hn.
  - lia.
  - cbn [formatDigits].
    assert (Hmod : 0 <= n mod 10 < 10) by (apply Z.mod_pos_bound; lia).
    destruct (digitChar_digit _ Hmod) as [Hd Hv].
    destruct (n <? 10) eqn:E.
    + apply Z.ltb_lt in E. exists [digitChar (n mod 10)].
      split; [reflexivity|]. split; [apply token_cons; auto|].
      intros a. cbn [parseDigits length]. rewrite Hd, Hv.
      rewrite Z.mod_small by lia. change (Z.of_nat 1) with 1.
      rewrite Z.pow_1_r. reflexivity.
    + apply Z.ltb_ge in E.
      destruct (IH (n / 10) (digitChar (n mod 10) :: acc)) as (ds & Hds & Htok & Hval).
      { destruct fuel as [|fuel']; [|lia].
        change (2 ^ Z.of_nat 1) with 2 in Hn. lia. }
      { split; [apply Z.div_pos; lia|].
        rewrite Nat2Z.inj_succ, Z.pow_succ_r in Hn by lia.
        apply Z.div_lt_upper_bound; lia. }
      exists (ds ++ [digitChar (n mod 10)]). split; [|split].
      * rewrite Hds, <- app_assoc. reflexivity.
      * destruct Htok as [Hne Hall]. split.
        -- destruct ds; [contradiction|discriminate].
        -- rewrite forallb_app, Hall. simpl. rewrite Hd. reflexivity.
      * intros a. rewrite parseDigits_app, Hval. cbn [parseDigits].
        rewrite Hd, Hv. rewrite length_app. cbn [length].
        rewrite Nat2Z.inj_add, Z.pow_add_r by lia.
        change (Z.of_nat 1) with 1. rewrite Z.pow_1_r.
        f_equal. pose proof (Z.div_mod n 10). lia.
Qed.

(** [Itoa] of a non-negative number is a run of digits that reads back as
    the number. *)
Lemma Itoa_digits (n : Z) :
  0 <= n -> token isDigit (Itoa n) /\ parseDigits 0 (Itoa n) = Some n.
Proof.
  intros Hn. unfold Itoa.
  replace (n <? 0) with false by (symmetry; apply Z.ltb_ge; exact Hn).
  destruct (formatDigits_spec (S (Z.to_nat (Z.log2 n))) n []) as (ds & Hds & Htok & Hval).
  { lia. }
  { split; [exact Hn|].
    rewrite Nat2Z.inj_succ, Z2Nat.id by apply Z.log2_nonneg.
    destruct (Z.eq_dec n 0) as [->|Hz]; [reflexivity|].
    apply Z.log2_spec. lia. }
  rewrite Hds, app_nil_r. split; [exact Htok|].
  rewrite Hval. f_equal.
Qed.

(** A run of digits that [ParseInt] accepts at 32 bits is a number in
    [0, 2^31). *)
Lemma ParseInt_digits_range (t : str) (v : Z) :
  token isDigit t -> ParseInt t 32 = Some v -> 0 <= v < 2 ^ 31.
Proof.
  intros [Hne Hd] H. destruct t as [|x t]; [contradiction|].
  pose proof Hd as Hd'. simpl in Hd'. apply andb_true_iff in Hd' as [Hx _].
  destruct (isDigit_not_sign x Hx) as [Hm Hp].
  unfold ParseInt in H. rewrite Hm, Hp in H. unfold ParseUint in H.
  destruct (parseDigits 0 (x :: t)) as [un|] eqn:E; [|discriminate].
  apply parseDigits_lower in E; [|lia].
  change (2 ^ (32 - 1)) with 2147483648 in H.
  cbn [negb andb] in H.
  destruct (un >=? 2147483648) eqn:G; [discriminate|].
  injection H as <-. 
  rewrite Z.geb_leb in G. apply Z.leb_gt in G. lia.
Qed.

Lemma ParseInt_Itoa (n : Z) : 0 <= n < 2 ^ 31 -> ParseInt (Itoa n) 32 = Some n.
Proof.
  intros Hn. destruct (Itoa_digits n) as [[Hne Hd] Hv]; [lia|].
  destruct (Itoa n) as [|x t]; [contradiction|].
  pose proof Hd as Hd'. simpl in Hd'. apply andb_true_iff in Hd' as [Hx _].
  destruct (isDigit_not_sign x Hx) as [Hm Hp].
  unfold ParseInt. rewrite Hm, Hp. unfold ParseUint. rewrite Hv.
  change (2 ^ (32 - 1)) with 2147483648. cbn [negb andb].
  replace (n >=? 2147483648) with false; [reflexivity|].
  symmetry. rewrite Z.geb_leb. apply Z.leb_gt. lia.
Qed.

(* ================================================================== *)
(** ** Splitting and joining on dots *)

Lemma Split_no_dot (t : str) :
  forallb isDigit t = true -> Split t "."%char = [t].
Proof.
  induction t as [|x t IH]; intros H; [reflexivity|].
  simpl in H. apply andb_true_iff in H as [Hx Ht].
  cbn [Split]. rewrite (isDigit_not_dot x Hx), (IH Ht). reflexivity.
Qed.

Lemma Split_at_dot (t r : str) :
  forallb isDigit t = true ->
  Split (t ++ "."%char :: r) "."%char = t :: Split r "."%char.
Proof.
  induction t as [|x t IH]; intros H; [reflexivity|].
  simpl in H. apply andb_true_iff in H as [Hx Ht].
  cbn [Split app]. rewrite (isDigit_not_dot x Hx), (IH Ht). reflexivity.
Qed.

Lemma Split_dotted (t : str) (toks : list str) :
  token isDigit t -> Forall (token isDigit) toks ->
  Split (t ++ dotted toks) "."%char = t :: toks.
Proof.
  intros Ht Htoks. revert t Ht.
  induction Htoks as [|u toks Hu Htoks IH]; intros t [_ Ht].
  - change (dotted []) with (@nil ascii). rewrite app_nil_r. apply Split_no_dot. exact Ht.
  - rewrite dotted_cons, Split_at_dot by exact Ht. rewrite (IH u Hu). reflexivity.
Qed.

Lemma Join_dotted (t : str) (toks : list str) :
  Join (t :: toks) "."%char = t ++ dotted toks.
Proof.
  revert t. induction toks as [|u toks IH]; intros t.
  - simpl. rewrite app_nil_r. reflexivity.
  - change (Join (t :: u :: toks) "."%char) with (t ++ "."%char :: Join (u :: toks) "."%char).
    rewrite IH, dotted_cons. reflexivity.
Qed.

(* ================================================================== *)
(** ** What [NewVersion] returns *)

(** The range of a segment that [NewVersion] accepts. *)
Lemma parseSegments_range (toks : list str) :
  Forall (token isDigit) toks ->
  forall segs, parseSegments toks = inr segs ->
  Forall (fun v => 0 <= v < 2 ^ 31) segs /\ length segs = length toks.
Proof.
  induction 1 as [|t toks Ht Htoks IH]; intros segs H; simpl in H.
  - injection H as <-. auto.
  - destruct (ParseInt t 32) as [v|] eqn:E; [|discriminate].
    destruct (parseSegments toks) as [e|vals]; [discriminate|].
    injection H as <-. destruct (IH vals eq_refl) as [Hr Hl].
    split; [|simpl; congruence].
    constructor; [|exact Hr]. eapply ParseInt_digits_range; eassumption.
Qed.

Lemma parseSegments_Itoa (segs : list Z) :
  Forall (fun v => 0 <= v < 2 ^ 31) segs ->
  parseSegments (map Itoa segs) = inr segs.
Proof.
  induction 1 as [|v segs Hv Hsegs IH]; [reflexivity|].
  cbn [map parseSegments]. rewrite (ParseInt_Itoa v Hv), IH. reflexivity.
Qed.

Lemma padSegments_length (segs : list Z) : (3 <= length (padSegments segs))%nat.
Proof. unfold padSegments. rewrite length_app, repeat_length. lia. Qed.

Lemma padSegments_long (segs : list Z) :
  (3 <= length segs)%nat -> padSegments segs = segs.
Proof.
  intros H. unfold padSegments.
  replace (3 - length segs)%nat with 0%nat by lia. apply app_nil_r.
Qed.

Lemma padSegments_range (segs : list Z) :
  Forall (fun v => 0 <= v < 2 ^ 31) segs ->
  Forall (fun v => 0 <= v < 2 ^ 31) (padSegments segs).
Proof.
  intros H. unfold padSegments. apply Forall_app. split; [exact H|].
  apply Forall_forall. intros x Hx. apply repeat_spec in Hx. subst x. lia.
Qed.

(** The steps of [NewVersion] on a successful call. *)
Lemma NewVersion_Ok (s : str) (v : Version) :
  NewVersion s = Ok v ->
  exists matches segs,
    FindStringSubmatch versionRegexp s = Some matches /\
    parseSegments (Split (matches 1%nat) "."%char) = inr segs /\
    v = {| metadata := matches 7%nat;
           pre := matches 4%nat;
           segments := padSegments segs;
           si := Z.of_nat (length (Split (matches 1%nat) "."%char)) |}.
Proof.
  unfold NewVersion. intros H.
  destruct (FindStringSubmatch versionRegexp s) as [matches|]; [|discriminate].
  destruct (parseSegments (Split (matches 1%nat) "."%char)) as [e|segs] eqn:E;
    [discriminate|].
  injection H as <-. exists matches, segs. auto.
Qed.

Lemma prereleasePart_shape (pre whole : str) :
  prereleasePart pre whole -> pre = [] \/ dottedTokens isIdent pre.
Proof. intros [[H _]|[H _]]; auto. Qed.

Lemma metadataPart_shape (meta whole : str) :
  metadataPart meta whole -> meta = [] \/ dottedTokens isIdent meta.
Proof. intros [[H _]|[H _]]; auto. Qed.

(** The fields of a parsed version. *)
Lemma NewVersion_fields (s : str) (v : Version) :
  NewVersion s = Ok v ->
  (3 <= length (segments v))%nat /\
  Forall (fun x => 0 <= x < 2 ^ 31) (segments v) /\
  (pre v = [] \/ dottedTokens isIdent (pre v)) /\
  (metadata v = [] \/ dottedTokens isIdent (metadata v)).
Proof.
  intros H. apply NewVersion_Ok in H as (matches & segs & Hm & Hp & ->).
  apply FindStringSubmatch_versionRegexp in Hm
    as (_ & lead & pw & mw & _ & (t & toks & Ht & Htoks & E1) & Hpw & Hmw & _).
  rewrite E1, Split_dotted in Hp by assumption.
  apply parseSegments_range in Hp as [Hr _]; [|constructor; assumption].
  cbn [segments pre metadata].
  split; [apply padSegments_length|]. split; [apply padSegments_range; exact Hr|].
  split; [eapply prereleasePart_shape|eapply metadataPart_shape]; eassumption.
Qed.

Lemma String_printed (v : Version) :
  String v = Join (map Itoa (segments v)) "."%char
             ++ printedSuffix (pre v) (metadata v).
Proof. reflexivity. Qed.

(** Parsing what [String] prints gives back segments, prerelease and
    metadata. *)
Lemma NewVersion_String (v : Version) :
  (3 <= length (segments v))%nat ->
  Forall (fun x => 0 <= x < 2 ^ 31) (segments v) ->
  pre v = [] \/ dottedTokens isIdent (pre v) ->
  metadata v = [] \/ dottedTokens isIdent (metadata v) ->
  NewVersion (String v) =
  Ok {| metadata := metadata v; pre := pre v; segments := segments v;
        si := Z.of_nat (length (segments v)) |}.
Proof.
  intros Hlen Hr Hpre Hmeta. rewrite String_printed.
  destruct (segments v) as [|x segs] eqn:Esegs; [simpl in Hlen; lia|].
  assert (Htoks : Forall (token isDigit) (map Itoa (x :: segs))).
  { apply Forall_map. eapply Forall_impl; [|exact Hr].
    intros a [Ha _]. apply Itoa_digits. exact Ha. }
  cbn [map] in *. apply Forall_cons_iff in Htoks as [Ht Htoks].
  rewrite Join_dotted, <- app_assoc.
  destruct (run_versionRegexp_printed (Itoa x) (map Itoa segs) (pre v) (metadata v)
              Ht Htoks Hpre Hmeta) as (c' & l & Hrun & H1 & H4 & H7).
  unfold NewVersion, FindStringSubmatch. rewrite Hrun.
  change (setCap 0 (Itoa x ++ dotted (map Itoa segs) ++ printedSuffix (pre v) (metadata v))
                 c' 1%nat) with (c' 1%nat).
  cbv zeta. rewrite H1, Split_dotted by assumption.
  change (Itoa x :: map Itoa segs) with (map Itoa (x :: segs)).
  rewrite (parseSegments_Itoa (x :: segs) Hr).
  rewrite padSegments_long by exact Hlen.
  rewrite length_map.
  change (setCap 0 (Itoa x ++ dotted (map Itoa segs) ++ printedSuffix (pre v) (metadata v))
                 c' 7%nat) with (c' 7%nat).
  change (setCap 0 (Itoa x ++ dotted (map Itoa segs) ++ printedSuffix (pre v) (metadata v))
                 c' 4%nat) with (c' 4%nat).
  rewrite H4, H7. reflexivity.
Qed.

(* ================================================================== *)
(** ** Properties of [NewVersion] and [String] *)

(** C8: round trip.  For every input on which [NewVersion] succeeds,
    parsing the string that [String] prints for the result succeeds too,
    and the version obtained compares as equal to the first one (it has
    the same segments, prerelease and metadata). *)
Theorem String_roundtrip (s : str) (v : Version) :
  NewVersion s = Ok v ->
  exists v',
    NewVersion (String v) = Ok v' /\ Compare v v' = 0 /\
    Segments v' = Segments v /\ Prerelease v' = Prerelease v /\
    Metadata v' = Metadata v.
Proof.
  intros H. apply NewVersion_fields in H as (Hlen & Hr & Hpre & Hmeta).
  eexists. split; [apply NewVersion_String; assumption|].
  split; [|repeat split].
  unfold Compare.
  replace (str_eqb (String v) _) with true; [reflexivity|].
  symmetry. apply str_eqb_eq. reflexivity.
Qed.

Lemma String_roundtrip_witness :
  exists v',
    NewVersion (String (mkVersion (lit "build.7") (lit "rc.1") [1; 2; 0] 2)) = Ok v' /\
    Compare (mkVersion (lit "build.7") (lit "rc.1") [1; 2; 0] 2) v' = 0 /\
    Segments v' = [1; 2; 0] /\ Prerelease v' = lit "rc.1" /\
    Metadata v' = lit "build.7".
Proof.
  apply (String_roundtrip (lit "v1.2rc.1+build.7")). vm_compute. reflexivity.
Defined.

(** C3 (counterexample): 1.2.3beta, which contains no dash, is accepted,
    and its prerelease is beta. *)
Lemma prerelease_without_dash :
  NewVersion (lit "1.2.3beta") =
  Ok {| metadata := []; pre := lit "beta"; segments := [1; 2; 3]; si := 3 |} /\
  ~ In "-"%char (lit "1.2.3beta").
Proof.
  split; [vm_compute; reflexivity|].
  simpl. intros H. repeat destruct H as [H|H]; try discriminate. exact H.
Qed.

(* ================================================================== *)
(** ** The version pattern accepts the whole grammar *)

Lemma in_run_Opt_Chr (x : ascii) (lead rest : str) (c : caps) :
  lead = [] \/ lead = [x] ->
  In (lead, rest, c) (run (Opt (Chr x)) (lead ++ rest) c).
Proof.
  intros [->| ->]; unfold Opt; apply in_run_Alt.
  - right. apply in_run_Eps. auto.
  - left. apply in_run_Class. exists x. rewrite Ascii.eqb_refl. auto.
Qed.

Lemma in_run_Opt_rePre_intro (pre pw rest : str) (c : caps) :
  prereleasePart pre pw ->
  exists c', In (pw, rest, c') (run (Opt rePre) (pw ++ rest) c).
Proof.
  intros [[-> ->]|[Htok Hpw]]; unfold Opt.
  - exists c. apply in_run_Alt. right. apply in_run_Eps. auto.
  - assert (Hdash : exists dash, (dash = [] \/ dash = ["-"%char]) /\ pw = dash ++ pre).
    { destruct Hpw as [->| ->]; [exists []|exists ["-"%char]]; auto. }
    destruct Hdash as (dash & Hdash & ->).
    destruct (in_run_dottedRuns_intro isIdent 4 true pre rest c Htok)
      as (c' & Hin & _).
    eexists. apply in_run_Alt. left. unfold rePre.
    apply in_run_Group. exists c'. split; [|reflexivity].
    apply in_run_Cat. exists dash, (pre ++ rest), c, pre.
    split; [|split; [exact Hin|reflexivity]].
    rewrite <- app_assoc. apply in_run_Opt_Chr. exact Hdash.
Qed.

Lemma in_run_OptLazy_reMeta_intro (meta mw : str) (c : caps) :
  metadataPart meta mw ->
  exists c', In (mw, [], c') (run (OptLazy reMeta) mw c).
Proof.
  intros [[-> ->]|[Htok ->]]; unfold OptLazy.
  - exists c. apply in_run_Alt. left. apply in_run_Eps. auto.
  - destruct (in_run_dottedRuns_intro isIdent 7 true meta [] c Htok)
      as (c' & Hin & _).
    rewrite app_nil_r in Hin.
    eexists. apply in_run_Alt. right. unfold reMeta.
    apply in_run_Group. exists c'. split; [|reflexivity].
    apply in_run_Cat. exists ["+"%char], meta, c, meta.
    split; [|split; [exact Hin|reflexivity]].
    apply in_run_Class. exists "+"%char. auto.
Qed.

(** Every text of the grammar is matched by the pattern. *)
Lemma versionSyntax_matched (s segs pre meta : str) :
  versionSyntax s segs pre meta ->
  exists c', In (s, [], c') (run versionRegexp s noCaps).
Proof.
  intros (lead & pw & mw & Hlead & Hsegs & Hpw & Hmw & ->).
  destruct (in_run_dottedRuns_intro isDigit 1 false segs (pw ++ mw) noCaps Hsegs)
    as (c1 & H1 & _).
  destruct (in_run_Opt_rePre_intro pre pw mw c1 Hpw) as (c2 & H2).
  destruct (in_run_OptLazy_reMeta_intro meta mw c2 Hmw) as (c3 & H3).
  exists c3. unfold versionRegexp.
  apply in_run_Cat. exists lead, (segs ++ pw ++ mw), noCaps, (segs ++ pw ++ mw).
  split; [apply in_run_Opt_Chr; exact Hlead|]. split; [|reflexivity].
  apply in_run_Cat. exists segs, (pw ++ mw), c1, (pw ++ mw).
  split; [exact H1|]. split; [|reflexivity].
  unfold reSuffix.
  apply in_run_Cat. exists pw, mw, c2, mw.
  split; [exact H2|]. split; [|reflexivity].
  apply in_run_Cat. exists mw, [], c3, [].
  split; [exact H3|]. split; [|symmetry; apply app_nil_r].
  apply in_run_Eol. auto.
Qed.

(** C3 (amended): the pattern accepts exactly the anchored grammar in
    which the dash in front of the prerelease is optional: an optional
    v, dotted numbers, then possibly dotted identifiers with or without a
    leading dash, then possibly a plus sign and dotted identifiers.  When
    [NewVersion] succeeds the input has this shape, with the prerelease
    and the metadata of the result; 1.2.3beta and 1.2.3-beta both give
    the prerelease beta. *)
Theorem dash_before_prerelease_optional :
  (forall s : str,
     (exists matches, FindStringSubmatch versionRegexp s = Some matches) <->
     (exists segs pre meta, versionSyntax s segs pre meta)) /\
  (forall (s : str) (v : Version),
     NewVersion s = Ok v ->
     exists segs, versionSyntax s segs (Prerelease v) (Metadata v)) /\
  NewVersion (lit "1.2.3beta") =
    Ok {| metadata := []; pre := lit "beta"; segments := [1; 2; 3]; si := 3 |} /\
  NewVersion (lit "1.2.3-beta") =
    Ok {| metadata := []; pre := lit "beta"; segments := [1; 2; 3]; si := 3 |}.
Proof.
  split; [|split; [|split; vm_compute; reflexivity]].
  - intros s. split.
    + intros (matches & H). apply FindStringSubmatch_versionRegexp in H as [_ H].
      eauto.
    + intros (segs & pre & meta & H).
      apply versionSyntax_matched in H as (c' & H).
      unfold FindStringSubmatch.
      destruct (run versionRegexp s noCaps) as [|[[m r] c] l]; [contradiction|].
      eauto.
  - intros s v H. apply NewVersion_Ok in H as (matches & segs & Hm & _ & ->).
    apply FindStringSubmatch_versionRegexp in Hm as [_ Hm].
    exists (matches 1%nat). exact Hm.
Qed.

Lemma dash_before_prerelease_optional_witness :
  exists segs, versionSyntax (lit "1.2.3beta") segs (lit "beta") [].
Proof.
  destruct dash_before_prerelease_optional as (_ & H & _).
  apply (H (lit "1.2.3beta")
           {| metadata := []; pre := lit "beta"; segments := [1; 2; 3]; si := 3 |}).
  vm_compute. reflexivity.
Defined.

(* ================================================================== *)
(** ** [Compare] is antisymmetric *)

Lemma comparePart_antisym (a b : str) : comparePart a b = - comparePart b a.
Proof.
  unfold comparePart. rewrite (str_eqb_sym b a).
  destruct (str_eqb a b) eqn:E; [reflexivity|].
  apply str_eqb_neq in E.
  destruct a as [|x a], b as [|y b]; cbn [is_empty].
  - contradiction.
  - destruct (ParseInt (y :: b) 64); reflexivity.
  - destruct (ParseInt (x :: a) 64); reflexivity.
  - rewrite (str_gtb_ltb _ _ E), (str_gtb_flip (y :: b) (x :: a)).
    destruct (str_ltb (x :: a) (y :: b)); reflexivity.
Qed.

Lemma prereleaseLoop_antisym (n : nat) :
  forall i a b, prereleaseLoop n i a b = - prereleaseLoop n i b a.
Proof.
  induction n as [|n IH]; intros i a b; [reflexivity|].
  cbn [prereleaseLoop]. rewrite (comparePart_antisym (nth i b []) (nth i a [])).
  destruct (comparePart (nth i a []) (nth i b []) =? 0) eqn:E.
  - apply Z.eqb_eq in E. rewrite E. simpl. apply IH.
  - apply Z.eqb_neq in E.
    replace (- comparePart (nth i a []) (nth i b []) =? 0) with false
      by (symmetry; apply Z.eqb_neq; lia).
    simpl. lia.
Qed.

Lemma comparePrereleases_antisym (v other : str) :
  comparePrereleases v other = - comparePrereleases other v.
Proof.
  unfold comparePrereleases. rewrite (str_eqb_sym other v).
  destruct (str_eqb v other); [reflexivity|]. cbv zeta.
  rewrite prereleaseLoop_antisym. f_equal. f_equal.
  destruct (length (Split other "."%char) <? length (Split v "."%char))%nat eqn:E1,
           (length (Split v "."%char) <? length (Split other "."%char))%nat eqn:E2;
    try reflexivity.
  - apply Nat.ltb_lt in E1, E2. lia.
  - apply Nat.ltb_ge in E1, E2. lia.
Qed.

Lemma allZero_skipn_nil (i : nat) (a : list Z) :
  (length a <= i)%nat -> skipn i a = [].
Proof. apply skipn_all2. Qed.

Lemma skipn_nth_cons (i : nat) (a : list Z) :
  (i < length a)%nat -> skipn i a = nth i a 0 :: skipn (S i) a.
Proof.
  revert a. induction i as [|i IH]; intros [|x a] H; simpl in H; try lia.
  - reflexivity.
  - change (skipn (S i) (x :: a)) with (skipn i a).
    change (skipn (S (S i)) (x :: a)) with (skipn (S i) a).
    change (nth (S i) (x :: a) 0) with (nth i a 0).
    apply IH. lia.
Qed.

(** The loop of [Compare] from index [i] is [cmpSegs] on what is left. *)
Lemma segmentLoop_cmpSegs (n : nat) :
  forall i a b,
    (i + n)%nat = Nat.max (length a) (length b) ->
    segmentLoop n i a b = cmpSegs (skipn i a) (skipn i b).
Proof.
  induction n as [|n IH]; intros i a b H.
  - rewrite !allZero_skipn_nil by lia. reflexivity.
  - cbn [segmentLoop].
    destruct (Z.of_nat i >? Z.of_nat (length a) - 1) eqn:E1.
    + apply Z.gtb_lt in E1. rewrite (allZero_skipn_nil i a) by lia. reflexivity.
    + rewrite Z.gtb_ltb in E1. apply Z.ltb_ge in E1.
      rewrite (skipn_nth_cons i a) by lia.
      destruct (Z.of_nat i >? Z.of_nat (length b) - 1) eqn:E2.
      * apply Z.gtb_lt in E2. rewrite (allZero_skipn_nil i b) by lia.
        rewrite <- (skipn_nth_cons i a) by lia. 
        destruct (skipn i a) eqn:Es; [|reflexivity].
        rewrite (skipn_nth_cons i a) in Es by lia. discriminate.
      * rewrite Z.gtb_ltb in E2. apply Z.ltb_ge in E2.
        rewrite (skipn_nth_cons i b) by lia. cbn [cmpSegs].
        rewrite IH by lia. reflexivity.
Qed.

Lemma cmpSegs_antisym (a : list Z) : forall b, cmpSegs a b = - cmpSegs b a.
Proof.
  induction a as [|x a IH]; intros [|y b]; cbn [cmpSegs].
  - reflexivity.
  - destruct (allZero (y :: b)); reflexivity.
  - destruct (allZero (x :: a)); reflexivity.
  - rewrite (Z.eqb_sym y x). destruct (x =? y) eqn:E; [apply IH|].
    apply Z.eqb_neq in E.
    destruct (x <? y) eqn:L, (y <? x) eqn:G; try reflexivity.
    + apply Z.ltb_lt in L, G. lia.
    + apply Z.ltb_ge in L, G. lia.
Qed.

Lemma cmpSegs_same (a : list Z) : cmpSegs a a = 0.
Proof.
  induction a as [|x a IH]; [reflexivity|].
  cbn [cmpSegs]. rewrite Z.eqb_refl. exact IH.
Qed.

(** The last branch of [Compare]. *)
Lemma Compare_loop (a b : list Z) :
  segmentLoop (if (length a <? length b)%nat then length b else length a) 0 a b =
  cmpSegs a b.
Proof.
  rewrite segmentLoop_cmpSegs; [reflexivity|].
  destruct (length a <? length b)%nat eqn:E;
    [apply Nat.ltb_lt in E|apply Nat.ltb_ge in E]; lia.
Qed.

Lemma Compare_antisym (v o : Version) : Compare v o = - Compare o v.
Proof.
  unfold Compare, Segments, Prerelease.
  rewrite (str_eqb_sym (String o) (String v)).
  destruct (str_eqb (String v) (String o)); [reflexivity|].
  rewrite (segs_eqb_sym (segments o) (segments v)).
  destruct (segs_eqb (segments v) (segments o)).
  - destruct (pre v) as [|x p], (pre o) as [|y q]; cbn [is_empty andb];
      try reflexivity.
    apply comparePrereleases_antisym.
  - rewrite !Compare_loop. apply cmpSegs_antisym.
Qed.

Lemma comparePart_values (a b : str) :
  comparePart a b = -1 \/ comparePart a b = 0 \/ comparePart a b = 1.
Proof.
  unfold comparePart.
  destruct (str_eqb a b); auto.
  destruct (is_empty a); [destruct (ParseInt b 64); auto|].
  destruct (is_empty b); [destruct (ParseInt a 64); auto|].
  destruct (str_gtb a b); auto.
Qed.

Lemma prereleaseLoop_values (n : nat) :
  forall i a b,
    prereleaseLoop n i a b = -1 \/ prereleaseLoop n i a b = 0 \/
    prereleaseLoop n i a b = 1.
Proof.
  induction n as [|n IH]; intros i a b; cbn [prereleaseLoop]; auto.
  destruct (negb (comparePart (nth i a []) (nth i b []) =? 0)).
  - apply comparePart_values.
  - apply IH.
Qed.

Lemma cmpSegs_values (a : list Z) :
  forall b, cmpSegs a b = -1 \/ cmpSegs a b = 0 \/ cmpSegs a b = 1.
Proof.
  induction a as [|x a IH]; intros [|y b]; cbn [cmpSegs]; auto.
  - destruct (negb (allZero (y :: b))); auto.
  - destruct (negb (allZero (x :: a))); auto.
  - destruct (x =? y); [apply IH|]. destruct (x <? y); auto.
Qed.

Lemma Compare_values (v o : Version) :
  Compare v o = -1 \/ Compare v o = 0 \/ Compare v o = 1.
Proof.
  unfold Compare, Segments, Prerelease.
  destruct (str_eqb (String v) (String o)); auto.
  destruct (segs_eqb (segments v) (segments o)).
  - destruct (is_empty (pre v) && is_empty (pre o)); auto.
    destruct (is_empty (pre v)); auto.
    destruct (is_empty (pre o)); auto.
    unfold comparePrereleases. destruct (str_eqb (pre v) (pre o)); auto.
    apply prereleaseLoop_values.
  - rewrite Compare_loop. apply cmpSegs_values.
Qed.

(* ================================================================== *)
(** ** The order on segments *)

Lemma nth_nil_0 (i : nat) : nth i (@nil Z) 0 = 0.
Proof. destruct i; reflexivity. Qed.

Lemma allZero_true_nth (b : list Z) :
  allZero b = true -> forall i, nth i b 0 = 0.
Proof.
  induction b as [|y b IH]; intros H i; [apply nth_nil_0|].
  cbn [allZero] in H. destruct (y =? 0) eqn:E; [|discriminate].
  apply Z.eqb_eq in E. subst y. destruct i as [|i]; [reflexivity|].
  apply IH. exact H.
Qed.

Lemma allZero_false_first (b : list Z) :
  allZero b = false -> nonneg b ->
  exists k, (forall i, (i < k)%nat -> nth i b 0 = 0) /\ 0 < nth k b 0.
Proof.
  induction b as [|y b IH]; intros H Hb; [discriminate|].
  apply Forall_cons_iff in Hb as [Hy Hb].
  cbn [allZero] in H. destruct (y =? 0) eqn:E.
  - apply Z.eqb_eq in E. subst y.
    destruct (IH H Hb) as (k & Hlt & Hk). exists (S k). split; [|exact Hk].
    intros [|i] Hi; [reflexivity|]. apply Hlt. lia.
  - apply Z.eqb_neq in E. exists 0%nat. split; [intros i Hi; lia|].
    cbn [nth]. lia.
Qed.

Lemma padEq_cons (x : Z) (a b : list Z) : padEq a b -> padEq (x :: a) (x :: b).
Proof. intros H [|i]; [reflexivity|apply H]. Qed.

Lemma padLt_cons (x : Z) (a b : list Z) : padLt a b -> padLt (x :: a) (x :: b).
Proof.
  intros (k & Hlt & Hk). exists (S k). split; [|exact Hk].
  intros [|i] Hi; [reflexivity|]. apply Hlt. lia.
Qed.

Lemma padLt_head (x y : Z) (a b : list Z) : x < y -> padLt (x :: a) (y :: b).
Proof. intros H. exists 0%nat. split; [intros i Hi; lia|exact H]. Qed.

(** On non-negative segments, [cmpSegs] is the three-way comparison of
    the zero-padded sequences. *)
Lemma cmpSegs_spec (a : list Z) :
  forall b, nonneg a -> nonneg b ->
  (cmpSegs a b = 0 /\ padEq a b) \/
  (cmpSegs a b = -1 /\ padLt a b) \/
  (cmpSegs a b = 1 /\ padLt b a).
Proof.
  induction a as [|x a IH]; intros [|y b] Ha Hb; cbn [cmpSegs].
  - left. split; [reflexivity|]. intros i. reflexivity.
  - destruct (allZero (y :: b)) eqn:E; cbn [negb].
    + left. split; [reflexivity|]. intros i.
      rewrite nth_nil_0, allZero_true_nth by exact E. reflexivity.
    + right. left. split; [reflexivity|].
      destruct (allZero_false_first _ E Hb) as (k & Hlt & Hk).
      exists k. split.
      * intros i Hi. rewrite nth_nil_0, Hlt by exact Hi. reflexivity.
      * rewrite nth_nil_0. exact Hk.
  - destruct (allZero (x :: a)) eqn:E; cbn [negb].
    + left. split; [reflexivity|]. intros i.
      rewrite nth_nil_0, allZero_true_nth by exact E. reflexivity.
    + right. right. split; [reflexivity|].
      destruct (allZero_false_first _ E Ha) as (k & Hlt & Hk).
      exists k. split.
      * intros i Hi. rewrite nth_nil_0, Hlt by exact Hi. reflexivity.
      * rewrite nth_nil_0. exact Hk.
  - apply Forall_cons_iff in Ha as [_ Ha]. apply Forall_cons_iff in Hb as [_ Hb].
    destruct (x =? y) eqn:E.
    + apply Z.eqb_eq in E. subst y.
      destruct (IH b Ha Hb) as [[H1 H2]|[[H1 H2]|[H1 H2]]].
      * left. split; [exact H1|apply padEq_cons; exact H2].
      * right. left. split; [exact H1|apply padLt_cons; exact H2].
      * right. right. split; [exact H1|apply padLt_cons; exact H2].
    + apply Z.eqb_neq in E. destruct (x <? y) eqn:L.
      * apply Z.ltb_lt in L. right. left. split; [reflexivity|].
        apply padLt_head. exact L.
      * apply Z.ltb_ge in L. right. right. split; [reflexivity|].
        apply padLt_head. lia.
Qed.

Lemma padEq_padLt_absurd (a b : list Z) : padEq a b -> padLt a b -> False.
Proof. intros He (k & _ & Hk). rewrite (He k) in Hk. lia. Qed.

Lemma padEq_sym (a b : list Z) : padEq a b -> padEq b a.
Proof. intros H i. symmetry. apply H. Qed.

Lemma padEq_trans (a b c : list Z) : padEq a b -> padEq b c -> padEq a c.
Proof. intros H1 H2 i. rewrite H1. apply H2. Qed.

Lemma padLt_asym (a b : list Z) : padLt a b -> padLt b a -> False.
Proof.
  intros (k1 & H1 & L1) (k2 & H2 & L2).
  destruct (Nat.lt_trichotomy k1 k2) as [H|[H|H]].
  - rewrite (H2 k1 H) in L1. lia.
  - subst k2. lia.
  - rewrite (H1 k2 H) in L2. lia.
Qed.

Lemma padLt_trans (a b c : list Z) : padLt a b -> padLt b c -> padLt a c.
Proof.
  intros (k1 & H1 & L1) (k2 & H2 & L2).
  destruct (Nat.lt_trichotomy k1 k2) as [H|[H|H]].
  - exists k1. split.
    + intros i Hi. rewrite H1 by exact Hi. apply H2. lia.
    + rewrite <- (H2 k1 H). exact L1.
  - subst k2. exists k1. split.
    + intros i Hi. rewrite H1 by exact Hi. apply H2. exact Hi.
    + lia.
  - exists k2. split.
    + intros i Hi. rewrite H1 by lia. apply H2. exact Hi.
    + rewrite (H1 k2 H). exact L2.
Qed.

Lemma padEq_padLt (a b c : list Z) : padEq a b -> padLt b c -> padLt a c.
Proof.
  intros He (k & Hlt & Hk). exists k. split.
  - intros i Hi. rewrite He. apply Hlt. exact Hi.
  - rewrite He. exact Hk.
Qed.

Lemma padLt_padEq (a b c : list Z) : padLt a b -> padEq b c -> padLt a c.
Proof.
  intros (k & Hlt & Hk) He. exists k. split.
  - intros i Hi. rewrite <- He. apply Hlt. exact Hi.
  - rewrite <- He. exact Hk.
Qed.

Lemma cmpSegs_padEq (a b : list Z) :
  nonneg a -> nonneg b -> padEq a b -> cmpSegs a b = 0.
Proof.
  intros Ha Hb He.
  destruct (cmpSegs_spec a b Ha Hb) as [[H1 H2]|[[H1 H2]|[H1 H2]]].
  - exact H1.
  - exfalso. eapply padEq_padLt_absurd; eassumption.
  - exfalso. eapply padEq_padLt_absurd; [apply padEq_sym|]; eassumption.
Qed.

Lemma cmpSegs_padLt (a b : list Z) :
  nonneg a -> nonneg b -> padLt a b -> cmpSegs a b = -1.
Proof.
  intros Ha Hb Hl.
  destruct (cmpSegs_spec a b Ha Hb) as [[H1 H2]|[[H1 H2]|[H1 H2]]].
  - exfalso. eapply padEq_padLt_absurd; eassumption.
  - exact H1.
  - exfalso. eapply padLt_asym; eassumption.
Qed.

Lemma cmpSegs_padGt (a b : list Z) :
  nonneg a -> nonneg b -> padLt b a -> cmpSegs a b = 1.
Proof.
  intros Ha Hb Hl. rewrite cmpSegs_antisym, (cmpSegs_padLt b a) by assumption.
  reflexivity.
Qed.

(** Equal segment sequences compare alike against any third one. *)
Lemma cmpSegs_eq_congr (a b c : list Z) :
  nonneg a -> nonneg b -> nonneg c ->
  cmpSegs a b = 0 -> cmpSegs a c = cmpSegs b c.
Proof.
  intros Ha Hb Hc H.
  assert (He : padEq a b).
  { destruct (cmpSegs_spec a b Ha Hb) as [[H1 H2]|[[H1 H2]|[H1 H2]]];
      [exact H2|lia|lia]. }
  destruct (cmpSegs_spec b c Hb Hc) as [[H1 H2]|[[H1 H2]|[H1 H2]]]; rewrite H1.
  - apply cmpSegs_padEq; try assumption. eapply padEq_trans; eassumption.
  - apply cmpSegs_padLt; try assumption. eapply padEq_padLt; eassumption.
  - apply cmpSegs_padGt; try assumption.
    eapply padLt_padEq; [eassumption|apply padEq_sym; exact He].
Qed.

Lemma cmpSegs_lt_trans (a b c : list Z) :
  nonneg a -> nonneg b -> nonneg c ->
  cmpSegs a b = -1 -> cmpSegs b c = -1 -> cmpSegs a c = -1.
Proof.
  intros Ha Hb Hc H1 H2.
  assert (L1 : padLt a b).
  { destruct (cmpSegs_spec a b Ha Hb) as [[E _]|[[_ L]|[E _]]]; [lia|exact L|lia]. }
  assert (L2 : padLt b c).
  { destruct (cmpSegs_spec b c Hb Hc) as [[E _]|[[_ L]|[E _]]]; [lia|exact L|lia]. }
  apply cmpSegs_padLt; try assumption. eapply padLt_trans; eassumption.
Qed.

(* ================================================================== *)
(** ** Releases: the printed string determines the segments *)

Lemma Itoa_inj (a b : Z) : 0 <= a -> 0 <= b -> Itoa a = Itoa b -> a = b.
Proof.
  intros Ha Hb E.
  destruct (Itoa_digits a Ha) as [_ Pa]. destruct (Itoa_digits b Hb) as [_ Pb].
  rewrite E in Pa. congruence.
Qed.

Lemma map_Itoa_inj (a : list Z) :
  forall b, nonneg a -> nonneg b -> map Itoa a = map Itoa b -> a = b.
Proof.
  induction a as [|x a IH]; intros [|y b] Ha Hb E; try discriminate; [reflexivity|].
  apply Forall_cons_iff in Ha as [Hx Ha]. apply Forall_cons_iff in Hb as [Hy Hb].
  cbn [map] in E. injection E as E1 E2.
  f_equal; [apply Itoa_inj; assumption|apply IH; assumption].
Qed.

Lemma nonneg_tokens (a : list Z) :
  nonneg a -> Forall (token isDigit) (map Itoa a).
Proof.
  intros H. apply Forall_map. eapply Forall_impl; [|exact H].
  intros x Hx. apply Itoa_digits. exact Hx.
Qed.

Lemma Split_Join_Itoa (a : list Z) :
  nonneg a -> a <> [] ->
  Split (Join (map Itoa a) "."%char) "."%char = map Itoa a.
Proof.
  intros Ha Hne. destruct a as [|x a]; [contradiction|].
  apply nonneg_tokens in Ha. cbn [map] in *.
  apply Forall_cons_iff in Ha as [Hx Ha].
  rewrite Join_dotted. apply Split_dotted; assumption.
Qed.

Lemma Join_Itoa_nonempty (x : Z) (a : list Z) :
  0 <= x -> Join (map Itoa (x :: a)) "."%char <> [].
Proof.
  intros Hx. cbn [map]. rewrite Join_dotted.
  destruct (Itoa_digits x Hx) as [[Hne _] _].
  destruct (Itoa x); [contradiction|discriminate].
Qed.

Lemma Join_Itoa_inj (a b : list Z) :
  nonneg a -> nonneg b ->
  Join (map Itoa a) "."%char = Join (map Itoa b) "."%char -> a = b.
Proof.
  intros Ha Hb E. destruct a as [|x a], b as [|y b].
  - reflexivity.
  - exfalso. apply Forall_cons_iff in Hb as [Hy _].
    apply (Join_Itoa_nonempty y b Hy). symmetry. exact E.
  - exfalso. apply Forall_cons_iff in Ha as [Hx _].
    apply (Join_Itoa_nonempty x a Hx). exact E.
  - apply map_Itoa_inj; try assumption.
    rewrite <- (Split_Join_Itoa (x :: a)), <- (Split_Join_Itoa (y :: b))
      by (assumption || discriminate).
    rewrite E. reflexivity.
Qed.

(** The bytes that [String] prints for the segments. *)
Lemma Join_Itoa_bytes (a : list Z) :
  nonneg a ->
  forallb (fun c => isDigit c || Ascii.eqb c "."%char) (Join (map Itoa a) "."%char) = true.
Proof.
  intros Ha. destruct a as [|x a]; [reflexivity|].
  apply nonneg_tokens in Ha. cbn [map] in *.
  apply Forall_cons_iff in Ha as [[_ Hx] Ha].
  rewrite Join_dotted, forallb_app. apply andb_true_iff. split.
  - eapply forallb_forall. intros c Hc.
    rewrite (proj1 (forallb_forall _ _) Hx c Hc). reflexivity.
  - clear Hx. induction Ha as [|t toks [_ Ht] Htoks IH]; [reflexivity|].
    rewrite dotted_cons. cbn [forallb]. rewrite forallb_app, IH.
    replace (forallb (fun c => isDigit c || Ascii.eqb c "."%char) t) with true;
      [reflexivity|].
    symmetry. eapply forallb_forall. intros c Hc.
    rewrite (proj1 (forallb_forall _ _) Ht c Hc). reflexivity.
Qed.

(** Two texts made of bytes of [q], each followed by a text that does not
    go on with a byte of [q], are equal when the whole texts are. *)
Lemma app_stop_inj (q : ascii -> bool) (u : str) :
  forall u' r r',
    forallb q u = true -> forallb q u' = true ->
    stopsAt q r -> stopsAt q r' ->
    u ++ r = u' ++ r' -> u = u'.
Proof.
  induction u as [|x u IH]; intros [|y u'] r r' Hu Hu' Hr Hr' E.
  - reflexivity.
  - exfalso. simpl in E. subst r. simpl in Hr, Hu'.
    apply andb_true_iff in Hu' as [Hy _]. congruence.
  - exfalso. simpl in E. subst r'. simpl in Hr', Hu.
    apply andb_true_iff in Hu as [Hx _]. congruence.
  - simpl in Hu, Hu', E. apply andb_true_iff in Hu as [_ Hu].
    apply andb_true_iff in Hu' as [_ Hu']. injection E as -> E.
    f_equal. apply (IH u' r r'); assumption.
Qed.

Lemma String_release_inj (v o : Version) :
  pre v = [] -> pre o = [] ->
  nonneg (segments v) -> nonneg (segments o) ->
  String v = String o -> segments v = segments o.
Proof.
  intros Pv Po Hv Ho E. rewrite !String_printed, Pv, Po in E.
  unfold printedSuffix in E. change (printedPre []) with (@nil ascii) in E.
  cbn [app] in E. apply Join_Itoa_inj; try assumption.
  eapply (app_stop_inj (fun c => isDigit c || Ascii.eqb c "."%char));
    [apply Join_Itoa_bytes; assumption|apply Join_Itoa_bytes; assumption| | |exact E].
  - destruct (metadata v); reflexivity.
  - destruct (metadata o); reflexivity.
Qed.

(** Without prereleases, [Compare] is the comparison of the segments. *)
Lemma Compare_release (v o : Version) :
  pre v = [] -> pre o = [] ->
  nonneg (segments v) -> nonneg (segments o) ->
  Compare v o = cmpSegs (segments v) (segments o).
Proof.
  intros Pv Po Hv Ho. unfold Compare, Segments, Prerelease.
  destruct (str_eqb (String v) (String o)) eqn:E.
  - apply str_eqb_eq in E. apply String_release_inj in E; try assumption.
    rewrite E, cmpSegs_same. reflexivity.
  - destruct (segs_eqb (segments v) (segments o)) eqn:S.
    + apply segs_eqb_eq in S. rewrite Pv, Po, S, cmpSegs_same. reflexivity.
    + apply Compare_loop.
Qed.

Lemma NewVersion_nonneg (s : str) (v : Version) :
  NewVersion s = Ok v -> nonneg (segments v).
Proof.
  intros H. apply NewVersion_fields in H as (_ & Hr & _).
  eapply Forall_impl; [|exact Hr]. intros x [Hx _]. exact Hx.
Qed.

(* ================================================================== *)
(** ** The order of [Compare] *)

(** C1 (counterexample): three parsed versions on which [Compare] goes
    round in a circle: 1.0.0-alpha is less than 1.0.0-alpha.5, which is
    less than 1.0.0-alpha.a, which is less than 1.0.0-alpha. *)
Lemma prerelease_order_cycle :
  exists a b c,
    NewVersion (lit "1.0.0-alpha") = Ok a /\
    NewVersion (lit "1.0.0-alpha.5") = Ok b /\
    NewVersion (lit "1.0.0-alpha.a") = Ok c /\
    Compare a b = -1 /\ Compare b c = -1 /\ Compare c a = -1 /\
    Compare a c = 1.
Proof.
  do 3 eexists. repeat split; (vm_compute; reflexivity).
Qed.

Lemma cmpSegs_trailing_zeros (a : list Z) (k : nat) :
  cmpSegs a (a ++ repeat 0 k) = 0.
Proof.
  induction a as [|x a IH].
  - cbn [app cmpSegs].
    replace (allZero (repeat 0 k)) with true; [reflexivity|].
    induction k as [|k IHk]; [reflexivity|exact IHk].
  - cbn [app cmpSegs]. rewrite Z.eqb_refl. exact IH.
Qed.

(** C2 (what the code does): when the segments of one version are those
    of the other followed by zeros, [Compare] returns 0 whatever the
    prereleases are: the loop is left by [break] and the function ends
    with its last [return 0].  So 1.0.0.0 and 1.0.0-beta compare as
    equal, although 1.0.0 is greater than 1.0.0-beta. *)
Theorem trailing_zeros_skip_prerelease :
  (forall (v o : Version) (k : nat),
     Segments o = Segments v ++ repeat 0 (S k) ->
     Compare v o = 0 /\ Compare o v = 0) /\
  (exists a a' b,
     NewVersion (lit "1.0.0.0") = Ok a /\
     NewVersion (lit "1.0.0") = Ok a' /\
     NewVersion (lit "1.0.0-beta") = Ok b /\
     Segments a = [1; 0; 0; 0] /\ Segments b = [1; 0; 0] /\
     Prerelease a = [] /\ Prerelease b = lit "beta" /\
     Compare a b = 0 /\ Compare b a = 0 /\
     Compare a' b = 1 /\ Compare a a' = 0).
Proof.
  split.
  - intros v o k Hs.
    assert (C : Compare v o = 0).
    { unfold Compare. destruct (str_eqb (String v) (String o)); [reflexivity|].
      rewrite Hs.
      destruct (segs_eqb (Segments v) (Segments v ++ repeat 0 (S k))) eqn:E.
      - apply segs_eqb_eq in E. apply (f_equal (@length Z)) in E.
        rewrite length_app, repeat_length in E. lia.
      - rewrite Compare_loop. apply cmpSegs_trailing_zeros. }
    split; [exact C|]. rewrite Compare_antisym, C. reflexivity.
  - do 3 eexists. repeat split; (vm_compute; reflexivity).
Qed.

Lemma trailing_zeros_skip_prerelease_witness :
  Compare (mkVersion [] (lit "beta") [1; 0; 0] 3) (mkVersion [] [] [1; 0; 0; 0] 4) = 0 /\
  Compare (mkVersion [] [] [1; 0; 0; 0] 4) (mkVersion [] (lit "beta") [1; 0; 0] 3) = 0.
Proof.
  destruct trailing_zeros_skip_prerelease as (H & _).
  apply (H (mkVersion [] (lit "beta") [1; 0; 0] 3) (mkVersion [] [] [1; 0; 0; 0] 4) 0%nat).
  reflexivity.
Defined.


(* ================================================================== *)
(** ** Further properties: the errors of [NewVersion] *)

Lemma parseSegments_inl (toks : list str) (e : error) :
  parseSegments toks = inl e ->
  exists x, In x toks /\ e = ErrorParsingVersion x /\ ParseInt x 32 = None.
Proof.
  induction toks as [|t toks IH]; intros H; simpl in H; [discriminate|].
  destruct (ParseInt t 32) as [v|] eqn:E.
  - destruct (parseSegments toks) as [e'|vals]; [|discriminate].
    injection H as <-. destruct (IH eq_refl) as (x & Hin & He & Hx).
    exists x. split; [right; exact Hin|]. auto.
  - injection H as <-. exists t. split; [left; reflexivity|]. auto.
Qed.

Lemma parseDigits_total (s : str) :
  forallb isDigit s = true -> forall a, exists v, parseDigits a s = Some v.
Proof.
  induction s as [|c s IH]; intros H a; simpl.
  - eauto.
  - simpl in H. apply andb_true_iff in H as [Hc Hs]. rewrite Hc. apply IH. exact Hs.
Qed.

(** A run of digits that [ParseInt] refuses at 32 bits is a number that
    does not fit. *)
Lemma ParseInt_digits_None (t : str) :
  token isDigit t -> ParseInt t 32 = None ->
  exists n, parseDigits 0 t = Some n /\ 2 ^ 31 <= n.
Proof.
  intros [Hne Hd] H. destruct t as [|x t]; [contradiction|].
  pose proof Hd as Hd'. simpl in Hd'. apply andb_true_iff in Hd' as [Hx _].
  destruct (isDigit_not_sign x Hx) as [Hm Hp].
  destruct (parseDigits_total (x :: t) Hd 0) as (un & E).
  unfold ParseInt in H. rewrite Hm, Hp in H. unfold ParseUint in H.
  rewrite E in H. change (2 ^ (32 - 1)) with 2147483648 in H.
  cbn [negb andb] in H.
  destruct (un >=? 2147483648) eqn:G; [|discriminate].
  exists un. split; [exact E|].
  rewrite Z.geb_leb in G. apply Z.leb_le in G. exact G.
Qed.

Lemma dotted_In_split (x : str) (toks : list str) :
  In x toks -> exists before after, dotted toks = before ++ x ++ after.
Proof.
  induction toks as [|t toks IH]; intros H; [contradiction|].
  rewrite dotted_cons. destruct H as [->|H].
  - exists ["."%char], (dotted toks). reflexivity.
  - destruct (IH H) as (b & a & E). exists ("."%char :: t ++ b), a.
    rewrite E. cbn [app]. rewrite <- app_assoc. reflexivity.
Qed.

(** X1: [NewVersion] returns the malformed-version error exactly on the
    inputs outside the grammar of the pattern, and the error carries the
    input unchanged. *)
Theorem malformed_iff_outside_grammar (s s' : str) :
  NewVersion s = Err (MalformedVersion s') <->
  s' = s /\ ~ (exists segs pre meta, versionSyntax s segs pre meta).
Proof.
  unfold NewVersion. split.
  - destruct (FindStringSubmatch versionRegexp s) as [matches|] eqn:E.
    + destruct (parseSegments (Split (matches 1%nat) "."%char)) as [e|segs] eqn:P;
        [|discriminate].
      apply parseSegments_inl in P as (x & _ & -> & _). discriminate.
    + intros H. injection H as <-. split; [reflexivity|].
      intros (segs & pre & meta & Hsyn).
      apply versionSyntax_matched in Hsyn as (c' & Hin).
      unfold FindStringSubmatch in E.
      destruct (run versionRegexp s noCaps) as [|[[m r] c] l];
        [contradiction|discriminate].
  - intros [-> Hout].
    destruct (FindStringSubmatch versionRegexp s) as [matches|] eqn:E;
      [|reflexivity].
    exfalso. apply Hout. apply FindStringSubmatch_versionRegexp in E as [_ E].
    eauto.
Qed.

Lemma malformed_iff_outside_grammar_witness :
  ~ (exists segs pre meta, versionSyntax (lit "1.2.beta") segs pre meta).
Proof.
  apply (proj1 (malformed_iff_outside_grammar (lit "1.2.beta") (lit "1.2.beta"))).
  vm_compute. reflexivity.
Defined.

(** X2: the other error of [NewVersion] only reports a number that does
    not fit in 32 bits: the segment it carries is a run of digits of the
    input whose value is at least 2^31. *)
Theorem segment_error_is_overflow (s tok : str) :
  NewVersion s = Err (ErrorParsingVersion tok) ->
  token isDigit tok /\
  (exists n, parseDigits 0 tok = Some n /\ 2 ^ 31 <= n) /\
  exists before after, s = before ++ tok ++ after.
Proof.
  unfold NewVersion. intros H.
  destruct (FindStringSubmatch versionRegexp s) as [matches|] eqn:E; [|discriminate].
  destruct (parseSegments (Split (matches 1%nat) "."%char)) as [e|segs] eqn:P;
    [|discriminate].
  injection H as ->.
  apply FindStringSubmatch_versionRegexp in E
    as (_ & lead & pw & mw & _ & (t & toks & Ht & Htoks & E1) & _ & _ & Hs).
  rewrite E1, Split_dotted in P by assumption.
  apply parseSegments_inl in P as (x & Hin & He & Hx). injection He as ->.
  assert (Htok : token isDigit x).
  { destruct Hin as [<-|Hin]; [exact Ht|].
    eapply (proj1 (Forall_forall _ _)); eassumption. }
  split; [exact Htok|]. split; [apply ParseInt_digits_None; assumption|].
  rewrite Hs, E1. destruct Hin as [<-|Hin].
  - exists lead, (dotted toks ++ pw ++ mw). rewrite <- !app_assoc. reflexivity.
  - destruct (dotted_In_split x toks Hin) as (b & a & Eb).
    exists (lead ++ t ++ b), (a ++ pw ++ mw). rewrite Eb, <- !app_assoc. reflexivity.
Qed.

Lemma segment_error_is_overflow_witness :
  token isDigit (lit "4294967296") /\
  (exists n, parseDigits 0 (lit "4294967296") = Some n /\ 2 ^ 31 <= n) /\
  exists before after, lit "v1.4294967296-rc" = before ++ lit "4294967296" ++ after.
Proof.
  apply (segment_error_is_overflow (lit "v1.4294967296-rc") (lit "4294967296")).
  vm_compute. reflexivity.
Defined.

(* ================================================================== *)
(** ** Further properties: what a parsed version holds *)

Lemma padSegments_nth_beyond (segs : list Z) (i : nat) :
  (length segs <= i)%nat -> nth i (padSegments segs) 0 = 0.
Proof.
  intros H. unfold padSegments. rewrite app_nth2 by exact H.
  destruct (Nat.lt_ge_cases (i - length segs) (3 - length segs)) as [L|G].
  - apply nth_repeat_lt. exact L.
  - apply nth_overflow. rewrite repeat_length. exact G.
Qed.

Lemma dottedTokens_bytes (p : ascii -> bool) (m : str) :
  dottedTokens p m ->
  Forall (fun c => p c = true \/ c = "."%char) m.
Proof.
  intros (t & toks & [_ Ht] & Htoks & ->). apply Forall_app. split.
  - apply Forall_forall. intros c Hc. left.
    exact (proj1 (forallb_forall _ _) Ht c Hc).
  - induction Htoks as [|u toks [_ Hu] Htoks IH]; [constructor|].
    rewrite dotted_cons. constructor; [right; reflexivity|].
    apply Forall_app. split; [|exact IH].
    apply Forall_forall. intros c Hc. left.
    exact (proj1 (forallb_forall _ _) Hu c Hc).
Qed.

(** X4: the prerelease of a parsed version is empty or made of non-empty
    tokens of letters, digits and hyphens separated by single dots, and
    so is its metadata; no other byte, in particular no plus sign, occurs
    in either. *)
Theorem parsed_text_invariant (s : str) (v : Version) :
  NewVersion s = Ok v ->
  (Prerelease v = [] \/ dottedTokens isIdent (Prerelease v)) /\
  (Metadata v = [] \/ dottedTokens isIdent (Metadata v)) /\
  Forall (fun c => isIdent c = true \/ c = "."%char) (Prerelease v) /\
  Forall (fun c => isIdent c = true \/ c = "."%char) (Metadata v) /\
  ~ In "+"%char (Prerelease v) /\ ~ In "+"%char (Metadata v).
Proof.
  intros H. apply NewVersion_fields in H as (_ & _ & Hpre & Hmeta).
  unfold Prerelease, Metadata.
  assert (B : forall m, m = [] \/ dottedTokens isIdent m ->
                        Forall (fun c => isIdent c = true \/ c = "."%char) m).
  { intros m [->|Hm]; [constructor|apply dottedTokens_bytes; exact Hm]. }
  assert (N : forall m, Forall (fun c => isIdent c = true \/ c = "."%char) m ->
                        ~ In "+"%char m).
  { intros m Hm Hin. apply (proj1 (Forall_forall _ _) Hm) in Hin.
    destruct Hin as [Hin|Hin]; discriminate. }
  repeat split; auto.
Qed.

Lemma parsed_text_invariant_witness :
  ~ In "+"%char (lit "rc.1") /\ ~ In "+"%char (lit "b-7.x").
Proof.
  destruct (parsed_text_invariant (lit "1.2rc.1+b-7.x")
              {| metadata := lit "b-7.x"; pre := lit "rc.1";
                 segments := [1; 2; 0]; si := 2 |})
    as (_ & _ & _ & _ & H1 & H2); [vm_compute; reflexivity|].
  split; assumption.
Defined.

(* ================================================================== *)
(** ** Further properties: what [NewVersion] reads *)

(** With or without a leading v, the pattern goes on in the same way. *)
Lemma run_versionRegexp_after_v (s : str) (c : caps) :
  run versionRegexp ("v"%char :: s) c =
  map (prepend ["v"%char]) (run (Cat reSegments reSuffix) s c).
Proof.
  unfold versionRegexp. rewrite run_Cat_eq.
  change (run (Opt (Chr "v"%char)) ("v"%char :: s) c)
    with [(["v"%char], s, c); ([], "v"%char :: s, c)].
  cbn [flat_map].
  change (run (Cat reSegments reSuffix) ("v"%char :: s) c) with (@nil outcome).
  cbn [map]. rewrite !app_nil_r. reflexivity.
Qed.

Lemma run_versionRegexp_without_v (s : str) (c : caps) :
  stopsAt (Ascii.eqb "v"%char) s ->
  run versionRegexp s c = map (prepend []) (run (Cat reSegments reSuffix) s c).
Proof.
  intros H. unfold versionRegexp. rewrite run_Cat_eq.
  assert (E : run (Opt (Chr "v"%char)) s c = [([], s, c)]).
  { destruct s as [|x s]; [reflexivity|].
    change (Ascii.eqb "v"%char x = false) in H.
    unfold Opt. rewrite run_Alt_eq.
    change (run (Chr "v"%char) (x :: s) c)
      with (if Ascii.eqb "v"%char x then [([x], s, c)] else []).
    rewrite H. reflexivity. }
  rewrite E. cbn [flat_map]. apply app_nil_r.
Qed.

(** X5: a leading v is ignored.  On an input that does not itself start
    with v, putting a v in front gives the same version, or the same
    segment error; a malformed input stays malformed, the error carrying
    the longer input. *)
Theorem leading_v_ignored (s : str) :
  stopsAt (Ascii.eqb "v"%char) s ->
  NewVersion ("v"%char :: s) =
  match NewVersion s with
  | Err (MalformedVersion _) => Err (MalformedVersion ("v"%char :: s))
  | r => r
  end.
Proof.
  intros H. unfold NewVersion, FindStringSubmatch.
  rewrite (run_versionRegexp_after_v s noCaps),
          (run_versionRegexp_without_v s noCaps H).
  destruct (run (Cat reSegments reSuffix) s noCaps) as [|[[m r] c] l];
    [reflexivity|].
  cbn [map prepend app]. unfold setCap. cbn [Nat.eqb]. cbv zeta.
  destruct (parseSegments (Split (c 1%nat) "."%char)) as [e|segs] eqn:P;
    [|reflexivity].
  apply parseSegments_inl in P as (x & _ & -> & _). reflexivity.
Qed.

Lemma leading_v_ignored_witness :
  NewVersion (lit "v1.2-rc+7") =
  Ok {| metadata := lit "7"; pre := lit "rc"; segments := [1; 2; 0]; si := 2 |}.
Proof.
  change (lit "v1.2-rc+7") with ("v"%char :: lit "1.2-rc+7").
  rewrite (leading_v_ignored (lit "1.2-rc+7")); reflexivity.
Defined.

(** X7: an input written in the standard way -- numbers separated by
    dots, then a dash and the prerelease if there is one, then a plus sign
    and the metadata if there is one -- is read as exactly these parts:
    the result holds the padded values of the numbers, this prerelease and
    this metadata, or the error of the first number that does not fit. *)
Theorem standard_form_parsed (toks : list str) (pre' meta : str) :
  toks <> [] -> Forall (token isDigit) toks ->
  pre' = [] \/ dottedTokens isIdent pre' ->
  meta = [] \/ dottedTokens isIdent meta ->
  NewVersion (Join toks "."%char ++ printedPre pre' ++ printedMeta meta) =
  match parseSegments toks with
  | inl e => Err e
  | inr segs =>
      Ok {| metadata := meta; pre := pre'; segments := padSegments segs;
            si := Z.of_nat (length toks) |}
  end.
Proof.
  intros Hne Htoks Hpre Hmeta. destruct toks as [|t toks]; [contradiction|].
  apply Forall_cons_iff in Htoks as [Ht Htoks].
  rewrite Join_dotted, <- app_assoc.
  destruct (run_versionRegexp_printed t toks pre' meta Ht Htoks Hpre Hmeta)
    as (c' & l & Hrun & H1 & H4 & H7).
  unfold printedSuffix in Hrun.
  unfold NewVersion, FindStringSubmatch. rewrite Hrun.
  change (setCap 0 (t ++ dotted toks ++ printedPre pre' ++ printedMeta meta) c' 1%nat)
    with (c' 1%nat).
  change (setCap 0 (t ++ dotted toks ++ printedPre pre' ++ printedMeta meta) c' 4%nat)
    with (c' 4%nat).
  change (setCap 0 (t ++ dotted toks ++ printedPre pre' ++ printedMeta meta) c' 7%nat)
    with (c' 7%nat).
  cbv zeta. rewrite H1, H4, H7, Split_dotted by assumption. reflexivity.
Qed.

Lemma standard_form_parsed_witness :
  NewVersion (Join [lit "01"; lit "2"] "."%char ++ printedPre (lit "rc.1")
              ++ printedMeta (lit "b7")) =
  match parseSegments [lit "01"; lit "2"] with
  | inl e => Err e
  | inr segs =>
      Ok {| metadata := lit "b7"; pre := lit "rc.1"; segments := padSegments segs;
            si := Z.of_nat (length [lit "01"; lit "2"]) |}
  end.
Proof.
  apply standard_form_parsed.
  - discriminate.
  - repeat constructor; discriminate.
  - right. exists (lit "rc"), [lit "1"]. repeat split; try discriminate.
    repeat constructor; discriminate.
  - right. exists (lit "b7"), []. repeat split; try discriminate. constructor.
Defined.

(* ================================================================== *)
(** ** Further properties: the printed form *)

(** X6: on parsed versions [String] is a canonical form: two parsed
    versions print alike exactly when they have the same segments, the
    same prerelease and the same metadata. *)
Theorem String_canonical (sa sb : str) (a b : Version) :
  NewVersion sa = Ok a -> NewVersion sb = Ok b ->
  (String a = String b <->
   Segments a = Segments b /\ Prerelease a = Prerelease b /\
   Metadata a = Metadata b).
Proof.
  intros Ha Hb. unfold Segments, Prerelease, Metadata. split.
  - intros E.
    apply NewVersion_fields in Ha as (La & Ra & Pa & Ma).
    apply NewVersion_fields in Hb as (Lb & Rb & Pb & Mb).
    pose proof (NewVersion_String a La Ra Pa Ma) as Na.
    pose proof (NewVersion_String b Lb Rb Pb Mb) as Nb.
    rewrite E, Nb in Na. injection Na as E1 E2 E3 _. auto.
  - intros (E1 & E2 & E3). unfold String. rewrite E1, E2, E3. reflexivity.
Qed.

Lemma String_canonical_witness :
  String {| metadata := []; pre := lit "rc"; segments := [1; 2; 0]; si := 2 |} =
  String {| metadata := []; pre := lit "rc"; segments := [1; 2; 0]; si := 3 |}.
Proof.
  apply (proj2 (String_canonical (lit "v1.2rc") (lit "1.2.0-rc") _ _
                  ltac:(vm_compute; reflexivity) ltac:(vm_compute; reflexivity))).
  repeat split.
Defined.

(** X13: parsing what [String] prints reaches a fixed point at once: the
    version read back differs from the first one at most in [si], which
    becomes the number of segments, it prints as the first one does, and
    parsing its own print gives it back unchanged. *)
Theorem reparse_fixed_point (s : str) (v : Version) :
  NewVersion s = Ok v ->
  exists v',
    v' = {| metadata := metadata v; pre := pre v; segments := segments v;
            si := Z.of_nat (length (segments v)) |} /\
    NewVersion (String v) = Ok v' /\
    String v' = String v /\
    NewVersion (String v') = Ok v'.
Proof.
  intros H. apply NewVersion_fields in H as (Hlen & Hr & Hpre & Hmeta).
  eexists. split; [reflexivity|].
  split; [apply NewVersion_String; assumption|]. split; [reflexivity|].
  apply (NewVersion_String
           {| metadata := metadata v; pre := pre v; segments := segments v;
              si := Z.of_nat (length (segments v)) |}); assumption.
Qed.

Lemma reparse_fixed_point_witness :
  exists v',
    v' = {| metadata := lit "m"; pre := []; segments := [3; 0; 0]; si := 3 |} /\
    NewVersion (String {| metadata := lit "m"; pre := []; segments := [3; 0; 0];
                          si := 1 |}) = Ok v' /\
    String v' = String {| metadata := lit "m"; pre := []; segments := [3; 0; 0];
                          si := 1 |} /\
    NewVersion (String v') = Ok v'.
Proof.
  apply (reparse_fixed_point (lit "v3+m")
           {| metadata := lit "m"; pre := []; segments := [3; 0; 0]; si := 1 |}).
  vm_compute. reflexivity.
Defined.

(* ================================================================== *)
(** ** Further properties: the prerelease loop *)

Lemma comparePart_zero (a b : str) : comparePart a b = 0 -> a = b.
Proof.
  unfold comparePart. destruct (str_eqb a b) eqn:E.
  - intros _. apply str_eqb_eq. exact E.
  - destruct (is_empty a); [destruct (ParseInt b 64); discriminate|].
    destruct (is_empty b); [destruct (ParseInt a 64); discriminate|].
    destruct (str_gtb a b); discriminate.
Qed.

(** The loop returns at the first index where the tokens differ. *)
Lemma prereleaseLoop_first_difference (n : nat) :
  forall (i k : nat) (a b : list str),
    (i <= k)%nat -> (k < i + n)%nat ->
    (forall j, (i <= j)%nat -> (j < k)%nat -> nth j a [] = nth j b []) ->
    nth k a [] <> nth k b [] ->
    prereleaseLoop n i a b = comparePart (nth k a []) (nth k b []).
Proof.
  induction n as [|n IH]; intros i k a b Hik Hk Hsame Hdiff; [lia|].
  cbn [prereleaseLoop].
  destruct (Nat.eq_dec i k) as [->|Hne].
  - destruct (comparePart (nth k a []) (nth k b []) =? 0) eqn:E; [|reflexivity].
    apply Z.eqb_eq in E. apply comparePart_zero in E. contradiction.
  - rewrite (Hsame i) by lia. rewrite comparePart_same. cbn [Z.eqb negb].
    apply IH; try lia; try assumption.
    intros j H1 H2. apply Hsame; lia.
Qed.

(** A loop that returns 0 saw equal tokens at every index. *)
Lemma prereleaseLoop_zero (n : nat) :
  forall (i : nat) (a b : list str),
    prereleaseLoop n i a b = 0 ->
    forall j, (i <= j)%nat -> (j < i + n)%nat -> nth j a [] = nth j b [].
Proof.
  induction n as [|n IH]; intros i a b H j H1 H2; [lia|].
  cbn [prereleaseLoop] in H.
  destruct (comparePart (nth i a []) (nth i b []) =? 0) eqn:E; cbn [negb] in H.
  - apply Z.eqb_eq in E. apply comparePart_zero in E.
    destruct (Nat.eq_dec i j) as [<-|Hne]; [exact E|].
    apply (IH (S i) a b H); lia.
  - apply Z.eqb_neq in E. contradiction.
Qed.

(** X8: [comparePrereleases] is decided at the first position where the
    dot-separated tokens of the two strings differ (a missing token
    counting as empty): its result is that of [comparePart] on the two
    tokens there. *)
Theorem first_differing_token_decides (v other : str) (k : nat) :
  (forall j, (j < k)%nat ->
             nth j (Split v "."%char) [] = nth j (Split other "."%char) []) ->
  nth k (Split v "."%char) [] <> nth k (Split other "."%char) [] ->
  comparePrereleases v other =
  comparePart (nth k (Split v "."%char) []) (nth k (Split other "."%char) []).
Proof.
  intros Hsame Hdiff. unfold comparePrereleases.
  destruct (str_eqb v other) eqn:E.
  - apply str_eqb_eq in E. subst other. contradiction.
  - cbv zeta. apply prereleaseLoop_first_difference.
    + lia.
    + destruct (Nat.lt_ge_cases k (length (Split v "."%char))) as [L|G1];
        [destruct (_ <? _)%nat eqn:B;
         [apply Nat.ltb_lt in B|apply Nat.ltb_ge in B]; lia|].
      destruct (Nat.lt_ge_cases k (length (Split other "."%char))) as [L|G2];
        [destruct (_ <? _)%nat eqn:B;
         [apply Nat.ltb_lt in B|apply Nat.ltb_ge in B]; lia|].
      exfalso. apply Hdiff. rewrite !nth_overflow by assumption. reflexivity.
    + intros j _ Hj. apply Hsame. exact Hj.
    + exact Hdiff.
Qed.

Lemma first_differing_token_decides_witness :
  comparePrereleases (lit "rc.1.x") (lit "rc.2") =
  comparePart (lit "1") (lit "2").
Proof.
  apply (first_differing_token_decides (lit "rc.1.x") (lit "rc.2") 1).
  - intros j Hj. assert (j = 0%nat) as -> by lia. reflexivity.
  - discriminate.
Defined.

Lemma Split_nonempty (s : str) (sep : ascii) : Split s sep <> [].
Proof.
  destruct s as [|c s]; [discriminate|]. cbn [Split].
  destruct (Ascii.eqb c sep); [discriminate|].
  destruct (Split s sep); discriminate.
Qed.

Lemma Join_Split (s : str) (sep : ascii) : Join (Split s sep) sep = s.
Proof.
  induction s as [|c s IH]; [reflexivity|]. cbn [Split].
  pose proof (Split_nonempty s sep) as Hne.
  destruct (Split s sep) as [|t ts]; [contradiction|].
  destruct (Ascii.eqb_spec c sep) as [->|Hc].
  - change (Join ([] :: t :: ts) sep) with (sep :: Join (t :: ts) sep).
    rewrite IH. reflexivity.
  - destruct ts as [|u ts].
    + cbn [Join] in *. rewrite IH. reflexivity.
    + change (Join ((c :: t) :: u :: ts) sep)
        with (c :: (t ++ sep :: Join (u :: ts) sep)).
      change (Join (t :: u :: ts) sep) with (t ++ sep :: Join (u :: ts) sep) in IH.
      rewrite IH. reflexivity.
Qed.

Lemma class_not_dot (p : ascii -> bool) (x : ascii) :
  p "."%char = false -> p x = true -> Ascii.eqb x "."%char = false.
Proof.
  intros Hdot Hx. destruct (Ascii.eqb_spec x "."%char) as [->|]; [congruence|reflexivity].
Qed.

Lemma Split_class_dotted (p : ascii -> bool) (t : str) (toks : list str) :
  p "."%char = false -> token p t -> Forall (token p) toks ->
  Split (t ++ dotted toks) "."%char = t :: toks.
Proof.
  intros Hdot Ht Htoks. revert t Ht.
  assert (One : forall u r, forallb p u = true ->
                  Split (u ++ "."%char :: r) "."%char = u :: Split r "."%char).
  { induction u as [|x u IH]; intros r Hu; [reflexivity|].
    simpl in Hu. apply andb_true_iff in Hu as [Hx Hu].
    cbn [Split app]. rewrite (class_not_dot p x Hdot Hx), (IH r Hu). reflexivity. }
  assert (Last : forall u, forallb p u = true -> Split u "."%char = [u]).
  { induction u as [|x u IH]; intros Hu; [reflexivity|].
    simpl in Hu. apply andb_true_iff in Hu as [Hx Hu].
    cbn [Split]. rewrite (class_not_dot p x Hdot Hx), (IH Hu). reflexivity. }
  induction Htoks as [|u toks Hu Htoks IH]; intros t [_ Ht].
  - change (dotted []) with (@nil ascii). rewrite app_nil_r. apply Last. exact Ht.
  - rewrite dotted_cons, One by exact Ht. rewrite (IH u Hu). reflexivity.
Qed.

(** The tokens of a well-formed prerelease are not empty. *)
Lemma dottedTokens_Split (p : ascii -> bool) (m : str) :
  p "."%char = false -> dottedTokens p m ->
  Forall (fun t => t <> []) (Split m "."%char).
Proof.
  intros Hdot (t & toks & Ht & Htoks & ->).
  rewrite (Split_class_dotted p t toks Hdot Ht Htoks).
  constructor; [exact (proj1 Ht)|].
  eapply Forall_impl; [|exact Htoks]. intros u [Hu _]. exact Hu.
Qed.

(** Two well-formed prereleases that compare as equal are the same
    string. *)
Lemma comparePrereleases_zero (p q : str) :
  dottedTokens isIdent p -> dottedTokens isIdent q ->
  comparePrereleases p q = 0 -> p = q.
Proof.
  intros Hp Hq H. unfold comparePrereleases in H.
  destruct (str_eqb p q) eqn:E; [apply str_eqb_eq; exact E|].
  cbv zeta in H.
  apply (dottedTokens_Split isIdent p eq_refl) in Hp.
  apply (dottedTokens_Split isIdent q eq_refl) in Hq.
  pose proof (prereleaseLoop_zero _ _ _ _ H) as Hnth.
  set (a := Split p "."%char) in *. set (b := Split q "."%char) in *.
  assert (Hmax : forall j, (j < Nat.max (length a) (length b))%nat ->
                           nth j a [] = nth j b []).
  { intros j Hj. apply Hnth; [lia|].
    destruct (length b <? length a)%nat eqn:B;
      [apply Nat.ltb_lt in B|apply Nat.ltb_ge in B]; lia. }
  assert (Hlen : length a = length b).
  { destruct (Nat.lt_trichotomy (length a) (length b)) as [L|[L|L]]; [|exact L|].
    - exfalso. pose proof (Hmax (length a) ltac:(lia)) as Hj.
      rewrite nth_overflow in Hj by lia.
      apply (proj1 (Forall_forall _ _) Hq (nth (length a) b [])).
      + apply nth_In. exact L.
      + symmetry. exact Hj.
    - exfalso. pose proof (Hmax (length b) ltac:(lia)) as Hj.
      rewrite (nth_overflow b) in Hj by lia.
      apply (proj1 (Forall_forall _ _) Hp (nth (length b) a [])).
      + apply nth_In. exact L.
      + exact Hj. }
  assert (Eab : a = b).
  { apply (nth_ext a b [] []); [exact Hlen|].
    intros j Hj. apply Hmax. lia. }
  rewrite <- (Join_Split p "."%char), <- (Join_Split q "."%char).
  fold a. fold b. rewrite Eab. reflexivity.
Qed.

(* ================================================================== *)
(** ** Further properties: [Compare] on parsed versions *)

Lemma String_parsed_inj (sa sb : str) (a b : Version) :
  NewVersion sa = Ok a -> NewVersion sb = Ok b -> String a = String b ->
  segments a = segments b /\ pre a = pre b.
Proof.
  intros Ha Hb E.
  apply NewVersion_fields in Ha as (La & Ra & Pa & Ma).
  apply NewVersion_fields in Hb as (Lb & Rb & Pb & Mb).
  pose proof (NewVersion_String a La Ra Pa Ma) as Na.
  pose proof (NewVersion_String b Lb Rb Pb Mb) as Nb.
  rewrite E, Nb in Na. injection Na as _ E2 E3 _. auto.
Qed.

(** On parsed versions the first test of [Compare] can be left out. *)
Lemma Compare_parsed (sa sb : str) (a b : Version) :
  NewVersion sa = Ok a -> NewVersion sb = Ok b ->
  Compare a b =
  if segs_eqb (segments a) (segments b) then
    if is_empty (pre a) && is_empty (pre b) then 0
    else if is_empty (pre a) then 1
    else if is_empty (pre b) then -1
    else comparePrereleases (pre a) (pre b)
  else cmpSegs (segments a) (segments b).
Proof.
  intros Ha Hb. unfold Compare, Segments, Prerelease.
  destruct (str_eqb (String a) (String b)) eqn:E.
  - apply str_eqb_eq in E.
    destruct (String_parsed_inj sa sb a b Ha Hb E) as [E1 E2].
    rewrite E1, E2, segs_eqb_refl.
    destruct (pre b); cbn [is_empty andb]; [reflexivity|].
    symmetry. apply comparePrereleases_same.
  - destruct (segs_eqb (segments a) (segments b)); [reflexivity|].
    apply Compare_loop.
Qed.

(** X9: the first test of [Compare] is only a short cut.  On parsed
    versions the result is the one that the rest of the function computes
    from the segments and the prereleases alone. *)
Theorem fast_path_is_shortcut (sa sb : str) (a b : Version) :
  NewVersion sa = Ok a -> NewVersion sb = Ok b ->
  Compare a b =
  if segs_eqb (Segments a) (Segments b) then
    if is_empty (Prerelease a) && is_empty (Prerelease b) then 0
    else if is_empty (Prerelease a) then 1
    else if is_empty (Prerelease b) then -1
    else comparePrereleases (Prerelease a) (Prerelease b)
  else
    segmentLoop
      (if (length (Segments a) <? length (Segments b))%nat
       then length (Segments b) else length (Segments a))
      0 (Segments a) (Segments b).
Proof.
  intros Ha Hb. rewrite (Compare_parsed sa sb a b Ha Hb).
  unfold Segments, Prerelease.
  destruct (segs_eqb (segments a) (segments b)); [reflexivity|].
  symmetry. apply Compare_loop.
Qed.

Lemma fast_path_is_shortcut_witness :
  Compare {| metadata := lit "x"; pre := lit "rc"; segments := [1; 0; 0]; si := 1 |}
          {| metadata := lit "x"; pre := lit "rc"; segments := [1; 0; 0]; si := 3 |} =
  comparePrereleases (lit "rc") (lit "rc").
Proof.
  apply (fast_path_is_shortcut (lit "1-rc+x") (lit "1.0.0-rc+x")); reflexivity.
Defined.

(** X10: when the segments of two parsed versions differ as numbers, the
    segments alone decide: the version whose zero-padded segments are
    smaller at the first index where they differ compares as less,
    whatever the prereleases and the metadata are. *)
Theorem segments_decide (sa sb : str) (a b : Version) :
  NewVersion sa = Ok a -> NewVersion sb = Ok b ->
  padLt (Segments a) (Segments b) ->
  Compare a b = -1 /\ Compare b a = 1 /\
  LessThan a b = true /\ GreaterThan b a = true.
Proof.
  intros Ha Hb Hlt.
  assert (C : Compare a b = -1).
  { rewrite (Compare_parsed sa sb a b Ha Hb). unfold Segments in *.
    destruct (segs_eqb (segments a) (segments b)) eqn:E.
    - apply segs_eqb_eq in E. exfalso.
      apply (padEq_padLt_absurd (segments a) (segments b)); [|exact Hlt].
      rewrite E. intros i. reflexivity.
    - apply cmpSegs_padLt; [| |exact Hlt].
      + exact (NewVersion_nonneg sa a Ha).
      + exact (NewVersion_nonneg sb b Hb). }
  assert (C' : Compare b a = 1) by (rewrite Compare_antisym, C; reflexivity).
  unfold LessThan, GreaterThan. rewrite C, C'. auto.
Qed.

Lemma segments_decide_witness :
  Compare {| metadata := []; pre := []; segments := [1; 2; 0]; si := 2 |}
          {| metadata := lit "m"; pre := lit "alpha"; segments := [1; 2; 0; 1]; si := 4 |}
  = -1.
Proof.
  apply (segments_decide (lit "1.2") (lit "1.2.0.1-alpha+m")).
  - reflexivity.
  - reflexivity.
  - exists 3%nat. split; [|reflexivity].
    intros i Hi.
    assert (E : i = 0%nat \/ i = 1%nat \/ i = 2%nat) by lia.
    destruct E as [->|[->| ->]]; reflexivity.
Defined.

(** X11: when two parsed versions have the same segments, they compare
    as equal exactly when their prereleases are the same string; and when
    both prereleases are present the result is that of
    [comparePrereleases]. *)
Theorem equal_segments_prerelease_decides (sa sb : str) (a b : Version) :
  NewVersion sa = Ok a -> NewVersion sb = Ok b ->
  Segments a = Segments b ->
  (Compare a b = 0 <-> Prerelease a = Prerelease b) /\
  (Equal a b = true <-> Prerelease a = Prerelease b) /\
  (Prerelease a <> [] -> Prerelease b <> [] ->
   Compare a b = comparePrereleases (Prerelease a) (Prerelease b)).
Proof.
  intros Ha Hb Es.
  pose proof (Compare_parsed sa sb a b Ha Hb) as C.
  unfold Segments in Es. rewrite Es, segs_eqb_refl in C.
  pose proof (NewVersion_fields sa a Ha) as (_ & _ & Pa & _).
  pose proof (NewVersion_fields sb b Hb) as (_ & _ & Pb & _).
  unfold Prerelease in *.
  assert (Z0 : Compare a b = 0 <-> pre a = pre b).
  { rewrite C. split.
    - intros H. destruct (pre a) as [|x p] eqn:Ea, (pre b) as [|y q] eqn:Eb;
        cbn [is_empty andb] in H; try discriminate; [reflexivity|].
      destruct Pa as [Pa|Pa]; [discriminate|].
      destruct Pb as [Pb|Pb]; [discriminate|].
      apply comparePrereleases_zero; assumption.
    - intros ->. destruct (pre b); cbn [is_empty andb]; [reflexivity|].
      apply comparePrereleases_same. }
  split; [exact Z0|]. split.
  - unfold Equal. rewrite Z.eqb_eq. exact Z0.
  - intros Na Nb. rewrite C.
    apply is_empty_false in Na, Nb. rewrite Na, Nb. reflexivity.
Qed.

Lemma equal_segments_prerelease_decides_witness :
  Compare {| metadata := []; pre := lit "rc.1"; segments := [2; 0; 0]; si := 1 |}
          {| metadata := []; pre := lit "rc.2"; segments := [2; 0; 0]; si := 3 |} =
  comparePrereleases (lit "rc.1") (lit "rc.2").
Proof.
  destruct (equal_segments_prerelease_decides (lit "2-rc.1") (lit "2.0.0-rc.2")
              {| metadata := []; pre := lit "rc.1"; segments := [2; 0; 0]; si := 1 |}
              {| metadata := []; pre := lit "rc.2"; segments := [2; 0; 0]; si := 3 |})
    as (_ & _ & H); [reflexivity..|].
  apply H; discriminate.
Defined.

(** X12: metadata never changes a comparison between parsed versions:
    two parsed versions with the same segments and the same prerelease
    give the same result against any parsed version, on either side. *)
Theorem metadata_never_matters (sa sa' sb : str) (a a' b : Version) :
  NewVersion sa = Ok a -> NewVersion sa' = Ok a' -> NewVersion sb = Ok b ->
  Segments a' = Segments a -> Prerelease a' = Prerelease a ->
  Compare a' b = Compare a b /\ Compare b a' = Compare b a.
Proof.
  intros Ha Ha' Hb Es Ep.
  rewrite (Compare_parsed sa' sb a' b Ha' Hb),
          (Compare_parsed sa sb a b Ha Hb),
          (Compare_parsed sb sa' b a' Hb Ha'),
          (Compare_parsed sb sa b a Hb Ha).
  unfold Segments, Prerelease in Es, Ep. rewrite Es, Ep. split; reflexivity.
Qed.

Lemma metadata_never_matters_witness :
  Compare {| metadata := lit "x"; pre := lit "rc"; segments := [1; 0; 0]; si := 3 |}
          {| metadata := lit "y"; pre := lit "rc.1"; segments := [1; 0; 0]; si := 3 |} =
  Compare {| metadata := []; pre := lit "rc"; segments := [1; 0; 0]; si := 3 |}
          {| metadata := lit "y"; pre := lit "rc.1"; segments := [1; 0; 0]; si := 3 |}.
Proof.
  apply (metadata_never_matters (lit "1.0.0-rc") (lit "1.0.0-rc+x") (lit "1.0.0-rc.1+y"));
    reflexivity.
Defined.

(** X14: on parsed versions without prerelease, [Compare] is the
    comparison of the segments read as sequences that go on with zeros:
    0 when they agree everywhere, so that trailing zeros do not count,
    -1 or 1 according to the first index where they differ. *)
Theorem release_order (sa sb : str) (a b : Version) :
  NewVersion sa = Ok a -> NewVersion sb = Ok b ->
  Prerelease a = [] -> Prerelease b = [] ->
  (Compare a b = 0 <-> padEq (Segments a) (Segments b)) /\
  (Compare a b = -1 <-> padLt (Segments a) (Segments b)) /\
  (Compare a b = 1 <-> padLt (Segments b) (Segments a)).
Proof.
  intros Ha Hb Pa Pb. unfold Prerelease, Segments in *.
  pose proof (NewVersion_nonneg sa a Ha) as Na.
  pose proof (NewVersion_nonneg sb b Hb) as Nb.
  rewrite (Compare_release a b Pa Pb Na Nb).
  destruct (cmpSegs_spec (segments a) (segments b) Na Nb)
    as [[H1 H2]|[[H1 H2]|[H1 H2]]]; rewrite H1.
  - split; [|split]; split; try discriminate; try (intros _; assumption);
      try reflexivity.
    + intros L. exfalso. eapply padEq_padLt_absurd; eassumption.
    + intros L. exfalso.
      eapply padEq_padLt_absurd; [apply padEq_sym|]; eassumption.
  - split; [|split]; split; try discriminate; try (intros _; assumption);
      try reflexivity.
    + intros E. exfalso. eapply padEq_padLt_absurd; eassumption.
    + intros L. exfalso. eapply padLt_asym; eassumption.
  - split; [|split]; split; try discriminate; try (intros _; assumption);
      try reflexivity.
    + intros E. exfalso.
      eapply padEq_padLt_absurd; [apply padEq_sym|]; eassumption.
    + intros L. exfalso. eapply padLt_asym; eassumption.
Qed.

Lemma release_order_witness :
  Compare {| metadata := []; pre := []; segments := [1; 0; 0]; si := 2 |}
          {| metadata := lit "m"; pre := []; segments := [1; 0; 0; 0]; si := 4 |} = 0.
Proof.
  destruct (release_order (lit "1.0") (lit "1.0.0.0+m")
              {| metadata := []; pre := []; segments := [1; 0; 0]; si := 2 |}
              {| metadata := lit "m"; pre := []; segments := [1; 0; 0; 0]; si := 4 |})
    as (H & _); [reflexivity..|].
  apply H. intros i.
  destruct i as [|[|[|[|i]]]]; try reflexivity.
  cbn [Segments segments nth]. destruct i; reflexivity.
Defined.

(* ================================================================== *)
(** ** Which digits become segments *)

(** When [u] is followed by a text that does not go on with a byte of
    [q], every other way of cutting the same text after bytes of [q]
    cuts inside [u]. *)
Lemma app_prefix_maximal (q : ascii -> bool) (u' : str) :
  forall u r r',
    forallb q u' = true -> stopsAt q r -> u ++ r = u' ++ r' ->
    exists X, u = u' ++ X /\ r' = X ++ r.
Proof.
  induction u' as [|y u' IH]; intros u r r' Hu' Hr E.
  - exists u. split; [reflexivity|]. symmetry. exact E.
  - simpl in Hu'. apply andb_true_iff in Hu' as [Hy Hu'].
    destruct u as [|x u].
    + exfalso. simpl in E. subst r. simpl in Hr. congruence.
    + simpl in E. injection E as -> E.
      destruct (IH u r r' Hu' Hr E) as (X & -> & ->).
      exists X. split; reflexivity.
Qed.

(** A suffix of dotted tokens that starts with a byte of the class is
    again made of dotted tokens. *)
Lemma dotted_suffix (p : ascii -> bool) (X : str) :
  p "."%char = false ->
  forall (t : str) (toks : list str) (Y : str) (y : ascii) (Y' : str),
    forallb p t = true -> Forall (token p) toks ->
    X ++ Y = t ++ dotted toks -> Y = y :: Y' -> p y = true ->
    dottedTokens p Y.
Proof.
  intros Hdot. induction X as [|x X IH]; intros t toks Y y Y' Ht Htoks E EY Hy.
  - cbn [app] in E. rewrite EY in E. destruct t as [|x t].
    + destruct toks as [|u toks].
      * discriminate.
      * rewrite dotted_cons in E. cbn [app] in E.
        injection E as -> _. congruence.
    + exists (x :: t), toks. split; [|split].
      * split; [discriminate|exact Ht].
      * exact Htoks.
      * rewrite EY. exact E.
  - destruct t as [|x' t].
    + destruct toks as [|u toks]; [discriminate|].
      rewrite dotted_cons in E. cbn [app] in E. injection E as _ E.
      apply Forall_cons_iff in Htoks as [[_ Hu] Htoks].
      exact (IH u toks Y y Y' Hu Htoks E EY Hy).
    + cbn [app] in E. injection E as _ E.
      simpl in Ht. apply andb_true_iff in Ht as [_ Ht].
      exact (IH t toks Y y Y' Ht Htoks E EY Hy).
Qed.

Lemma dotted_digits_bytes (t : str) (toks : list str) :
  token isDigit t -> Forall (token isDigit) toks ->
  forallb (fun c => isDigit c || Ascii.eqb c "."%char) (t ++ dotted toks) = true.
Proof.
  intros [_ Ht] Htoks. rewrite forallb_app. apply andb_true_iff. split.
  - eapply forallb_forall. intros c Hc.
    rewrite (proj1 (forallb_forall _ _) Ht c Hc). reflexivity.
  - induction Htoks as [|u toks [_ Hu] Htoks IH]; [reflexivity|].
    rewrite dotted_cons. cbn [forallb]. rewrite forallb_app, IH.
    replace (forallb (fun c => isDigit c || Ascii.eqb c "."%char) u) with true;
      [reflexivity|].
    symmetry. eapply forallb_forall. intros c Hc.
    rewrite (proj1 (forallb_forall _ _) Hu c Hc). reflexivity.
Qed.

(** If a text that follows whole runs of digits ends a version that the
    grammar cuts earlier, it ends a version by itself. *)
Lemma rest_is_suffix (W rest segs pw mw pre' meta : str) :
  forallb (fun c => isDigit c || Ascii.eqb c "."%char) W = true ->
  stopsAt isDigit rest -> stopsAt (Ascii.eqb "."%char) rest ->
  dottedTokens isDigit segs ->
  prereleasePart pre' pw -> metadataPart meta mw ->
  W ++ rest = segs ++ pw ++ mw ->
  exists p1 pw1, prereleasePart p1 pw1 /\ rest = pw1 ++ mw.
Proof.
  intros HW Hr1 Hr2 (t & toks & Ht & Htoks & ->) Hpw Hmw E.
  assert (Hstop : stopsAt (fun c => isDigit c || Ascii.eqb c "."%char) rest).
  { destruct rest as [|y rest]; [exact I|]. simpl in Hr1, Hr2 |- *.
    rewrite Hr1. rewrite Ascii.eqb_sym. exact Hr2. }
  destruct (app_prefix_maximal _ (t ++ dotted toks) W rest (pw ++ mw)
              (dotted_digits_bytes t toks Ht Htoks) Hstop E) as (X & EW & EX).
  rewrite EW, forallb_app in HW. apply andb_true_iff in HW as [_ HX].
  destruct X as [|x X].
  - exists pre', pw. split; [exact Hpw|]. symmetry. exact EX.
  - simpl in HX. apply andb_true_iff in HX as [Hx HX].
    assert (Hplus : forall m, metadataPart meta m -> m = [] \/ exists r, m = "+"%char :: r).
    { intros m [[_ ->]|[_ ->]]; eauto. }
    destruct Hpw as [[-> ->]|[Hpre [->| ->]]].
    + exfalso. cbn [app] in EX. destruct (Hplus mw Hmw) as [->|(r & ->)];
        [discriminate|]. injection EX as <- _. discriminate.
    + (* the prerelease starts at once, inside the digits *)
      assert (HnoPlus : forallb (fun c => negb (Ascii.eqb c "+"%char)) (x :: X) = true).
      { apply forallb_forall. intros c Hc.
        assert (Hq : isDigit c || Ascii.eqb c "."%char = true).
        { destruct Hc as [<-|Hc]; [exact Hx|].
          exact (proj1 (forallb_forall _ _) HX c Hc). }
        destruct (Ascii.eqb_spec c "+"%char) as [->|]; [discriminate|reflexivity]. }
      assert (HmwStop : stopsAt (fun c => negb (Ascii.eqb c "+"%char)) mw).
      { destruct (Hplus mw Hmw) as [->|(r & ->)]; [exact I|reflexivity]. }
      destruct (app_prefix_maximal _ (x :: X) pre' mw rest HnoPlus HmwStop EX)
        as (Y & Epre & Erest).
      destruct Y as [|y Y].
      * exists [], []. split; [left; auto|]. exact Erest.
      * exists (y :: Y), (y :: Y). split; [|exact Erest].
        right. split; [|left; reflexivity].
        pose proof (dottedTokens_bytes isIdent pre' Hpre) as Hbytes.
        assert (Hy : isIdent y = true).
        { rewrite Epre in Hbytes. apply Forall_app in Hbytes as [_ Hbytes].
          apply Forall_cons_iff in Hbytes as [[Hy|Hy] _]; [exact Hy|].
          subst y. rewrite Erest in Hr2. discriminate. }
        destruct Hpre as (t1 & toks1 & [_ Ht1] & Htoks1 & E1).
        apply (dotted_suffix isIdent (x :: X) eq_refl t1 toks1 (y :: Y) y Y);
          try assumption; try reflexivity.
        rewrite <- E1. symmetry. exact Epre.
    + exfalso. cbn [app] in EX. injection EX as <- _. discriminate.
Qed.

Lemma in_run_reSuffix_intro (pre' pw meta mw : str) (c : caps) :
  prereleasePart pre' pw -> metadataPart meta mw ->
  exists c', In (pw ++ mw, [], c') (run reSuffix (pw ++ mw) c).
Proof.
  intros Hpw Hmw.
  destruct (in_run_Opt_rePre_intro pre' pw mw c Hpw) as (c2 & H2).
  destruct (in_run_OptLazy_reMeta_intro meta mw c2 Hmw) as (c3 & H3).
  exists c3. unfold reSuffix.
  apply in_run_Cat. exists pw, mw, c2, mw.
  split; [exact H2|]. split; [|reflexivity].
  apply in_run_Cat. exists mw, [], c3, [].
  split; [exact H3|]. split; [|symmetry; apply app_nil_r].
  apply in_run_Eol. auto.
Qed.

(** When the input starts with whole runs of digits, followed neither by
    a digit nor by a dot, a successful match takes all of them as group
    1. *)
Lemma FindStringSubmatch_whole_runs (lead t : str) (toks : list str)
    (rest : str) (matches : caps) :
  lead = [] \/ lead = ["v"%char] ->
  token isDigit t -> Forall (token isDigit) toks ->
  stopsAt isDigit rest -> stopsAt (Ascii.eqb "."%char) rest ->
  FindStringSubmatch versionRegexp (lead ++ t ++ dotted toks ++ rest) = Some matches ->
  matches 1%nat = t ++ dotted toks.
Proof.
  intros Hlead Ht Htoks Hr1 Hr2 Hfind.
  (* the text left after the runs can end a version *)
  assert (Hrest : forall c, run reSuffix rest c <> []).
  { intros c.
    pose proof (FindStringSubmatch_versionRegexp _ _ Hfind)
      as (_ & lead' & pw & mw & Hlead' & Hsegs & Hpw & Hmw & E).
    assert (Hd : exists x t', t = x :: t' /\ isDigit x = true).
    { destruct Ht as [Hne Hall]. destruct t as [|x t']; [contradiction|].
      simpl in Hall. apply andb_true_iff in Hall as [Hx _]. eauto. }
    destruct Hd as (x & t' & -> & Hx).
    assert (Hd' : exists x' r', matches 1%nat = x' :: r' /\ isDigit x' = true).
    { pose proof Hsegs as (t1 & toks1 & [Hne Hall] & _ & E0).
      destruct t1 as [|x' t1]; [contradiction|].
      simpl in Hall. apply andb_true_iff in Hall as [Hx' _].
      rewrite E0. cbn [app]. eauto. }
    destruct Hd' as (x' & r' & E1 & Hx').
    rewrite E1 in E.
    assert (E' : (x :: t') ++ dotted toks ++ rest = matches 1%nat ++ pw ++ mw).
    { rewrite E1.
      destruct Hlead as [->| ->], Hlead' as [->| ->]; cbn [app] in E.
      - exact E.
      - injection E as -> _. discriminate.
      - injection E as <- _. discriminate.
      - injection E as -> E. cbn [app]. rewrite E. reflexivity. }
    rewrite app_assoc in E'.
    destruct (rest_is_suffix _ rest _ pw mw _ _
                (dotted_digits_bytes _ toks Ht Htoks) Hr1 Hr2 Hsegs Hpw Hmw E')
      as (p1 & pw1 & Hpw1 & ->).
    destruct (in_run_reSuffix_intro p1 pw1 _ mw c Hpw1 Hmw) as (c' & Hin).
    intros Hnil. rewrite Hnil in Hin. contradiction. }
  (* the runs are reached before any shorter reading that matches *)
  destruct (run_dottedRuns_lazy_reach isDigit 1 eq_refl t toks rest noCaps
              Ht Htoks Hr1) as (l1 & c1 & l2 & Hl & Hdots & H1 & Hc1).
  assert (Hrun : exists m0 c0 l0,
             run (Cat reSegments reSuffix) (t ++ dotted toks ++ rest) noCaps =
             (m0, [], c0) :: l0 /\ c0 1%nat = t ++ dotted toks).
  { rewrite run_Cat_eq.
    change (run reSegments (t ++ dotted toks ++ rest) noCaps)
      with (run (Group 1 (Cat (Plus (Class isDigit))
                             (Star false (Group 2 (Cat (Chr "."%char) (Plus (Class isDigit)))))))
                (t ++ dotted toks ++ rest) noCaps).
    rewrite Hl, flat_map_app, flat_map_reSuffix_atDot by assumption.
    cbn [flat_map app].
    destruct (run reSuffix rest c1) as [|[[m s'] c'] l] eqn:E;
      [exfalso; exact (Hrest c1 E)|].
    destruct (in_run_reSuffix rest c1 m s' c') as (-> & _ & E1 & _).
    { rewrite Hc1 by discriminate. reflexivity. }
    { rewrite Hc1 by discriminate. reflexivity. }
    { rewrite E. left. reflexivity. }
    cbn [map prepend app]. eexists. eexists. eexists.
    split; [reflexivity|]. rewrite E1. exact H1. }
  destruct Hrun as (m0 & c0 & l0 & Hrun & Hc0).
  assert (Hv : stopsAt (Ascii.eqb "v"%char) (t ++ dotted toks ++ rest)).
  { destruct Ht as [Hne Hall]. destruct t as [|x t']; [contradiction|].
    simpl in Hall. apply andb_true_iff in Hall as [Hx _].
    exact (isDigit_not_v x Hx). }
  unfold FindStringSubmatch in Hfind.
  destruct Hlead as [->| ->].
  - cbn [app] in Hfind.
    rewrite (run_versionRegexp_without_v _ noCaps Hv), Hrun in Hfind.
    cbn [map prepend] in Hfind. injection Hfind as <-. exact Hc0.
  - change (["v"%char] ++ t ++ dotted toks ++ rest)
      with ("v"%char :: t ++ dotted toks ++ rest) in Hfind.
    rewrite (run_versionRegexp_after_v _ noCaps), Hrun in Hfind.
    cbn [map prepend] in Hfind. injection Hfind as <-. exact Hc0.
Qed.

(** The numbers that [NewVersion] reads: the input is an optional v,
    these numbers separated by dots, then what stands for the prerelease
    and the metadata of the result. *)
Lemma NewVersion_components (s : str) (v : Version) :
  NewVersion s = Ok v ->
  exists (lead : str) (toks : list str) (pw mw : str) (comps : list Z),
    s = lead ++ Join toks "."%char ++ pw ++ mw /\
    (lead = [] \/ lead = ["v"%char]) /\
    toks <> [] /\ Forall (token isDigit) toks /\
    prereleasePart (pre v) pw /\ metadataPart (metadata v) mw /\
    parseSegments toks = inr comps /\ length comps = length toks /\
    segments v = padSegments comps /\ si v = Z.of_nat (length toks).
Proof.
  intros H. apply NewVersion_Ok in H as (matches & segs & Hm & Hp & ->).
  apply FindStringSubmatch_versionRegexp in Hm
    as (_ & lead & pw & mw & Hlead & (t & toks & Ht & Htoks & E1) & Hpw & Hmw & Hs).
  rewrite E1, Split_dotted in * by assumption.
  exists lead, (t :: toks), pw, mw, segs. cbn [pre metadata segments si].
  rewrite Join_dotted.
  split; [exact Hs|]. split; [exact Hlead|]. split; [discriminate|].
  split; [constructor; assumption|]. split; [exact Hpw|]. split; [exact Hmw|].
  split; [exact Hp|].
  split; [eapply parseSegments_range; [constructor|]; eassumption|].
  split; reflexivity.
Qed.

(** When whole runs of digits start the input, followed neither by a
    digit nor by a dot, they are the numbers that [NewVersion] reads. *)
Lemma NewVersion_whole_runs (s : str) (v : Version) (lead : str)
    (toks : list str) (rest : str) :
  NewVersion s = Ok v ->
  s = lead ++ Join toks "."%char ++ rest ->
  lead = [] \/ lead = ["v"%char] ->
  toks <> [] -> Forall (token isDigit) toks ->
  stopsAt isDigit rest -> stopsAt (Ascii.eqb "."%char) rest ->
  exists comps : list Z,
    parseSegments toks = inr comps /\ length comps = length toks /\
    segments v = padSegments comps /\ si v = Z.of_nat (length toks).
Proof.
  intros H -> Hlead Hne Htoks Hr1 Hr2.
  destruct toks as [|t toks]; [contradiction|].
  apply Forall_cons_iff in Htoks as [Ht Htoks].
  rewrite Join_dotted, <- app_assoc in H.
  apply NewVersion_Ok in H as (matches & segs & Hm & Hp & ->).
  rewrite (FindStringSubmatch_whole_runs lead t toks rest matches
             Hlead Ht Htoks Hr1 Hr2 Hm) in *.
  rewrite Split_dotted in * by assumption.
  exists segs. cbn [segments si].
  split; [exact Hp|].
  split; [eapply parseSegments_range; [constructor|]; eassumption|].
  split; reflexivity.
Qed.

(** What stands for the prerelease and the metadata never starts with a
    dot: numbers followed by a dot in the input are not the numbers that
    [NewVersion] reads. *)
Lemma numbers_before_dot_not_read (p m : str) (lead lead' : str)
    (toks : list str) (pw mw rest : str) :
  lead = [] \/ lead = ["v"%char] -> lead' = [] \/ lead' = ["v"%char] ->
  toks <> [] -> Forall (token isDigit) toks ->
  prereleasePart p pw -> metadataPart m mw ->
  lead' ++ Join toks "."%char ++ pw ++ mw <>
  lead ++ Join toks "."%char ++ "."%char :: rest.
Proof.
  intros Hlead Hlead' Hne Htoks Hpw Hmw E.
  destruct toks as [|t toks]; [contradiction|].
  apply Forall_cons_iff in Htoks as [[Ht Hd] _].
  rewrite Join_dotted in E.
  destruct t as [|d t]; [contradiction|].
  cbn [forallb] in Hd. apply andb_prop in Hd as [Hd _].
  assert (R : pw ++ mw = "."%char :: rest).
  { destruct Hlead as [->| ->], Hlead' as [->| ->].
    - apply (app_inv_head _ _ _ (app_inv_head _ _ _ E)).
    - cbn [app] in E. injection E as E0 _. rewrite <- E0 in Hd. discriminate Hd.
    - cbn [app] in E. injection E as E0 _. rewrite E0 in Hd. discriminate Hd.
    - apply (app_inv_head _ _ _ (app_inv_head _ _ _ E)). }
  destruct Hpw as [[_ ->]|[(u & us & [Hu Hi] & _ & ->) [->| ->]]].
  - destruct Hmw as [[_ ->]|[_ ->]]; discriminate R.
  - destruct u as [|c u]; [contradiction|].
    cbn [forallb] in Hi. apply andb_prop in Hi as [Hi _].
    injection R as R0 _. rewrite R0 in Hi. discriminate Hi.
  - discriminate R.
Qed.

(* ================================================================== *)
(** ** The segments of a parsed version *)

(** C9 (counterexample): in 1.23.x the numbers of the input are 1 and
    23, but the version stored has the segments 1, 2, 0 and the
    prerelease 3.x. *)
Lemma digit_run_split :
  exists v,
    NewVersion (lit "1.23.x") = Ok v /\
    Segments v = [1; 2; 0] /\ Segments v <> padSegments [1; 23] /\
    Prerelease v = lit "3.x".
Proof.
  eexists. split; [vm_compute; reflexivity|].
  split; [reflexivity|]. split; [discriminate|reflexivity].
Qed.

(** C9 (amended): every parsed version has at least three segments: the
    numbers that the pattern reads at the start of the input, followed by
    as many zeros as it takes to reach three; three or more numbers are
    stored as they are.  The input is an optional v, these numbers
    separated by dots, and then what stands for the prerelease and the
    metadata of the result.  The numbers are the whole runs of digits at
    the start of the input whenever these runs are followed neither by a
    digit nor by a dot, and numbers followed by a dot are never the ones
    read; 1.2 gives 1, 2, 0 and 1 gives 1, 0, 0. *)
Theorem segments_padded :
  (forall (s : str) (v : Version),
     NewVersion s = Ok v ->
     (3 <= length (Segments v))%nat /\
     exists (lead : str) (toks : list str) (pw mw : str) (comps : list Z),
       s = lead ++ Join toks "."%char ++ pw ++ mw /\
       (lead = [] \/ lead = ["v"%char]) /\
       toks <> [] /\ Forall (token isDigit) toks /\
       prereleasePart (Prerelease v) pw /\ metadataPart (Metadata v) mw /\
       parseSegments toks = inr comps /\
       length comps = length toks /\
       Segments v = comps ++ repeat 0 (3 - length comps)%nat /\
       ((3 <= length comps)%nat -> Segments v = comps)) /\
  (forall (s : str) (v : Version) (lead : str) (toks : list str) (rest : str),
     NewVersion s = Ok v ->
     s = lead ++ Join toks "."%char ++ rest ->
     lead = [] \/ lead = ["v"%char] ->
     toks <> [] -> Forall (token isDigit) toks ->
     stopsAt isDigit rest -> stopsAt (Ascii.eqb "."%char) rest ->
     exists comps : list Z,
       parseSegments toks = inr comps /\
       length comps = length toks /\
       Segments v = comps ++ repeat 0 (3 - length comps)%nat /\
       ((3 <= length comps)%nat -> Segments v = comps)) /\
  (forall (s : str) (v : Version) (lead : str) (toks : list str) (rest : str),
     NewVersion s = Ok v ->
     s = lead ++ Join toks "."%char ++ "."%char :: rest ->
     lead = [] \/ lead = ["v"%char] ->
     toks <> [] -> Forall (token isDigit) toks ->
     forall (lead' : str) (toks' : list str) (pw mw : str),
       s = lead' ++ Join toks' "."%char ++ pw ++ mw ->
       lead' = [] \/ lead' = ["v"%char] ->
       prereleasePart (Prerelease v) pw -> metadataPart (Metadata v) mw ->
       toks' <> toks) /\
  (exists v, NewVersion (lit "1.2") = Ok v /\ Segments v = [1; 2; 0]) /\
  (exists v, NewVersion (lit "1") = Ok v /\ Segments v = [1; 0; 0]) /\
  (exists v, NewVersion (lit "1.2.3") = Ok v /\ Segments v = [1; 2; 3]) /\
  (exists v, NewVersion (lit "1.2.3.4") = Ok v /\ Segments v = [1; 2; 3; 4]).
Proof.
  split; [|split; [|split;
    [|repeat split; eexists; split; (vm_compute; reflexivity)]]].
  - intros s v H. split.
    { apply NewVersion_fields in H as (Hlen & _). exact Hlen. }
    destruct (NewVersion_components s v H)
      as (lead & toks & pw & mw & comps & Hs & Hlead & Hne & Htoks & Hpw & Hmw
          & Hp & Hlen & Hsegs & _).
    exists lead, toks, pw, mw, comps. unfold Segments, Prerelease, Metadata.
    repeat (split; [assumption|]). rewrite Hsegs.
    intros H3. apply padSegments_long. exact H3.
  - intros s v lead toks rest H Hs Hlead Hne Htoks Hr1 Hr2.
    destruct (NewVersion_whole_runs s v lead toks rest H Hs Hlead Hne Htoks Hr1 Hr2)
      as (comps & Hp & Hlen & Hsegs & _).
    exists comps. unfold Segments. rewrite Hsegs.
    split; [exact Hp|]. split; [exact Hlen|]. split; [reflexivity|].
    intros H3. apply padSegments_long. exact H3.
  - intros s v lead toks rest _ Hs Hlead Hne Htoks lead' toks' pw mw Hs' Hlead'
      Hpw Hmw ->.
    rewrite Hs in Hs'. symmetry in Hs'. revert Hs'.
    apply (numbers_before_dot_not_read (Prerelease v) (Metadata v));
      assumption.
Qed.

Lemma segments_padded_witness :
  (3 <= length (Segments (mkVersion [] (lit "rc1") [0; 9; 0]%Z 2%Z)))%nat /\
  exists comps : list Z,
    parseSegments [lit "0"; lit "9"] = inr comps /\
    length comps = length [lit "0"; lit "9"] /\
    Segments (mkVersion [] (lit "rc1") [0; 9; 0] 2) =
      comps ++ repeat 0 (3 - length comps)%nat /\
    ((3 <= length comps)%nat ->
     Segments (mkVersion [] (lit "rc1") [0; 9; 0] 2) = comps).
Proof.
  destruct segments_padded as (H1 & H2 & _). split.
  - apply (H1 (lit "v0.9-rc1")). vm_compute. reflexivity.
  - apply (H2 (lit "v0.9-rc1") (mkVersion [] (lit "rc1") [0; 9; 0] 2)
              ["v"%char] [lit "0"; lit "9"] (lit "-rc1")).
    + vm_compute. reflexivity.
    + reflexivity.
    + right. reflexivity.
    + discriminate.
    + repeat constructor; discriminate.
    + reflexivity.
    + reflexivity.
Defined.

(** X3: in a parsed version every segment lies in [0, 2^31); [si] is the
    number of numbers read from the input, at least one; the segments
    number three or [si], whichever is larger; the first [si] of them are
    the values of the numbers read and those beyond [si] are zero.  The
    numbers read are the ones that the pattern takes at the start of the
    input, in front of what stands for the prerelease and the metadata
    of the result; they are the whole runs of digits there whenever
    these are followed neither by a digit nor by a dot. *)
Theorem parsed_segments_invariant (s : str) (v : Version) :
  NewVersion s = Ok v ->
  Forall (fun x => 0 <= x < 2 ^ 31) (Segments v) /\
  1 <= si v /\
  Z.of_nat (length (Segments v)) = Z.max 3 (si v) /\
  (forall i : nat, si v <= Z.of_nat i -> nth i (Segments v) 0 = 0) /\
  (exists (lead : str) (toks : list str) (pw mw : str),
     s = lead ++ Join toks "."%char ++ pw ++ mw /\
     (lead = [] \/ lead = ["v"%char]) /\
     Forall (token isDigit) toks /\
     prereleasePart (Prerelease v) pw /\ metadataPart (Metadata v) mw /\
     si v = Z.of_nat (length toks) /\
     parseSegments toks = inr (firstn (length toks) (Segments v))) /\
  (forall (lead : str) (toks : list str) (rest : str),
     s = lead ++ Join toks "."%char ++ rest ->
     lead = [] \/ lead = ["v"%char] ->
     toks <> [] -> Forall (token isDigit) toks ->
     stopsAt isDigit rest -> stopsAt (Ascii.eqb "."%char) rest ->
     si v = Z.of_nat (length toks) /\
     parseSegments toks = inr (firstn (length toks) (Segments v))).
Proof.
  intros H. pose proof (NewVersion_fields s v H) as (_ & Hr & _).
  assert (F : forall comps : list Z,
             firstn (length comps) (padSegments comps) = comps).
  { intros comps. unfold padSegments.
    rewrite firstn_app, firstn_all, Nat.sub_diag. apply app_nil_r. }
  destruct (NewVersion_components s v H)
    as (lead & toks & pw & mw & comps & Hs & Hlead & Hne & Htoks & Hpw & Hmw
        & Hp & Hlen & Hsegs & Hsi).
  unfold Segments, Prerelease, Metadata.
  split; [exact Hr|]. split; [|split; [|split; [|split]]].
  - rewrite Hsi. destruct toks; [contradiction|]. simpl length. lia.
  - rewrite Hsegs, Hsi. unfold padSegments.
    rewrite length_app, repeat_length, Hlen. lia.
  - intros i Hi. rewrite Hsegs. apply padSegments_nth_beyond. lia.
  - exists lead, toks, pw, mw.
    repeat (split; [assumption|]). rewrite Hsegs, <- Hlen, F. exact Hp.
  - intros lead' toks' rest Hs' Hlead' Hne' Htoks' Hr1 Hr2.
    destruct (NewVersion_whole_runs s v lead' toks' rest H Hs' Hlead' Hne' Htoks'
                Hr1 Hr2) as (comps' & Hp' & Hlen' & Hsegs' & Hsi').
    split; [exact Hsi'|]. rewrite Hsegs', <- Hlen', F. exact Hp'.
Qed.

Lemma parsed_segments_invariant_witness :
  Forall (fun x => 0 <= x < 2 ^ 31) [7; 0; 0] /\
  1 <= 1 /\ Z.of_nat (length [7; 0; 0]) = Z.max 3 1 /\
  (forall i : nat, 1 <= Z.of_nat i -> nth i [7; 0; 0] 0 = 0) /\
  (1 = Z.of_nat (length [lit "7"]) /\
   parseSegments [lit "7"] = inr (firstn (length [lit "7"]) [7; 0; 0])).
Proof.
  destruct (parsed_segments_invariant (lit "v7-beta")
              {| metadata := []; pre := lit "beta"; segments := [7; 0; 0]; si := 1 |})
    as (H1 & H2 & H3 & H4 & _ & H6); [vm_compute; reflexivity|].
  repeat (split; [assumption|]).
  apply (H6 ["v"%char] [lit "7"] (lit "-beta")).
  - reflexivity.
  - right. reflexivity.
  - discriminate.
  - repeat constructor; discriminate.
  - reflexivity.
  - reflexivity.
Defined.

(* ================================================================== *)
(** ** The order on strings, tokens and prereleases *)

Lemma str_compare_refl (a : str) : str_compare a a = Eq.
Proof. apply str_compare_eq. reflexivity. Qed.

Lemma str_ltb_irrefl (a : str) : str_ltb a a = false.
Proof. unfold str_ltb. rewrite str_compare_refl. reflexivity. Qed.

Lemma str_ltb_asym (a b : str) : str_ltb a b = true -> str_ltb b a = false.
Proof.
  unfold str_ltb. rewrite (str_compare_antisym b a).
  destruct (str_compare a b); simpl; congruence.
Qed.

Lemma str_compare_lt_trans (a : str) :
  forall b c, str_compare a b = Lt -> str_compare b c = Lt -> str_compare a c = Lt.
Proof.
  induction a as [|x a IH]; intros [|y b] [|z c] H1 H2; simpl in *;
    try discriminate; try reflexivity.
  unfold Ascii.compare in *.
  destruct (N.compare_spec (N_of_ascii x) (N_of_ascii y)) as [E1|L1|G1];
    try discriminate;
    destruct (N.compare_spec (N_of_ascii y) (N_of_ascii z)) as [E2|L2|G2];
    try discriminate;
    destruct (N.compare_spec (N_of_ascii x) (N_of_ascii z)) as [E3|L3|G3];
    try reflexivity; try lia.
  eapply IH; eassumption.
Qed.

Lemma str_ltb_trans (a b c : str) :
  str_ltb a b = true -> str_ltb b c = true -> str_ltb a c = true.
Proof.
  unfold str_ltb. intros H1 H2.
  destruct (str_compare a b) eqn:E1; try discriminate.
  destruct (str_compare b c) eqn:E2; try discriminate.
  rewrite (str_compare_lt_trans a b c E1 E2). reflexivity.
Qed.

Lemma tokLt_irrefl (a : list str) : ~ tokLt a a.
Proof. intros (k & _ & _ & _ & H). rewrite str_ltb_irrefl in H. discriminate. Qed.

Lemma tokLt_asym (a b : list str) : tokLt a b -> tokLt b a -> False.
Proof.
  intros (k1 & S1 & _ & _ & L1) (k2 & S2 & _ & _ & L2).
  destruct (Nat.lt_trichotomy k1 k2) as [H|[H|H]].
  - rewrite (S2 k1 H), str_ltb_irrefl in L1. discriminate.
  - subst k2. apply str_ltb_asym in L1. congruence.
  - rewrite (S1 k2 H), str_ltb_irrefl in L2. discriminate.
Qed.

Lemma tokLt_trans (a b c : list str) : tokLt a b -> tokLt b c -> tokLt a c.
Proof.
  intros (k1 & S1 & A1 & B1 & L1) (k2 & S2 & B2 & C2 & L2).
  destruct (Nat.lt_trichotomy k1 k2) as [H|[H|H]].
  - exists k1. split; [|split; [exact A1|split; [lia|]]].
    + intros j Hj. rewrite S1 by exact Hj. apply S2. lia.
    + rewrite <- (S2 k1 H). exact L1.
  - subst k2. exists k1. split; [|split; [exact A1|split; [exact C2|]]].
    + intros j Hj. rewrite S1 by exact Hj. apply S2. exact Hj.
    + eapply str_ltb_trans; eassumption.
  - exists k2. split; [|split; [lia|split; [exact C2|]]].
    + intros j Hj. rewrite S1 by lia. apply S2. exact Hj.
    + rewrite (S1 k2 H). exact L2.
Qed.

Lemma preLt_irrefl (p : str) : ~ preLt p p.
Proof.
  intros [[H1 H2]|(_ & _ & H)]; [contradiction|]. exact (tokLt_irrefl _ H).
Qed.

Lemma preLt_asym (p q : str) : preLt p q -> preLt q p -> False.
Proof.
  intros [[H1 H2]|(H1 & H2 & H3)] [[G1 G2]|(G1 & G2 & G3)]; try contradiction.
  exact (tokLt_asym _ _ H3 G3).
Qed.

Lemma preLt_trans (p q r : str) : preLt p q -> preLt q r -> preLt p r.
Proof.
  intros [[H1 H2]|(H1 & H2 & H3)] [[G1 G2]|(G1 & G2 & G3)]; try contradiction.
  - left. auto.
  - right. split; [exact H1|]. split; [exact G2|]. eapply tokLt_trans; eassumption.
Qed.

Lemma padEq_refl (a : list Z) : padEq a a.
Proof. intros i. reflexivity. Qed.

Lemma padLt_irrefl (a : list Z) : ~ padLt a a.
Proof. intros H. exact (padEq_padLt_absurd a a (padEq_refl a) H). Qed.

Lemma padEq_same_length (a b : list Z) :
  padEq a b -> length a = length b -> a = b.
Proof.
  intros He Hl. apply (nth_ext a b 0 0); [exact Hl|]. intros i _. apply He.
Qed.

Lemma verEq_sym (x y : Version) : verEq x y -> verEq y x.
Proof. intros [H1 H2]. split; [apply padEq_sym; exact H1|congruence]. Qed.

Lemma verEq_verLt_absurd (x y : Version) : verEq x y -> verLt x y -> False.
Proof.
  intros [E1 E2] [L|[_ L]].
  - exact (padEq_padLt_absurd _ _ E1 L).
  - rewrite E2 in L. exact (preLt_irrefl _ L).
Qed.

Lemma verLt_asym (x y : Version) : verLt x y -> verLt y x -> False.
Proof.
  intros [L1|[E1 P1]] [L2|[E2 P2]].
  - exact (padLt_asym _ _ L1 L2).
  - exact (padEq_padLt_absurd _ _ (padEq_sym _ _ E2) L1).
  - exact (padEq_padLt_absurd _ _ (padEq_sym _ _ E1) L2).
  - exact (preLt_asym _ _ P1 P2).
Qed.

Lemma verLt_trans (x y z : Version) : verLt x y -> verLt y z -> verLt x z.
Proof.
  intros [L1|[E1 P1]] [L2|[E2 P2]].
  - left. eapply padLt_trans; eassumption.
  - left. eapply padLt_padEq; eassumption.
  - left. eapply padEq_padLt; eassumption.
  - right. split; [eapply padEq_trans|eapply preLt_trans]; eassumption.
Qed.

Lemma verEq_verLt (x y z : Version) : verEq x y -> verLt y z -> verLt x z.
Proof.
  intros [E1 E2] [L|[E P]].
  - left. eapply padEq_padLt; eassumption.
  - right. split; [eapply padEq_trans; eassumption|]. rewrite E2. exact P.
Qed.

Lemma verLt_verEq (x y z : Version) : verLt x y -> verEq y z -> verLt x z.
Proof.
  intros [L|[E P]] [E1 E2].
  - left. eapply padLt_padEq; eassumption.
  - right. split; [eapply padEq_trans; eassumption|]. rewrite <- E2. exact P.
Qed.

Lemma verEq_trans (x y z : Version) : verEq x y -> verEq y z -> verEq x z.
Proof.
  intros [E1 E2] [F1 F2]. split; [eapply padEq_trans; eassumption|congruence].
Qed.

(* ================================================================== *)
(** ** [Compare] on pairs compared in full *)

(** Two different lists, neither going on after the end of the other,
    differ at an index where both have an element. *)
Lemma first_difference (a : list str) :
  forall b, a <> b -> ~ properPrefix a b -> ~ properPrefix b a ->
  exists k, (k < length a)%nat /\ (k < length b)%nat /\
            (forall j, (j < k)%nat -> nth j a [] = nth j b []) /\
            nth k a [] <> nth k b [].
Proof.
  induction a as [|x a IH]; intros [|y b] Hne Hab Hba.
  - contradiction.
  - exfalso. apply Hab. exists y, b. reflexivity.
  - exfalso. apply Hba. exists x, a. reflexivity.
  - destruct (list_eq_dec ascii_dec x y) as [->|Hxy].
    + destruct (IH b) as (k & Ka & Kb & Hsame & Hdiff).
      * intros ->. contradiction.
      * intros (t & r & ->). apply Hab. exists t, r. reflexivity.
      * intros (t & r & ->). apply Hba. exists t, r. reflexivity.
      * exists (S k). cbn [length nth]. split; [lia|]. split; [lia|].
        split; [|exact Hdiff].
        intros [|j] Hj; [reflexivity|]. apply Hsame. lia.
    + exists 0%nat. cbn [length nth]. split; [lia|]. split; [lia|].
      split; [intros j Hj; lia|exact Hxy].
Qed.

Lemma comparePrereleases_decided (v other : str) (k : nat) :
  (forall j, (j < k)%nat ->
             nth j (Split v "."%char) [] = nth j (Split other "."%char) []) ->
  nth k (Split v "."%char) [] <> nth k (Split other "."%char) [] ->
  comparePrereleases v other =
  comparePart (nth k (Split v "."%char) []) (nth k (Split other "."%char) []).
Proof.
  intros Hsame Hdiff. unfold comparePrereleases.
  destruct (str_eqb v other) eqn:E.
  - apply str_eqb_eq in E. subst other. contradiction.
  - cbv zeta. apply prereleaseLoop_first_difference.
    + lia.
    + destruct (Nat.lt_ge_cases k (length (Split v "."%char))) as [L|G1];
        [destruct (_ <? _)%nat eqn:B;
         [apply Nat.ltb_lt in B|apply Nat.ltb_ge in B]; lia|].
      destruct (Nat.lt_ge_cases k (length (Split other "."%char))) as [L|G2];
        [destruct (_ <? _)%nat eqn:B;
         [apply Nat.ltb_lt in B|apply Nat.ltb_ge in B]; lia|].
      exfalso. apply Hdiff. rewrite !nth_overflow by assumption. reflexivity.
    + intros j _ Hj. apply Hsame. exact Hj.
    + exact Hdiff.
Qed.

(** On two well-formed prereleases whose token lists do not go on one
    after the end of the other, [comparePrereleases] is the order of the
    tokens. *)
Lemma comparePrereleases_tokens (p q : str) :
  dottedTokens isIdent p -> dottedTokens isIdent q ->
  ~ properPrefix (Split p "."%char) (Split q "."%char) ->
  ~ properPrefix (Split q "."%char) (Split p "."%char) ->
  (comparePrereleases p q = 0 /\ p = q) \/
  (comparePrereleases p q = -1 /\ tokLt (Split p "."%char) (Split q "."%char)) \/
  (comparePrereleases p q = 1 /\ tokLt (Split q "."%char) (Split p "."%char)).
Proof.
  intros Hp Hq Hpq Hqp.
  destruct (list_eq_dec ascii_dec p q) as [->|Hne].
  - left. split; [apply comparePrereleases_same|reflexivity].
  - assert (Hsplit : Split p "."%char <> Split q "."%char).
    { intros E. apply Hne.
      rewrite <- (Join_Split p "."%char), <- (Join_Split q "."%char), E.
      reflexivity. }
    destruct (first_difference _ _ Hsplit Hpq Hqp) as (k & Kp & Kq & Hsame & Hdiff).
    rewrite (comparePrereleases_decided p q k Hsame Hdiff).
    pose proof (dottedTokens_Split isIdent p eq_refl Hp) as Np.
    pose proof (dottedTokens_Split isIdent q eq_refl Hq) as Nq.
    assert (Tp : nth k (Split p "."%char) [] <> []).
    { apply (proj1 (Forall_forall _ _) Np). apply nth_In. exact Kp. }
    assert (Tq : nth k (Split q "."%char) [] <> []).
    { apply (proj1 (Forall_forall _ _) Nq). apply nth_In. exact Kq. }
    rewrite (comparePart_strings _ _ Tp Tq Hdiff), (str_gtb_ltb _ _ Hdiff).
    destruct (str_ltb (nth k (Split p "."%char) []) (nth k (Split q "."%char) []))
      eqn:L; cbn [negb].
    + right. left. split; [reflexivity|]. exists k. auto.
    + right. right. split; [reflexivity|]. exists k.
      split; [intros j Hj; symmetry; apply Hsame; exact Hj|].
      split; [exact Kq|]. split; [exact Kp|].
      rewrite <- str_gtb_flip, (str_gtb_ltb _ _ Hdiff), L. reflexivity.
Qed.

(** On a pair of parsed versions compared in full, [Compare] is the
    three-way comparison by zero-padded segments, then by prerelease. *)
Lemma Compare_full_spec (sa sb : str) (a b : Version) :
  NewVersion sa = Ok a -> NewVersion sb = Ok b -> comparedInFull a b ->
  (Compare a b = 0 /\ verEq a b) \/
  (Compare a b = -1 /\ verLt a b) \/
  (Compare a b = 1 /\ verLt b a).
Proof.
  intros Ha Hb [Hseg Hpre]. rewrite (Compare_parsed sa sb a b Ha Hb).
  pose proof (NewVersion_fields sa a Ha) as (_ & _ & Pa & _).
  pose proof (NewVersion_fields sb b Hb) as (_ & _ & Pb & _).
  pose proof (NewVersion_nonneg sa a Ha) as Na.
  pose proof (NewVersion_nonneg sb b Hb) as Nb.
  unfold verEq, verLt.
  destruct (segs_eqb (segments a) (segments b)) eqn:E.
  - apply segs_eqb_eq in E. specialize (Hpre E). rewrite <- E.
    pose proof (padEq_refl (segments a)) as R.
    destruct (pre a) as [|x p] eqn:Ea, (pre b) as [|y q] eqn:Eb; cbn [is_empty andb].
    + left. auto.
    + right. right. split; [reflexivity|]. right. split; [exact R|].
      left. split; [discriminate|reflexivity].
    + right. left. split; [reflexivity|]. right. split; [exact R|].
      left. split; [discriminate|reflexivity].
    + destruct Pa as [Pa|Pa]; [discriminate|].
      destruct Pb as [Pb|Pb]; [discriminate|].
      destruct Hpre as [Hpq Hqp]; [discriminate|discriminate|].
      destruct (comparePrereleases_tokens _ _ Pa Pb Hpq Hqp)
        as [[C H]|[[C H]|[C H]]]; rewrite C.
      * left. auto.
      * right. left. split; [reflexivity|]. right. split; [exact R|].
        right. split; [discriminate|]. split; [discriminate|exact H].
      * right. right. split; [reflexivity|]. right. split; [exact R|].
        right. split; [discriminate|]. split; [discriminate|exact H].
  - destruct (cmpSegs_spec (segments a) (segments b) Na Nb)
      as [[C H]|[[C H]|[C H]]]; rewrite C.
    + destruct Hseg as [Hl|[[E1 E2]|Hn]].
      * apply (padEq_same_length _ _ H) in Hl.
        rewrite Hl, segs_eqb_refl in E. discriminate.
      * left. split; [reflexivity|]. split; [exact H|congruence].
      * contradiction.
    + right. left. auto.
    + right. right. auto.
Qed.

(** On three parsed versions compared in full two by two, [Compare] is
    transitive. *)
Lemma Compare_full_trans (sa sb sc : str) (a b c : Version) :
  NewVersion sa = Ok a -> NewVersion sb = Ok b -> NewVersion sc = Ok c ->
  comparedInFull a b -> comparedInFull b c -> comparedInFull a c ->
  (Compare a b = -1 -> Compare b c = -1 -> Compare a c = -1) /\
  (Compare a b = 1 -> Compare b c = 1 -> Compare a c = 1) /\
  (Compare a b = 0 -> Compare a c = Compare b c).
Proof.
  intros Ha Hb Hc Fab Fbc Fac.
  pose proof (Compare_full_spec sa sb a b Ha Hb Fab) as Sab.
  pose proof (Compare_full_spec sb sc b c Hb Hc Fbc) as Sbc.
  pose proof (Compare_full_spec sa sc a c Ha Hc Fac) as Sac.
  split; [|split].
  - intros H1 H2.
    destruct Sab as [[C _]|[[_ L1]|[C _]]]; [lia| |lia].
    destruct Sbc as [[C _]|[[_ L2]|[C _]]]; [lia| |lia].
    pose proof (verLt_trans _ _ _ L1 L2) as L.
    destruct Sac as [[_ E]|[[C _]|[_ G]]]; [|exact C|].
    + exfalso. exact (verEq_verLt_absurd _ _ E L).
    + exfalso. exact (verLt_asym _ _ L G).
  - intros H1 H2.
    destruct Sab as [[C _]|[[C _]|[_ L1]]]; [lia|lia|].
    destruct Sbc as [[C _]|[[C _]|[_ L2]]]; [lia|lia|].
    pose proof (verLt_trans _ _ _ L2 L1) as L.
    destruct Sac as [[_ E]|[[_ G]|[C _]]]; [| |exact C].
    + exfalso. exact (verEq_verLt_absurd _ _ (verEq_sym _ _ E) L).
    + exfalso. exact (verLt_asym _ _ L G).
  - intros H1.
    destruct Sab as [[_ Eab]|[[C _]|[C _]]]; [|lia|lia].
    destruct Sbc as [[C2 E2]|[[C2 L2]|[C2 L2]]]; rewrite C2.
    + pose proof (verEq_trans _ _ _ Eab E2) as E.
      destruct Sac as [[C _]|[[_ G]|[_ G]]]; [exact C| |].
      * exfalso. exact (verEq_verLt_absurd _ _ E G).
      * exfalso. exact (verEq_verLt_absurd _ _ (verEq_sym _ _ E) G).
    + pose proof (verEq_verLt _ _ _ Eab L2) as L.
      destruct Sac as [[_ E]|[[C _]|[_ G]]]; [|exact C|].
      * exfalso. exact (verEq_verLt_absurd _ _ E L).
      * exfalso. exact (verLt_asym _ _ L G).
    + pose proof (verLt_verEq _ _ _ L2 (verEq_sym _ _ Eab)) as L.
      destruct Sac as [[_ E]|[[_ G]|[C _]]]; [| |exact C].
      * exfalso. exact (verEq_verLt_absurd _ _ (verEq_sym _ _ E) L).
      * exfalso. exact (verLt_asym _ _ L G).
Qed.

(** Versions with equally many segments, whose prereleases, when both are
    present, have equally many tokens, are compared in full. *)
Lemma comparedInFull_same_shape (x y : Version) :
  length (segments x) = length (segments y) ->
  (pre x = [] \/ pre y = [] \/
   length (Split (pre x) "."%char) = length (Split (pre y) "."%char)) ->
  comparedInFull x y.
Proof.
  intros Hl Hp. split; [left; exact Hl|].
  intros _ Nx Ny. destruct Hp as [Hp|[Hp|Hp]]; [contradiction|contradiction|].
  split; intros (t & r & E); apply (f_equal (@length str)) in E;
    rewrite length_app in E; cbn [length] in E; lia.
Qed.

(** C1 (amended): [Compare] returns -1, 0 or 1 and is antisymmetric, so
    that for every pair of versions exactly one of less than, equal and
    greater than holds.  It is transitive, and versions that compare as
    equal compare alike against a third one, on every three parsed
    versions of which each two are compared in full: their segments do
    not differ by trailing zeros only while a prerelease is present, and
    with the same segments and two prereleases neither token list stops
    where the other goes on.  This holds in particular for parsed versions
    with equally many segments whose prereleases are empty or have equally
    many tokens, and for parsed versions without prerelease. *)
Theorem Compare_antisymmetric_total :
  (forall a b : Version, Compare a b = - Compare b a) /\
  (forall a b : Version,
     Compare a b = -1 \/ Compare a b = 0 \/ Compare a b = 1) /\
  (forall a b : Version,
     (LessThan a b = true /\ Equal a b = false /\ GreaterThan a b = false) \/
     (LessThan a b = false /\ Equal a b = true /\ GreaterThan a b = false) \/
     (LessThan a b = false /\ Equal a b = false /\ GreaterThan a b = true)) /\
  (forall a b : Version,
     LessThan a b = GreaterThan b a /\ Equal a b = Equal b a) /\
  (forall (sa sb sc : str) (a b c : Version),
     NewVersion sa = Ok a -> NewVersion sb = Ok b -> NewVersion sc = Ok c ->
     Prerelease a = [] -> Prerelease b = [] -> Prerelease c = [] ->
     (Compare a b = -1 -> Compare b c = -1 -> Compare a c = -1) /\
     (Compare a b = 1 -> Compare b c = 1 -> Compare a c = 1) /\
     (Compare a b = 0 -> Compare a c = Compare b c)) /\
  (forall (sa sb sc : str) (a b c : Version),
     NewVersion sa = Ok a -> NewVersion sb = Ok b -> NewVersion sc = Ok c ->
     comparedInFull a b -> comparedInFull b c -> comparedInFull a c ->
     (Compare a b = -1 -> Compare b c = -1 -> Compare a c = -1) /\
     (Compare a b = 1 -> Compare b c = 1 -> Compare a c = 1) /\
     (Compare a b = 0 -> Compare a c = Compare b c)) /\
  (forall (sa sb sc : str) (a b c : Version),
     NewVersion sa = Ok a -> NewVersion sb = Ok b -> NewVersion sc = Ok c ->
     length (Segments a) = length (Segments b) ->
     length (Segments b) = length (Segments c) ->
     (Prerelease a = [] \/ Prerelease b = [] \/
      length (Split (Prerelease a) "."%char) =
      length (Split (Prerelease b) "."%char)) ->
     (Prerelease b = [] \/ Prerelease c = [] \/
      length (Split (Prerelease b) "."%char) =
      length (Split (Prerelease c) "."%char)) ->
     (Prerelease a = [] \/ Prerelease c = [] \/
      length (Split (Prerelease a) "."%char) =
      length (Split (Prerelease c) "."%char)) ->
     (Compare a b = -1 -> Compare b c = -1 -> Compare a c = -1) /\
     (Compare a b = 1 -> Compare b c = 1 -> Compare a c = 1) /\
     (Compare a b = 0 -> Compare a c = Compare b c)).
Proof.
  split; [exact Compare_antisym|]. split; [exact Compare_values|].
  split; [|split; [|split; [|split]]].
  - intros a b. unfold LessThan, Equal, GreaterThan.
    destruct (Compare_values a b) as [H|[H|H]]; rewrite H; auto.
  - intros a b. unfold LessThan, Equal, GreaterThan.
    rewrite (Compare_antisym b a).
    destruct (Compare_values a b) as [H|[H|H]]; rewrite H; auto.
  - intros sa sb sc a b c Ha Hb Hc Pa Pb Pc. unfold Prerelease in *.
    apply NewVersion_nonneg in Ha, Hb, Hc.
    rewrite (Compare_release a b), (Compare_release b c), (Compare_release a c)
      by assumption.
    split; [|split].
    + apply cmpSegs_lt_trans; assumption.
    + intros H1 H2.
      rewrite cmpSegs_antisym.
      rewrite (cmpSegs_lt_trans (segments c) (segments b) (segments a));
        try assumption.
      * reflexivity.
      * rewrite cmpSegs_antisym, H2. reflexivity.
      * rewrite cmpSegs_antisym, H1. reflexivity.
    + apply cmpSegs_eq_congr; assumption.
  - exact Compare_full_trans.
  - intros sa sb sc a b c Ha Hb Hc Lab Lbc Pab Pbc Pac.
    unfold Segments, Prerelease in *.
    apply (Compare_full_trans sa sb sc a b c Ha Hb Hc);
      apply comparedInFull_same_shape; solve [assumption | congruence].
Qed.

Lemma Compare_antisymmetric_total_witness :
  (Compare (mkVersion [] [] [1; 0; 0] 2) (mkVersion [] [] [1; 0; 1] 3) =
   Compare (mkVersion [] [] [1; 0; 0; 0] 4) (mkVersion [] [] [1; 0; 1] 3) /\
   Compare (mkVersion [] [] [1; 0; 0] 2) (mkVersion [] [] [1; 1; 0] 2) = -1) /\
  Compare (mkVersion [] (lit "alpha.1") [1; 0; 0] 3)
          (mkVersion [] [] [1; 0; 1; 0] 4) = -1 /\
  Compare (mkVersion [] (lit "alpha.1") [1; 0; 0] 3)
          (mkVersion [] [] [1; 0; 0] 3) = -1.
Proof.
  destruct Compare_antisymmetric_total as (_ & _ & _ & _ & H & F & S).
  split; [split|split].
  - destruct (H (lit "1.0") (lit "1.0.0.0") (lit "1.0.1")
                (mkVersion [] [] [1; 0; 0] 2) (mkVersion [] [] [1; 0; 0; 0] 4)
                (mkVersion [] [] [1; 0; 1] 3)) as (_ & _ & Heq);
      [reflexivity..|].
    apply Heq. reflexivity.
  - destruct (H (lit "1.0") (lit "1.0.1") (lit "1.1")
                (mkVersion [] [] [1; 0; 0] 2) (mkVersion [] [] [1; 0; 1] 3)
                (mkVersion [] [] [1; 1; 0] 2)) as (Hlt & _);
      [reflexivity..|].
    apply Hlt; reflexivity.
  - destruct (F (lit "1.0.0-alpha.1") (lit "1.0.0-alpha.2") (lit "1.0.1.0")
                (mkVersion [] (lit "alpha.1") [1; 0; 0] 3)
                (mkVersion [] (lit "alpha.2") [1; 0; 0] 3)
                (mkVersion [] [] [1; 0; 1; 0] 4)) as (Hlt & _);
      [reflexivity| reflexivity| reflexivity| | | |].
    + split; [left; reflexivity|]. intros _ _ _.
      split; intros (t & r & E); discriminate E.
    + split; [right; right|]; cbn [segments pre]; [|discriminate].
      intros E. specialize (E 2%nat). discriminate E.
    + split; [right; right|]; cbn [segments pre]; [|discriminate].
      intros E. specialize (E 2%nat). discriminate E.
    + apply Hlt; reflexivity.
  - destruct (S (lit "1.0.0-alpha.1") (lit "1.0.0-alpha.2") (lit "1.0.0")
                (mkVersion [] (lit "alpha.1") [1; 0; 0] 3)
                (mkVersion [] (lit "alpha.2") [1; 0; 0] 3)
                (mkVersion [] [] [1; 0; 0] 3)) as (Hlt & _);
      [reflexivity| reflexivity| reflexivity| reflexivity| reflexivity
      | right; right; reflexivity| right; left; reflexivity
      | right; left; reflexivity|].
    apply Hlt; reflexivity.
Defined.
